(** * Sytha legal assistant: chunking, ingestion, retrieval and formatting

    A shallow embedding of the TypeScript sources of the retrieval-augmented
    legal assistant (lib/upload.ts, lib/openai.ts, lib/pinecone.ts, lib/rag.ts,
    the indexing route and script, the chat route and the response formatter
    of components/Chat.tsx), followed by the properties proved about them.

    JavaScript strings are sequences of UTF-16 code units; they are modelled
    as lists of code units, so that [length], [slice] and [trim] count and
    cut exactly what the source counts and cuts. *)

From Stdlib Require Import String Ascii.
From Stdlib Require Import Numbers.DecimalString Decimal DecimalNat DecimalFacts.
From Stdlib Require Import List Arith Lia Bool NArith FinFun.
Import ListNotations.

(* ================================================================== *)
(** ** JavaScript strings *)
(* ================================================================== *)

Module Js.

Definition char := N.
Definition str := list char.

(** A literal of the source, written as a Rocq string of ASCII characters. *)
Definition lit (s : string) : str := map N_of_ascii (list_ascii_of_string s).
Arguments lit s%_string : simpl never.

(** Decimal rendering of a number, as template literals do. *)
Definition of_nat (n : nat) : str := lit (NilZero.string_of_uint (Nat.to_uint n)).
Arguments of_nat : simpl never.

Fixpoint eqb (a b : str) : bool :=
  match a, b with
  | [], [] => true
  | x :: a', y :: b' => N.eqb x y && eqb a' b'
  | _, _ => false
  end.

(** Truthiness of a string: only the empty string is falsy. *)
Definition truthy (s : str) : bool :=
  match s with [] => false | _ :: _ => true end.

(** ECMAScript WhiteSpace and LineTerminator code points: what
    [String.prototype.trim] strips and what the regular expression class
    [\s] matches. *)
Definition isWhiteSpace (c : char) : bool :=
  ((9 <=? c) && (c <=? 13) || (c =? 32) || (c =? 160) || (c =? 5760)
   || (8192 <=? c) && (c <=? 8202) || (c =? 8232) || (c =? 8233)
   || (c =? 8239) || (c =? 8287) || (c =? 12288) || (c =? 65279))%N.

(** LineTerminator code points: what [.] refuses in a regular expression. *)
Definition isLineTerminator (c : char) : bool :=
  ((c =? 10) || (c =? 13) || (c =? 8232) || (c =? 8233))%N.

Fixpoint trimStart (s : str) : str :=
  match s with
  | [] => []
  | c :: r => if isWhiteSpace c then trimStart r else s
  end.

Fixpoint trimEnd (s : str) : str :=
  match s with
  | [] => []
  | c :: r =>
      match trimEnd r with
      | [] => if isWhiteSpace c then [] else [c]
      | r' => c :: r'
      end
  end.

Definition trim (s : str) : str := trimEnd (trimStart s).

(** [s.slice(a, b)] for [0 <= a], [0 <= b]; indices beyond the length are
    clamped and [b < a] gives the empty string, as in the language. *)
Definition slice (s : str) (a b : nat) : str := firstn (b - a) (skipn a s).

(** [s.substring(0, n)] and [s.slice(0, n)]. *)
Definition prefix (s : str) (n : nat) : str := firstn n s.

(** The characters [trim] can never remove. *)
Definition nonWhite (s : str) : str :=
  filter (fun c => negb (isWhiteSpace c)) s.

(** [hay.includes(needle)]. *)
Fixpoint startsWith (needle hay : str) : bool :=
  match needle, hay with
  | [], _ => true
  | _ :: _, [] => false
  | a :: n', b :: h' => N.eqb a b && startsWith n' h'
  end.

Fixpoint includes (hay needle : str) : bool :=
  startsWith needle hay ||
  match hay with
  | [] => false
  | _ :: h' => includes h' needle
  end.

(** [parts.join(sep)]. *)
Fixpoint join (sep : str) (parts : list str) : str :=
  match parts with
  | [] => []
  | [p] => p
  | p :: rest => p ++ sep ++ join sep rest
  end.

(** [s.split(" ")]: the pieces between single space characters; an empty
    input gives one empty piece. *)
Fixpoint splitSpace (s : str) : list str :=
  match s with
  | [] => [[]]
  | c :: r =>
      if N.eqb c 32 then [] :: splitSpace r
      else match splitSpace r with
           | w :: ws => (c :: w) :: ws
           | [] => [[c]]
           end
  end.

End Js.

Arguments Js.lit s%_string : simpl never.
Arguments Js.of_nat n : simpl never.

(* ================================================================== *)
(** ** lib/upload.ts: the fixed-window chunker *)
(* ================================================================== *)

(** The [while (start < text.length)] loop of [chunkText], for [maxChars]
    a whole number of characters.  [fuel] bounds the number of
    iterations; the loop runs out of it only when it makes no progress
    ([maxChars = 0]), where the source loops forever. *)
Fixpoint chunkText_loop (fuel : nat) (text : Js.str) (maxChars : nat)
    (start : nat) (chunks : list Js.str) : option (list Js.str) :=
  if start <? length text then
    match fuel with
    | 0 => None
    | S fuel' =>
        let end_ := Nat.min (start + maxChars) (length text) in
        let chunk := Js.trim (Js.slice text start end_) in
        let chunks' := if Js.truthy chunk then chunks ++ [chunk] else chunks in
        chunkText_loop fuel' text maxChars end_ chunks'
    end
  else Some chunks.

Definition chunkText (text : Js.str) (maxChars : nat) : option (list Js.str) :=
  chunkText_loop (length text) text maxChars 0 [].

Definition chunkText_default : nat := 1500.

(** What holds of the chunk list whenever control is at the head of the
    loop of [chunkText]. *)
Record chunk_inv (text : Js.str) (maxChars start : nat)
    (chunks : list Js.str) : Prop := {
  inv_bound : Forall (fun c => length c <= maxChars) chunks;
  inv_trimmed : Forall (fun c => Js.trim c <> []) chunks;
  inv_content : Js.nonWhite (concat chunks) = Js.nonWhite (firstn start text)
}.

(* ================================================================== *)
(** ** The word-aware chunker of the indexing route and script *)
(* ================================================================== *)

Record LegalSection := {
  ls_id : Js.str;
  ls_act : Js.str;
  ls_section : Js.str;
  ls_title : Js.str;
  ls_description : Js.str;
  ls_text : option Js.str        (* [text?: string] *)
}.

Record ChunkMetadata := {
  cm_act : Js.str;
  cm_section : Js.str;
  cm_title : Js.str;
  cm_source : Js.str;
  cm_chunkIndex : option nat     (* absent on a section kept whole *)
}.

Record Chunk := {
  ch_id : Js.str;
  ch_text : Js.str;
  ch_metadata : ChunkMetadata
}.

(** [section.text || ""]. *)
Definition textOrEmpty (s : LegalSection) : Js.str :=
  match ls_text s with Some t => t | None => [] end.

(** The template literal both chunkers start from. *)
Definition sectionTemplate (s : LegalSection) : Js.str :=
  ls_act s ++ Js.lit " - Section " ++ ls_section s ++ Js.lit ": " ++ ls_title s
  ++ [10; 10]%N ++ ls_description s ++ [10; 10]%N ++ textOrEmpty s.

Definition wholeChunk (s : LegalSection) (fullText : Js.str) : Chunk :=
  {| ch_id := ls_id s;
     ch_text := fullText;
     ch_metadata := {| cm_act := ls_act s; cm_section := ls_section s;
                       cm_title := ls_title s;
                       cm_source := Js.lit "legal_dataset";
                       cm_chunkIndex := None |} |}.

Definition partChunk (s : LegalSection) (chunkIndex : nat) (text : Js.str) : Chunk :=
  {| ch_id := ls_id s ++ Js.lit "_chunk_" ++ Js.of_nat chunkIndex;
     ch_text := text;
     ch_metadata := {| cm_act := ls_act s; cm_section := ls_section s;
                       cm_title := ls_title s;
                       cm_source := Js.lit "legal_dataset";
                       cm_chunkIndex := Some chunkIndex |} |}.

(** The variables the [for (const word of words)] loop updates. *)
Record WordLoop := {
  wl_chunks : list Chunk;
  wl_currentChunk : Js.str;
  wl_chunkIndex : nat
}.

(** One iteration of the word loop. *)
Definition wordStep (s : LegalSection) (chunkSize : nat) (st : WordLoop)
    (word : Js.str) : WordLoop :=
  let currentChunk := wl_currentChunk st in
  if (chunkSize <? length (currentChunk ++ Js.lit " " ++ word))
     && (0 <? length currentChunk)
  then {| wl_chunks :=
            wl_chunks st ++ [partChunk s (wl_chunkIndex st) (Js.trim currentChunk)];
          wl_currentChunk := word;
          wl_chunkIndex := S (wl_chunkIndex st) |}
  else {| wl_chunks := wl_chunks st;
          wl_currentChunk :=
            currentChunk ++ (if Js.truthy currentChunk then Js.lit " " else []) ++ word;
          wl_chunkIndex := wl_chunkIndex st |}.

(** The flush after the word loop. *)
Definition wordFlush (s : LegalSection) (st : WordLoop) : list Chunk :=
  if Js.truthy (Js.trim (wl_currentChunk st))
  then wl_chunks st ++ [partChunk s (wl_chunkIndex st) (Js.trim (wl_currentChunk st))]
  else wl_chunks st.

(** The body of [for (const section of sections)]: what one section adds
    to [chunks], given the full text built for it. *)
Definition chunkSection (s : LegalSection) (fullText : Js.str) (chunkSize : nat)
    (chunks : list Chunk) : list Chunk :=
  if length fullText <=? chunkSize then chunks ++ [wholeChunk s fullText]
  else
    let words := Js.splitSpace fullText in
    wordFlush s
      (fold_left (wordStep s chunkSize) words
         {| wl_chunks := chunks; wl_currentChunk := []; wl_chunkIndex := 0 |}).

(** The indexing route trims the full text first. *)
Definition routeFullText (s : LegalSection) : Js.str := Js.trim (sectionTemplate s).

(** The indexing script uses it as it is. *)
Definition scriptFullText (s : LegalSection) : Js.str := sectionTemplate s.

(** [chunkAndPrepareDocuments] of the indexing route (default size 800). *)
Definition chunkAndPrepareDocuments (sections : list LegalSection)
    (chunkSize : nat) : list Chunk :=
  fold_left (fun chunks s => chunkSection s (routeFullText s) chunkSize chunks)
    sections [].

(** [chunkLegalSections] of the indexing script (default size 1000). *)
Definition chunkLegalSections (sections : list LegalSection)
    (chunkSize : nat) : list Chunk :=
  fold_left (fun chunks s => chunkSection s (scriptFullText s) chunkSize chunks)
    sections [].

Definition chunkAndPrepareDocuments_default : nat := 800.
Definition chunkLegalSections_default : nat := 1000.

(** The words of a text: the non-empty pieces between spaces. *)
Definition words (s : Js.str) : list Js.str := filter Js.truthy (Js.splitSpace s).

(** Sample records used to exercise the chunkers. *)
Definition sampleLongWord : LegalSection :=
  {| ls_id := Js.lit "ipc_1"; ls_act := Js.lit "IPC"; ls_section := Js.lit "1";
     ls_title := Js.lit "T"; ls_description := Js.lit "d";
     ls_text := Some (repeat 97%N 1200) |}.

Definition sampleNewlineWord : LegalSection :=
  {| ls_id := Js.lit "ipc_2"; ls_act := Js.lit "IPC"; ls_section := Js.lit "2";
     ls_title := Js.lit "T"; ls_description := Js.lit "d";
     ls_text := Some (Js.lit "aaa bbb" ++ [10; 32]%N ++ Js.lit "ccc ddd eee") |}.

(** The length promise of the word-aware chunker, as the specification
    words it. *)
Definition allWithin (chunkSize : nat) (chunks : list Chunk) : Prop :=
  Forall (fun c => length (ch_text c) <= chunkSize) chunks.

(** What the word loop guarantees instead: a chunk exceeds the size only
    when it is one single word of some section, longer than the size. *)
Definition withinOrSingleWord (fullTextOf : LegalSection -> Js.str)
    (sections : list LegalSection) (chunkSize : nat) (c : Chunk) : Prop :=
  length (ch_text c) <= chunkSize
  \/ exists s w, In s sections /\ In w (Js.splitSpace (fullTextOf s))
                 /\ chunkSize < length w /\ ch_text c = Js.trim w.

(** The accumulated text of the word loop is within the size or is one
    long word. *)
Definition currentWithinOrWord (fullTextOf : LegalSection -> Js.str)
    (chunkSize : nat) (s : LegalSection) (cur : Js.str) : Prop :=
  length cur <= chunkSize
  \/ (In cur (Js.splitSpace (fullTextOf s)) /\ chunkSize < length cur).

(** Every word whole in the chunks: cutting the chunks at spaces gives
    back the words of the text. *)
Definition wordsWhole (fullText : Js.str) (texts : list Js.str) : Prop :=
  concat (map words texts) = words fullText.

(** The chunk made of a run of consecutive words. *)
Definition groupText (g : list Js.str) : Js.str := Js.trim (Js.join (Js.lit " ") g).

(** The texts of one section's chunks against the words of its full text:
    either the text is kept whole, or its words are cut into consecutive
    non-empty runs, one chunk per run, each chunk being the run joined by
    single spaces and trimmed; only a last run of whitespace-only words
    may be left out. *)
Definition wordPartition (chunkSize : nat) (fullText : Js.str)
    (texts : list Js.str) : Prop :=
  (length fullText <= chunkSize /\ texts = [fullText])
  \/ (chunkSize < length fullText
      /\ exists groups rest,
           concat groups ++ rest = Js.splitSpace fullText
           /\ texts = map groupText groups
           /\ Forall (fun g => g <> []) groups
           /\ Forall (fun w => Js.trim w = []) rest).

(** What holds at the head of the word loop: the chunks pushed so far are
    the runs [done], and the run [g] being accumulated, joined by spaces,
    is the current text after some leading spaces (empty words at the
    start of a run add no space to the current text). *)
Record word_inv (base : list Js.str) (st : WordLoop)
    (done : list (list Js.str)) (g : list Js.str) : Prop := {
  wi_texts : map ch_text (wl_chunks st) = base ++ map groupText done;
  wi_current : exists k, Js.join (Js.lit " ") g = repeat 32%N k ++ wl_currentChunk st;
  wi_groups : Forall (fun g => g <> []) done
}.

(* ================================================================== *)
(** ** The process, its environment and the external services *)
(* ================================================================== *)

(** A thrown value: an [Error] with its [name] and [message]. *)
Record Exn := { exn_name : Js.str; exn_message : Js.str }.

Definition mkError (message : Js.str) : Exn :=
  {| exn_name := Js.lit "Error"; exn_message := message |}.

Definition mkConfigurationError (message : Js.str) : Exn :=
  {| exn_name := Js.lit "ConfigurationError"; exn_message := message |}.

Definition mkTypeError (message : Js.str) : Exn :=
  {| exn_name := Js.lit "TypeError"; exn_message := message |}.

(** [String(error)] and [`${error}`] of an [Error]: its name, a colon
    and its message; the message alone when the name is empty, the name
    alone when the message is. *)
Definition stringOfExn (e : Exn) : Js.str :=
  match exn_name e, exn_message e with
  | [], message => message
  | name, [] => name
  | name, message => name ++ Js.lit ": " ++ message
  end.

(** The variables of [process.env] the sources read; [None] is
    [undefined]. *)
Record Env := {
  OPENAI_API_KEY : option Js.str;
  PINECONE_API_KEY : option Js.str;
  PINECONE_INDEX : option Js.str;
  NODE_ENV : option Js.str
}.

(** Truthiness of an environment variable. *)
Definition isSet (v : option Js.str) : bool :=
  match v with Some (_ :: _) => true | _ => false end.

Definition valueOr (v : option Js.str) (d : Js.str) : Js.str :=
  match v with Some (c :: r) => c :: r | _ => d end.

(** An embedding vector: the bit patterns of its components, which the
    sources pass along and never inspect. *)
Definition Embedding := list N.

Inductive MetaValue := MStr (s : Js.str) | MNum (n : nat).

(** A metadata object: its own properties in insertion order. *)
Definition Metadata := list (Js.str * MetaValue).

(** [{ ...metadata, key: value }]. *)
Fixpoint setField (key : Js.str) (value : MetaValue) (m : Metadata) : Metadata :=
  match m with
  | [] => [(key, value)]
  | (k, v) :: rest =>
      if Js.eqb k key then (k, value) :: rest
      else (k, v) :: setField key value rest
  end.

Record VectorRecord := {
  vr_id : Js.str;
  vr_values : option Embedding;          (* [embeddings[idx]], possibly undefined *)
  vr_metadata : Metadata
}.

(** The metadata fields of a query match that the retriever reads. *)
Record MatchMetadata := {
  md_id : option Js.str;
  md_act : option Js.str;
  md_section : option Js.str;
  md_title : option Js.str;
  md_text : option Js.str;
  md_content : option Js.str;
  md_body : option Js.str;
  md_source : option Js.str
}.

Record Match := {
  m_id : Js.str;
  m_score : option N;
  m_metadata : option MatchMetadata
}.

Record IndexStats := {
  totalRecordCount : option nat;
  dimension : option nat
}.

(** A call that leaves the process for an external service. *)
Inductive ExternalCall :=
| EmbeddingsCreate (input : list Js.str)
| IndexUpsert (vectors : list VectorRecord)
| IndexQuery (vector : Embedding) (topK : nat)
| IndexDescribeStats
| IndexDeleteAll
| ChatCompletionsCreate (system user : Js.str).

(** A call as it happened: what was asked and whether it was answered
    ([false]: the call threw or its promise was rejected). *)
Record CallRecord := { cr_call : ExternalCall; cr_ok : bool }.

Inductive LogLevel := DEBUG | INFO | WARN | ERROR | FATAL.

(** A line handed to a logger of lib/logger.ts (the context object that
    may accompany it is left out). *)
Record LogEntry := { log_module : Js.str; log_level : LogLevel; log_message : Js.str }.

(** The external services, as functions of a world [W] they may change:
    each answers or fails ([inl]). *)
Record Services (W : Type) := {
  embeddings_create : list Js.str -> W -> (Exn + list Embedding) * W;
  index_upsert : list VectorRecord -> W -> (Exn + unit) * W;
  index_query : Embedding -> nat -> W -> (Exn + option (list Match)) * W;
  index_describeIndexStats : W -> (Exn + IndexStats) * W;
  index_deleteAll : W -> (Exn + unit) * W;
  chat_completions_create : Js.str -> Js.str -> W -> (Exn + option Js.str) * W
}.

Arguments embeddings_create {W}.
Arguments index_upsert {W}.
Arguments index_query {W}.
Arguments index_describeIndexStats {W}.
Arguments index_deleteAll {W}.
Arguments chat_completions_create {W}.

(** The state of the Node process: the world outside, what was called and
    logged so far, and the module-level variables of the sources. *)
Record Process (W : Type) := {
  world : W;
  calls : list CallRecord;
  logs : list LogEntry;
  openaiClient : bool;        (* lib/openai.ts:   [client !== null] *)
  pineconeClient : bool;      (* lib/pinecone.ts: [client !== null] *)
  initialized : bool          (* api/chat/route.ts: [initialized] *)
}.

Arguments world {W}.
Arguments calls {W}.
Arguments logs {W}.
Arguments openaiClient {W}.
Arguments pineconeClient {W}.
Arguments initialized {W}.

(** How a computation ends: with a value, with a thrown value, or with the
    loop bound of the model used up. *)
Inductive Result (A : Type) :=
| Ok (a : A)
| Thrown (e : Exn)
| OutOfFuel.

Arguments Ok {A}.
Arguments Thrown {A}.
Arguments OutOfFuel {A}.

Definition M (W A : Type) : Type := Process W -> Result A * Process W.

Definition ret {W A} (a : A) : M W A := fun p => (Ok a, p).

Definition bind {W A B} (c : M W A) (k : A -> M W B) : M W B :=
  fun p =>
    match c p with
    | (Ok a, p') => k a p'
    | (Thrown e, p') => (Thrown e, p')
    | (OutOfFuel, p') => (OutOfFuel, p')
    end.

Definition throw {W A} (e : Exn) : M W A := fun p => (Thrown e, p).

Definition outOfFuel {W A} : M W A := fun p => (OutOfFuel, p).

(** [try { body } catch (error) { handler(error) }]. *)
Definition tryCatch {W A} (body : M W A) (handler : Exn -> M W A) : M W A :=
  fun p =>
    match body p with
    | (Thrown e, p') => handler e p'
    | other => other
    end.

Notation "x <- c ;; k" := (bind c (fun x => k))
  (at level 61, c at next level, right associativity).
Notation "c ;; k" := (bind c (fun _ => k))
  (at level 61, right associativity).

Definition log {W} (module : Js.str) (level : LogLevel) (message : Js.str) : M W unit :=
  fun p =>
    (Ok tt,
     {| world := world p; calls := calls p;
        logs := logs p ++ [{| log_module := module; log_level := level;
                              log_message := message |}];
        openaiClient := openaiClient p; pineconeClient := pineconeClient p;
        initialized := initialized p |}).

(** An awaited call to a service: the world answers, the call is recorded,
    and a failure is thrown. *)
Definition callService {W A} (c : ExternalCall) (f : W -> (Exn + A) * W) : M W A :=
  fun p =>
    let '(r, w') := f (world p) in
    let record ok :=
      {| world := w'; calls := calls p ++ [{| cr_call := c; cr_ok := ok |}];
         logs := logs p;
         openaiClient := openaiClient p; pineconeClient := pineconeClient p;
         initialized := initialized p |} in
    match r with
    | inr a => (Ok a, record true)
    | inl e => (Thrown e, record false)
    end.

Definition setOpenaiClient {W} : M W unit :=
  fun p => (Ok tt, {| world := world p; calls := calls p; logs := logs p;
                      openaiClient := true; pineconeClient := pineconeClient p;
                      initialized := initialized p |}).

Definition setPineconeClient {W} : M W unit :=
  fun p => (Ok tt, {| world := world p; calls := calls p; logs := logs p;
                      openaiClient := openaiClient p; pineconeClient := true;
                      initialized := initialized p |}).

Definition setInitialized {W} : M W unit :=
  fun p => (Ok tt, {| world := world p; calls := calls p; logs := logs p;
                      openaiClient := openaiClient p;
                      pineconeClient := pineconeClient p;
                      initialized := true |}).

Definition get {W A} (f : Process W -> A) : M W A := fun p => (Ok (f p), p).

(* ================================================================== *)
(** ** lib/env.ts, lib/openai.ts, lib/pinecone.ts *)
(* ================================================================== *)

Section Clients.

Context {W : Type}.
Variable svc : Services W.
Variable env : Env.

(** [validateEnvVar(name, value)] with [required] left at its default. *)
Definition validateEnvVar (name : Js.str) (value : option Js.str) : M W Js.str :=
  if isSet value then ret (valueOr value [])
  else throw (mkConfigurationError
                (Js.lit "Missing required environment variable: " ++ name)).

Record EnvironmentConfig := {
  cfg_openai_apiKey : Js.str;
  cfg_openai_model : Js.str;
  cfg_pinecone_apiKey : Js.str;
  cfg_pinecone_index : Js.str
}.

(** [getEnvConfig]: the environment does not change while the process
    runs, so the cached configuration and a fresh one are the same.  The
    warnings it prints on the console are left out. *)
Definition getEnvConfig : M W EnvironmentConfig :=
  openaiApiKey <- validateEnvVar (Js.lit "OPENAI_API_KEY") (OPENAI_API_KEY env) ;;
  pineconeApiKey <- validateEnvVar (Js.lit "PINECONE_API_KEY") (PINECONE_API_KEY env) ;;
  pineconeIndex <- validateEnvVar (Js.lit "PINECONE_INDEX") (PINECONE_INDEX env) ;;
  ret {| cfg_openai_apiKey := openaiApiKey;
         cfg_openai_model := Js.lit "gpt-4o-mini";
         cfg_pinecone_apiKey := pineconeApiKey;
         cfg_pinecone_index := pineconeIndex |}.

Record Validation := { valid : bool; validation_errors : list Js.str }.

Definition validateEnvironment : M W Validation :=
  errors <- tryCatch
              (config <- getEnvConfig ;;
               let e1 :=
                 if negb (Js.truthy (cfg_openai_apiKey config))
                 then [Js.lit "OPENAI_API_KEY is not configured"]
                 else if negb (Js.startsWith (Js.lit "sk-") (cfg_openai_apiKey config))
                 then [Js.lit "OPENAI_API_KEY appears to be invalid (should start with "
                       ++ [34%N] ++ Js.lit "sk-" ++ [34%N] ++ Js.lit ")"]
                 else [] in
               let e2 :=
                 if negb (Js.truthy (cfg_pinecone_apiKey config))
                 then [Js.lit "PINECONE_API_KEY is not configured"] else [] in
               let e3 :=
                 if negb (Js.truthy (cfg_pinecone_index config))
                 then [Js.lit "PINECONE_INDEX is not configured"] else [] in
               ret (e1 ++ e2 ++ e3))
              (fun error =>
                 if Js.eqb (exn_name error) (Js.lit "ConfigurationError")
                 then ret [exn_message error]
                 else ret [Js.lit "Configuration validation error: "
                           ++ stringOfExn error]) ;;
  ret {| valid := match errors with [] => true | _ => false end;
         validation_errors := errors |}.

Definition getPineconeClient : M W unit :=
  config <- getEnvConfig ;;
  if negb (Js.truthy (cfg_pinecone_apiKey config)) then
    log (Js.lit "Pinecone") FATAL
      (Js.lit "PINECONE_API_KEY is not set in the environment") ;;
    throw (mkError (Js.lit "[pinecone] PINECONE_API_KEY is not set in the environment."))
  else
    have <- get pineconeClient ;;
    if have then ret tt
    else
      log (Js.lit "Pinecone") INFO (Js.lit "Initializing Pinecone client") ;;
      setPineconeClient ;;
      log (Js.lit "Pinecone") INFO (Js.lit "Pinecone client initialized successfully").

(** [getPineconeIndex]: the handle it returns is the right to call the
    index operations of [svc]. *)
Definition getPineconeIndex : M W unit :=
  config <- getEnvConfig ;;
  if negb (Js.truthy (cfg_pinecone_index config)) then
    log (Js.lit "Pinecone") FATAL
      (Js.lit "PINECONE_INDEX is not set in the environment") ;;
    throw (mkError (Js.lit "[pinecone] PINECONE_INDEX is not set in the environment."))
  else
    log (Js.lit "Pinecone") DEBUG (Js.lit "Accessing Pinecone index") ;;
    getPineconeClient.

Definition getOpenAIClient : M W unit :=
  have <- get openaiClient ;;
  if have then ret tt
  else
    if negb (isSet (OPENAI_API_KEY env)) then
      log (Js.lit "OpenAI") FATAL
        (Js.lit "OPENAI_API_KEY is not configured in the environment") ;;
      throw (mkError (Js.lit "OPENAI_API_KEY is not configured in the environment."))
    else
      log (Js.lit "OpenAI") INFO (Js.lit "Initializing OpenAI client") ;;
      setOpenaiClient ;;
      log (Js.lit "OpenAI") INFO (Js.lit "OpenAI client initialized successfully").

(** [embedTexts] of lib/openai.ts. *)
Definition embedTexts (texts : list Js.str) : M W (list Embedding) :=
  match texts with
  | [] =>
      log (Js.lit "OpenAI") DEBUG
        (Js.lit "No texts provided for embedding, returning empty array") ;;
      ret []
  | _ :: _ =>
      log (Js.lit "OpenAI") DEBUG
        (Js.lit "Generating embeddings for " ++ Js.of_nat (length texts)
         ++ Js.lit " text(s)") ;;
      tryCatch
        (getOpenAIClient ;;
         data <- callService (EmbeddingsCreate texts) (embeddings_create svc texts) ;;
         log (Js.lit "OpenAI") INFO
           (Js.lit "Generated " ++ Js.of_nat (length data) ++ Js.lit " embeddings") ;;
         ret data)
        (fun error =>
           log (Js.lit "OpenAI") ERROR (Js.lit "Failed to generate embeddings") ;;
           throw error)
  end.

End Clients.

(* ================================================================== *)
(** ** Bulk ingestion: lib/upload.ts, the indexing route and script *)
(* ================================================================== *)

(** [array.slice(a, b)]. *)
Definition sliceList {A} (l : list A) (a b : nat) : list A :=
  firstn (b - a) (skipn a l).

(** [array.map((x, idx) => f(idx, x))], counting from [i]. *)
Fixpoint mapFrom {A B} (f : nat -> A -> B) (i : nat) (l : list A) : list B :=
  match l with
  | [] => []
  | x :: r => f i x :: mapFrom f (S i) r
  end.

Record UploadedDoc := {
  ud_id : Js.str;
  ud_text : Js.str;
  ud_metadata : option Metadata
}.

Record UploadResult := {
  uploadedChunks : nat;
  errors : option (list Js.str)          (* [errors?: string[]] *)
}.

Definition chunkFields (m : ChunkMetadata) : Metadata :=
  [(Js.lit "act", MStr (cm_act m)); (Js.lit "section", MStr (cm_section m));
   (Js.lit "title", MStr (cm_title m)); (Js.lit "source", MStr (cm_source m))]
  ++ match cm_chunkIndex m with
     | Some k => [(Js.lit "chunkIndex", MNum k)]
     | None => []
     end.

Definition docVector (embeddings : list Embedding) (idx : nat) (doc : UploadedDoc)
  : VectorRecord :=
  {| vr_id := ud_id doc;
     vr_values := nth_error embeddings idx;
     vr_metadata :=
       setField (Js.lit "text") (MStr (Js.prefix (ud_text doc) 2000))
         (match ud_metadata doc with Some m => m | None => [] end) |}.

Definition chunkVector (textLimit : nat) (embeddings : list Embedding) (idx : nat)
    (chunk : Chunk) : VectorRecord :=
  {| vr_id := ch_id chunk;
     vr_values := nth_error embeddings idx;
     vr_metadata :=
       setField (Js.lit "text") (MStr (Js.prefix (ch_text chunk) textLimit))
         (chunkFields (ch_metadata chunk)) |}.

Record IndexingSummary := {
  totalDocuments : nat;
  totalChunks : nat;
  totalIndexed : nat;
  vectorCount : option nat
}.

(** The answers of the indexing route. *)
Inductive IndexingResponse :=
| IndexingCompleted (summary : IndexingSummary)          (* status 200 *)
| IndexingInvalid (errors : list Js.str)
    (* status 400, "Environment configuration is invalid" *)
| IndexingNoDocuments
    (* status 400, "No documents found to index" *)
| IndexingFailed (error : Js.str).                        (* status 500 *)

(** The body of a request to the indexing route. *)
Inductive IndexRequest :=
| IndexBodyUnreadable (e : Exn)
    (* [request.json()] is rejected, or the body is [null] and reading
       its [clearExisting] throws *)
| IndexBody (clearExisting : bool).
    (* the truthiness of [body.clearExisting] *)

(** What [loadAllDocuments] finds in the dataset directory: the sections
    of its files, or the error thrown while reading them.  [infos] are
    the lines [loadCSVFile] logs at INFO on the way, [failure] the line it
    logs at ERROR when the error comes out of it. *)
Inductive LoadOutcome :=
| Loaded (infos : list Js.str) (documents : list LegalSection)
| LoadFailed (infos : list Js.str) (failure : option Js.str) (e : Exn).

Section Ingestion.

Context {W : Type}.
Variable svc : Services W.
Variable env : Env.

Definition uploadBatchSize : nat := 50.

(** The [try] block of the loop of [uploadDocumentsToPinecone].  The pause
    that ends it calls no service and is not modelled. *)
Definition uploadBatch (batch : list UploadedDoc) (batchNum uploadedCount : nat)
  : M W nat :=
  log (Js.lit "Indexer") DEBUG
    (Js.lit "Processing batch " ++ Js.of_nat batchNum ++ Js.lit " ("
     ++ Js.of_nat (length batch) ++ Js.lit " documents)") ;;
  embeddings <- embedTexts svc env (map ud_text batch) ;;
  let vectors := mapFrom (docVector embeddings) 0 batch in
  callService (IndexUpsert vectors) (index_upsert svc vectors) ;;
  let uploadedCount := uploadedCount + length batch in
  log (Js.lit "Indexer") INFO
    (Js.lit "Batch " ++ Js.of_nat batchNum ++ Js.lit " uploaded successfully") ;;
  ret uploadedCount.

(** The [for (let i = 0; i < docs.length; i += batchSize)] loop; the pair
    it carries is [(uploadedCount, errors)]. *)
Fixpoint uploadLoop (fuel : nat) (docs : list UploadedDoc) (i : nat)
    (uploadedCount : nat) (errs : list Js.str) : M W (nat * list Js.str) :=
  if i <? length docs then
    match fuel with
    | 0 => outOfFuel
    | S fuel' =>
        let batch := sliceList docs i (i + uploadBatchSize) in
        let batchNum := i / uploadBatchSize + 1 in
        r <- tryCatch
               (n <- uploadBatch batch batchNum uploadedCount ;; ret (n, errs))
               (fun error =>
                  let errorMsg := Js.lit "Failed to upload batch "
                                  ++ Js.of_nat batchNum ++ Js.lit ": "
                                  ++ stringOfExn error in
                  log (Js.lit "Indexer") ERROR errorMsg ;;
                  ret (uploadedCount, errs ++ [errorMsg])) ;;
        uploadLoop fuel' docs (i + uploadBatchSize) (fst r) (snd r)
    end
  else ret (uploadedCount, errs).

(** [uploadDocumentsToPinecone] of lib/upload.ts. *)
Definition uploadDocumentsToPinecone (docs : list UploadedDoc) : M W UploadResult :=
  match docs with
  | [] =>
      log (Js.lit "Indexer") WARN (Js.lit "No documents provided for upload") ;;
      ret {| uploadedChunks := 0; errors := None |}
  | _ :: _ =>
      log (Js.lit "Indexer") INFO
        (Js.lit "Starting upload of " ++ Js.of_nat (length docs)
         ++ Js.lit " documents to Pinecone") ;;
      getPineconeIndex env ;;
      r <- uploadLoop (length docs) docs 0 0 [] ;;
      let '(uploadedCount, errs) := r in
      match errs with
      | _ :: _ =>
          log (Js.lit "Indexer") WARN
            (Js.lit "Upload completed with " ++ Js.of_nat (length errs)
             ++ Js.lit " errors")
      | [] =>
          log (Js.lit "Indexer") INFO
            (Js.lit "Successfully uploaded all " ++ Js.of_nat uploadedCount
             ++ Js.lit " documents")
      end ;;
      ret {| uploadedChunks := uploadedCount;
             errors := match errs with _ :: _ => Some errs | [] => None end |}
  end.

(** The [try] block of the batch loop of the indexing route (without its
    closing pause, which calls no service). *)
Definition routeBatch (chunks batch : list Chunk) (totalIndexed : nat) : M W nat :=
  embeddings <- embedTexts svc env (map ch_text batch) ;;
  let vectors := mapFrom (chunkVector 1000 embeddings) 0 batch in
  callService (IndexUpsert vectors) (index_upsert svc vectors) ;;
  let totalIndexed := totalIndexed + length batch in
  log (Js.lit "Indexer") INFO
    (Js.lit "Indexed " ++ Js.of_nat totalIndexed ++ Js.lit "/"
     ++ Js.of_nat (length chunks) ++ Js.lit " chunks") ;;
  ret totalIndexed.

(** The batch loop of the indexing route: a failed batch is logged and the
    loop goes on. *)
Fixpoint routeLoop (fuel : nat) (chunks : list Chunk) (i totalIndexed : nat)
  : M W nat :=
  if i <? length chunks then
    match fuel with
    | 0 => outOfFuel
    | S fuel' =>
        let batch := sliceList chunks i (i + 50) in
        n <- tryCatch
               (routeBatch chunks batch totalIndexed)
               (fun error =>
                  log (Js.lit "Indexer") ERROR
                    (Js.lit "Failed to index batch starting at " ++ Js.of_nat i) ;;
                  ret totalIndexed) ;;
        routeLoop fuel' chunks (i + 50) n
    end
  else ret totalIndexed.

(** [deleteAllVectors] of lib/pinecone.ts. *)
Definition deleteAllVectors : M W unit :=
  tryCatch
    (getPineconeIndex env ;;
     log (Js.lit "Pinecone") WARN (Js.lit "Deleting all vectors from index") ;;
     callService IndexDeleteAll (index_deleteAll svc) ;;
     log (Js.lit "Pinecone") INFO
       (Js.lit "Successfully deleted all vectors from index"))
    (fun error =>
       log (Js.lit "Pinecone") ERROR (Js.lit "Failed to delete vectors from index") ;;
       throw error).

Fixpoint logAll (module : Js.str) (level : LogLevel) (messages : list Js.str)
  : M W unit :=
  match messages with
  | [] => ret tt
  | message :: rest => log module level message ;; logAll module level rest
  end.

(** [loadAllDocuments] of the indexing route, for what the dataset
    directory holds. *)
Definition loadAllDocuments (dataset : LoadOutcome) : M W (list LegalSection) :=
  match dataset with
  | Loaded infos documents =>
      logAll (Js.lit "Indexer") INFO infos ;;
      ret documents
  | LoadFailed infos failure e =>
      logAll (Js.lit "Indexer") INFO infos ;;
      match failure with
      | Some message => log (Js.lit "Indexer") ERROR message
      | None => ret tt
      end ;;
      throw e
  end.

(** [POST] of the indexing route. *)
Definition indexPOST (request : IndexRequest) (dataset : LoadOutcome)
  : M W IndexingResponse :=
  tryCatch
    (clearExisting <- match request with
                      | IndexBodyUnreadable e => throw e
                      | IndexBody clearExisting => ret clearExisting
                      end ;;
     log (Js.lit "Indexer") INFO (Js.lit "Starting document indexing") ;;
     validation <- validateEnvironment env ;;
     if negb (valid validation) then
       ret (IndexingInvalid (validation_errors validation))
     else
       (if clearExisting : bool then
          log (Js.lit "Indexer") INFO (Js.lit "Clearing existing vectors") ;;
          deleteAllVectors
        else ret tt) ;;
       log (Js.lit "Indexer") INFO (Js.lit "Loading legal documents") ;;
       documents <- loadAllDocuments dataset ;;
       match documents with
       | [] => ret IndexingNoDocuments
       | _ :: _ =>
           log (Js.lit "Indexer") INFO
             (Js.lit "Chunking " ++ Js.of_nat (length documents)
              ++ Js.lit " documents") ;;
           let chunks :=
             chunkAndPrepareDocuments documents chunkAndPrepareDocuments_default in
           getPineconeIndex env ;;
           log (Js.lit "Indexer") INFO
             (Js.lit "Starting to index " ++ Js.of_nat (length chunks)
              ++ Js.lit " chunks") ;;
           totalIndexed <- routeLoop (length chunks) chunks 0 0 ;;
           stats <- callService IndexDescribeStats (index_describeIndexStats svc) ;;
           log (Js.lit "Indexer") INFO (Js.lit "Indexing completed") ;;
           ret (IndexingCompleted
                  {| totalDocuments := length documents;
                     totalChunks := length chunks;
                     totalIndexed := totalIndexed;
                     vectorCount := totalRecordCount stats |})
       end)
    (fun error =>
       log (Js.lit "Indexer") ERROR (Js.lit "Indexing failed") ;;
       ret (IndexingFailed (exn_message error))).

(** The [try] block of the batch loop of the indexing script (without its
    closing pause, which calls no service).  The loop only comes here
    with [i] a multiple of [batchSize], so [i / batchSize] is a whole
    number; for [batchSize = 0] it is [0 / 0], which prints as NaN. *)
Definition scriptBatch (chunks batch : list Chunk) (i batchSize totalIndexed : nat)
  : M W nat :=
  log (Js.lit "Indexer") DEBUG
    (Js.lit "Generating embeddings for batch "
     ++ (if batchSize =? 0 then Js.lit "NaN" else Js.of_nat (i / batchSize + 1))) ;;
  embeddings <- embedTexts svc env (map ch_text batch) ;;
  let vectors := mapFrom (chunkVector 2000 embeddings) 0 batch in
  callService (IndexUpsert vectors) (index_upsert svc vectors) ;;
  let totalIndexed := totalIndexed + length batch in
  log (Js.lit "Indexer") INFO
    (Js.lit "Indexed " ++ Js.of_nat totalIndexed ++ Js.lit "/"
     ++ Js.of_nat (length chunks) ++ Js.lit " chunks") ;;
  ret totalIndexed.

(** The batch loop of the indexing script: a failed batch is logged and
    thrown again. *)
Fixpoint scriptLoop (fuel : nat) (chunks : list Chunk) (batchSize i totalIndexed : nat)
  : M W nat :=
  if i <? length chunks then
    match fuel with
    | 0 => outOfFuel
    | S fuel' =>
        let batch := sliceList chunks i (i + batchSize) in
        n <- tryCatch
               (scriptBatch chunks batch i batchSize totalIndexed)
               (fun error =>
                  log (Js.lit "Indexer") ERROR
                    (Js.lit "Failed to index batch starting at " ++ Js.of_nat i) ;;
                  throw error) ;;
        scriptLoop fuel' chunks batchSize (i + batchSize) n
    end
  else ret totalIndexed.

(** [indexToPinecone] of scripts/index-legal-docs.ts. *)
Definition indexToPinecone (chunks : list Chunk) (batchSize : nat) : M W nat :=
  getPineconeIndex env ;;
  log (Js.lit "Indexer") INFO
    (Js.lit "Starting to index " ++ Js.of_nat (length chunks)
     ++ Js.lit " chunks to Pinecone") ;;
  scriptLoop (length chunks) chunks batchSize 0 0.

Definition indexToPinecone_default : nat := 50.

End Ingestion.

(* ================================================================== *)
(** ** lib/rag.ts: retrieval and answer composition *)
(* ================================================================== *)

Record IndexedDoc := {
  d_id : Js.str;
  d_act : Js.str;
  d_section : option Js.str;
  d_title : option Js.str;
  d_text : Js.str;
  d_source : Js.str;
  d_score : option N
}.

Record SourceSnippet := {
  s_id : Js.str;
  s_act : Js.str;
  s_section : option Js.str;
  s_title : option Js.str;
  s_snippet : Js.str
}.

Record ChatResult := {
  answer : Js.str;
  sources : list SourceSnippet
}.

Record InitStatus := {
  is_indexed : bool;
  is_indexedNow : bool;
  is_totalDocs : nat;
  is_pineconeConfigured : bool;
  is_vectorCount : nat
}.

(** [a || b] on possibly undefined strings. *)
Definition orElse (a : option Js.str) (b : Js.str) : Js.str :=
  match a with Some (c :: r) => c :: r | _ => b end.

(** [Boolean(process.env.PINECONE_API_KEY && process.env.PINECONE_INDEX)]. *)
Definition pineconeConfigured (env : Env) : bool :=
  isSet (PINECONE_API_KEY env) && isSet (PINECONE_INDEX env).

Definition notConfiguredAnswer : Js.str :=
  Js.lit "The vector database is not configured on the server. Please set PINECONE_API_KEY and PINECONE_INDEX in the environment, or use the manual upload/indexing pipeline.".

Definition noMatchAnswer : Js.str :=
  Js.lit "I could not find any matching sections in the vector database for this question. Please try rephrasing or check that the index is populated.".

Definition fallbackAnswer : Js.str :=
  Js.lit "I was unable to generate a detailed answer from the dataset and model. Please try asking your question again with more context.".

Definition systemPrompt : Js.str :=
  Js.lit "You are an expert Indian legal assistant (LawBot) specialising in IPC, BNS, BSA, and CrPC. You must answer strictly based on the legal CONTEXT provided. Always explain in simple language, clearly cite the relevant acts and section numbers, and include a short practical guidance section. If the context does not contain an answer, say that explicitly instead of guessing. End every answer with a short disclaimer that this is not formal legal advice. Format your response in clear Markdown with headings (e.g., '### Relevant sections', '### Explanation', '### Practical guidance', '### Disclaimer'). Whenever you list conditions, factors, steps, or pieces of guidance, ALWAYS format them as proper Markdown lists, with each item starting on its own line using '- ' for bullets or '1.' for numbered lists.".

(** The mapping of a query match to a document. *)
Definition docOfMatch (m : Match) : IndexedDoc :=
  let field (f : MatchMetadata -> option Js.str) : option Js.str :=
    match m_metadata m with Some md => f md | None => None end in
  {| d_id := orElse (field md_id) (m_id m);
     d_act := orElse (field md_act) (Js.lit "Unknown act");
     d_section := field md_section;
     d_title := field md_title;
     d_text := orElse (field md_text) (orElse (field md_content)
                 (orElse (field md_body) []));
     d_source := orElse (field md_source) (Js.lit "pinecone");
     d_score := m_score m |}.

(** [[doc.act, doc.section && `Section ${doc.section}`, doc.title]
      .filter(Boolean).join(" - ")]. *)
Definition headerParts (doc : IndexedDoc) : Js.str :=
  let sectionPart :=
    match d_section doc with
    | Some (c :: r) => Js.lit "Section " ++ c :: r
    | _ => []
    end in
  let titlePart := match d_title doc with Some t => t | None => [] end in
  Js.join (Js.lit " - ") (filter Js.truthy [d_act doc; sectionPart; titlePart]).

(** One entry of [contextBlocks]. *)
Definition contextBlock (doc : IndexedDoc) : Js.str :=
  headerParts doc ++ [10; 10]%N ++ d_text doc.

(** [contextBlocks.join("\n\n---\n\n")]. *)
Definition buildContext (topDocs : list IndexedDoc) : Js.str :=
  Js.join ([10; 10]%N ++ Js.lit "---" ++ [10; 10]%N) (map contextBlock topDocs).

Definition snippetOf (doc : IndexedDoc) : SourceSnippet :=
  {| s_id := d_id doc; s_act := d_act doc; s_section := d_section doc;
     s_title := d_title doc; s_snippet := Js.prefix (d_text doc) 280 |}.

Section Rag.

Context {W : Type}.
Variable svc : Services W.
Variable env : Env.

Definition initLegalIndex : M W InitStatus :=
  r <- (if pineconeConfigured env then
          tryCatch
            (getPineconeIndex env ;;
             stats <- callService IndexDescribeStats (index_describeIndexStats svc) ;;
             log (Js.lit "RAG") INFO
               (Js.lit "Successfully connected to Pinecone index") ;;
             ret (true, match totalRecordCount stats with Some n => n | None => 0 end))
            (fun error =>
               log (Js.lit "RAG") ERROR (Js.lit "Failed to read Pinecone index stats") ;;
               ret (false, 0))
        else
          log (Js.lit "RAG") WARN
            (Js.lit "Pinecone is not configured - vector search will not be available") ;;
          ret (false, 0)) ;;
  ret {| is_indexed := fst r; is_indexedNow := false; is_totalDocs := snd r;
         is_pineconeConfigured := pineconeConfigured env;
         is_vectorCount := snd r |}.

Definition retrieveWithPinecone (question : Js.str) (limit : nat)
  : M W (list IndexedDoc) :=
  log (Js.lit "RAG") DEBUG (Js.lit "Starting Pinecone retrieval") ;;
  tryCatch
    (embeddings <- embedTexts svc env [question] ;;
     match embeddings with
     | [] =>
         log (Js.lit "RAG") WARN
           (Js.lit "Failed to generate query embedding for question") ;;
         ret []
     | queryEmbedding :: _ =>
         getPineconeIndex env ;;
         response <- callService (IndexQuery queryEmbedding limit)
                       (index_query svc queryEmbedding limit) ;;
         let matches := match response with Some ms => ms | None => [] end in
         log (Js.lit "RAG") INFO (Js.lit "Pinecone query completed") ;;
         match matches with
         | [] =>
             log (Js.lit "RAG") WARN
               (Js.lit "Pinecone returned no matches for the question") ;;
             ret []
         | _ :: _ =>
             let results :=
               filter (fun doc => Js.truthy (d_text doc)) (map docOfMatch matches) in
             log (Js.lit "RAG") DEBUG
               (Js.lit "Filtered " ++ Js.of_nat (length results)
                ++ Js.lit " valid documents from " ++ Js.of_nat (length matches)
                ++ Js.lit " matches") ;;
             ret results
         end
     end)
    (fun error =>
       log (Js.lit "RAG") ERROR (Js.lit "Pinecone retrieval failed") ;;
       ret []).

Definition answerLegalQuestion (question : Js.str) : M W ChatResult :=
  let trimmed := Js.trim question in
  if negb (Js.truthy trimmed) then
    log (Js.lit "RAG") WARN (Js.lit "Empty question received") ;;
    throw (mkError (Js.lit "Question cannot be empty."))
  else
    log (Js.lit "RAG") INFO (Js.lit "Processing legal question") ;;
    if negb (pineconeConfigured env) then
      log (Js.lit "RAG") ERROR
        (Js.lit "Pinecone is not configured - cannot answer question") ;;
      ret {| answer := notConfiguredAnswer; sources := [] |}
    else
      topDocs <- retrieveWithPinecone trimmed 8 ;;
      match topDocs with
      | [] =>
          log (Js.lit "RAG") WARN (Js.lit "No matching documents found for question") ;;
          ret {| answer := noMatchAnswer; sources := [] |}
      | _ :: _ =>
          log (Js.lit "RAG") INFO
            (Js.lit "Retrieved " ++ Js.of_nat (length topDocs)
             ++ Js.lit " relevant documents for context generation") ;;
          let context := buildContext topDocs in
          getOpenAIClient env ;;
          log (Js.lit "RAG") DEBUG (Js.lit "Generating answer with OpenAI") ;;
          tryCatch
            (content <- callService
                          (ChatCompletionsCreate systemPrompt
                             (Js.lit "User question: " ++ trimmed
                              ++ [10; 10]%N ++ Js.lit "CONTEXT FROM LEGAL SECTIONS:"
                              ++ [10]%N ++ context))
                          (chat_completions_create svc systemPrompt
                             (Js.lit "User question: " ++ trimmed
                              ++ [10; 10]%N ++ Js.lit "CONTEXT FROM LEGAL SECTIONS:"
                              ++ [10]%N ++ context)) ;;
             let answer := option_map Js.trim content in
             log (Js.lit "RAG") INFO (Js.lit "Answer generated successfully") ;;
             ret {| answer := orElse answer fallbackAnswer;
                    sources := map snippetOf topDocs |})
            (fun error =>
               log (Js.lit "RAG") ERROR (Js.lit "Failed to generate answer with OpenAI") ;;
               throw error)
      end.

End Rag.

(* ================================================================== *)
(** ** app/api/chat/route.ts *)
(* ================================================================== *)

(** The JSON bodies the chat route answers with. *)
Inductive ChatResponseBody :=
| ErrorBody (error : Js.str) (details : option Js.str)
| ResultBody (result : ChatResult).

Record ChatResponse := { status : nat; body : ChatResponseBody }.

(** The [question] of a request body, as [body?.question ?? ""] gives it
    to the tests that follow. *)
Inductive JsonQuestion :=
| QMissing
    (* no body or no [question], [null], or a falsy value that is not a
       string ([false], [0]) *)
| QString (s : Js.str)
| QOther.
    (* a truthy value that is not a string ([true], a number, an array,
       an object): it has no [trim] method *)

(** The request as the chat route reads it. *)
Inductive ChatRequest :=
| BodyUnreadable (e : Exn)      (* [request.json()] is rejected *)
| Body (question : JsonQuestion).

Section ChatRoute.

Context {W : Type}.
Variable svc : Services W.
Variable env : Env.

Definition ensureInitialized : M W unit :=
  init <- get initialized ;;
  if init then ret tt
  else
    log (Js.lit "API") INFO (Js.lit "Initializing legal chatbot API") ;;
    envValidation <- validateEnvironment env ;;
    if negb (valid envValidation) then
      log (Js.lit "API") ERROR (Js.lit "Environment validation failed") ;;
      throw (mkError (Js.lit "Environment configuration is invalid"))
    else
      indexStatus <- initLegalIndex svc env ;;
      log (Js.lit "API") INFO (Js.lit "Index initialization complete") ;;
      setInitialized.

(** [POST] of the chat route. *)
Definition chatPOST (request : ChatRequest) : M W ChatResponse :=
  log (Js.lit "API") INFO (Js.lit "Received chat request") ;;
  tryCatch
    (ensureInitialized ;;
     question <- match request with
                 | BodyUnreadable e => throw e
                 | Body question => ret question
                 end ;;
     let refuse :=
       log (Js.lit "API") WARN (Js.lit "Invalid request - empty question") ;;
       ret {| status := 400;
              body := ErrorBody (Js.lit "Question is required.") None |} in
     match question with
     | QMissing => refuse
     | QOther => throw (mkTypeError (Js.lit "question.trim is not a function"))
     | QString question =>
         if negb (Js.truthy question) || negb (Js.truthy (Js.trim question)) then
           refuse
         else
           log (Js.lit "API") DEBUG (Js.lit "Processing question") ;;
           result <- answerLegalQuestion svc env question ;;
           log (Js.lit "API") INFO (Js.lit "Request completed successfully") ;;
           ret {| status := 200; body := ResultBody result |}
     end)
    (fun error =>
       log (Js.lit "API") ERROR (Js.lit "Request failed") ;;
       ret {| status := 500;
              body := ErrorBody
                        (Js.lit "Failed to process your question. Please try again.")
                        (if Js.eqb (valueOr (NODE_ENV env) []) (Js.lit "development")
                         then Some (exn_message error) else None) |}).

End ChatRoute.

(** The chat route's promise for a blank question, as the specification
    words it: the request is refused as invalid input and no external
    call is made while handling it. *)
Definition refusedWithoutCalls {W} (run : M W ChatResponse) (p : Process W) : Prop :=
  exists details p',
    run p = (Ok {| status := 400;
                   body := ErrorBody (Js.lit "Question is required.") details |}, p')
    /\ calls p' = calls p.

(** The match of the specification's example and the document retrieved
    from it. *)
Definition theftMatch : Match :=
  {| m_id := Js.lit "ipc_378"; m_score := None;
     m_metadata :=
       Some {| md_id := None; md_act := Some (Js.lit "IPC");
               md_section := Some (Js.lit "378");
               md_title := Some (Js.lit "Theft");
               md_text := Some (Js.lit "Whoever, intending to take dishonestly...");
               md_content := None; md_body := None; md_source := None |} |}.

Definition theftDoc : IndexedDoc := docOfMatch theftMatch.

(** Every query of the index has zero matches. *)
Definition zeroMatches {W} (svc : Services W) : Prop :=
  forall vector topK w,
    match fst (index_query svc vector topK w) with
    | inr (Some (_ :: _)) => False
    | _ => True
    end.

(** No query of the index has a match with a text to show. *)
Definition noUsableMatches {W} (svc : Services W) : Prop :=
  forall vector topK w,
    match fst (index_query svc vector topK w) with
    | inr (Some ms) =>
        forallb (fun m => negb (Js.truthy (d_text (docOfMatch m)))) ms = true
    | _ => True
    end.

(** A world whose index holds nothing: every query has zero matches. *)
Definition emptyIndex : Services unit :=
  {| embeddings_create := fun texts w => (inr (map (fun _ => [0%N]) texts), w);
     index_upsert := fun _ w => (inr tt, w);
     index_query := fun _ _ w => (inr (Some []), w);
     index_describeIndexStats := fun w =>
       (inr {| totalRecordCount := Some 0; dimension := Some 1536 |}, w);
     index_deleteAll := fun w => (inr tt, w);
     chat_completions_create := fun _ _ w => (inr (Some (Js.lit "answer")), w) |}.

(* ================================================================== *)
(** ** components/Chat.tsx: the assistant response formatter *)
(* ================================================================== *)

Inductive ParsedBlock :=
| Heading (text : Js.str)
| Paragraph (text : Js.str)
| ListBlock (items : list Js.str).

(** After an opening marker and one character of [(.+?)]: the shortest
    further run of characters other than line terminators that is
    followed by the closing marker; the run and what follows the marker. *)
Fixpoint scanClose (marker : Js.str) (r : Js.str) : option (Js.str * Js.str) :=
  if Js.startsWith marker r then Some ([], skipn (length marker) r)
  else
    match r with
    | [] => None
    | c :: r' =>
        if Js.isLineTerminator c then None
        else match scanClose marker r' with
             | Some (inner, rest) => Some (c :: inner, rest)
             | None => None
             end
    end.

(** A match of [marker (.+?) marker] at the start of [s]: the group and
    what follows the match. *)
Definition matchEmphasis (marker : Js.str) (s : Js.str) : option (Js.str * Js.str) :=
  if Js.startsWith marker s then
    match skipn (length marker) s with
    | [] => None
    | c :: r =>
        if Js.isLineTerminator c then None
        else match scanClose marker r with
             | Some (inner, rest) => Some (c :: inner, rest)
             | None => None
             end
    end
  else None.

(** [s.replace(/marker(.+?)marker/g, "$1")]: matches are looked for from
    left to right, each taken where the previous one ended.  Every step
    consumes a character, so [length s] steps are enough. *)
Fixpoint replaceEmphasis (fuel : nat) (marker : Js.str) (s : Js.str) : Js.str :=
  match fuel with
  | 0 => s
  | S fuel' =>
      match s with
      | [] => []
      | c :: r =>
          match matchEmphasis marker s with
          | Some (inner, rest) => inner ++ replaceEmphasis fuel' marker rest
          | None => c :: replaceEmphasis fuel' marker r
          end
      end
  end.

Definition stripEmphasis (text : Js.str) : Js.str :=
  let bold := replaceEmphasis (length text) (Js.lit "**") text in
  replaceEmphasis (length bold) (Js.lit "*") bold.

(** [text.split(/\r?\n/)]. *)
Fixpoint splitLines (s : Js.str) : list Js.str :=
  match s with
  | [] => [[]]
  | c :: r =>
      let keep :=
        match splitLines r with
        | l :: ls => (c :: l) :: ls
        | [] => [[c]]
        end in
      if N.eqb c 10 then [] :: splitLines r
      else
        match r with
        | d :: r' =>
            if N.eqb c 13 && N.eqb d 10 then [] :: splitLines r' else keep
        | [] => keep
        end
  end.

(** The tail [\s+( .* )$] of the three line patterns, matched against what
    follows the marker: at least one whitespace character, then a rest
    without line terminators, which is the group. *)
Definition matchSpaceRest (r : Js.str) : option Js.str :=
  match r with
  | [] => None
  | c :: _ =>
      if Js.isWhiteSpace c then
        let rest := Js.trimStart r in
        if existsb Js.isLineTerminator rest then None else Some rest
      else None
  end.

Fixpoint dropWhile {A} (f : A -> bool) (l : list A) : list A :=
  match l with
  | [] => []
  | x :: r => if f x then dropWhile f r else l
  end.

Definition isDigit (c : Js.char) : bool := ((48 <=? c) && (c <=? 57))%N.

(** [line.match(/^(#{1,6})\s+( .* )$/)]: the second group. *)
Definition headingMatch (line : Js.str) : option Js.str :=
  let rest := dropWhile (N.eqb 35) line in
  let hashes := length line - length rest in
  if (1 <=? hashes) && (hashes <=? 6) then matchSpaceRest rest else None.

(** [line.match(/^[-*+]\s+( .* )$/)]: the group. *)
Definition bulletMatch (line : Js.str) : option Js.str :=
  match line with
  | c :: r =>
      if (N.eqb c 45 || N.eqb c 42 || N.eqb c 43)%bool then matchSpaceRest r
      else None
  | [] => None
  end.

(** [line.match(/^\d+\.\s+( .* )$/)]: the group. *)
Definition orderedMatch (line : Js.str) : option Js.str :=
  match line with
  | c :: _ =>
      if isDigit c then
        match dropWhile isDigit line with
        | d :: r => if N.eqb d 46 then matchSpaceRest r else None
        | [] => None
        end
      else None
  | [] => None
  end.

(** The variables the line loop of [parseAssistantContent] updates. *)
Record ParseState := {
  ps_blocks : list ParsedBlock;
  ps_currentParagraph : list Js.str;
  ps_currentList : option (list Js.str)      (* [null] or an array *)
}.

Definition flushParagraph (st : ParseState) : ParseState :=
  match ps_currentParagraph st with
  | [] => st
  | _ :: _ =>
      {| ps_blocks := ps_blocks st
                      ++ [Paragraph (Js.join (Js.lit " ") (ps_currentParagraph st))];
         ps_currentParagraph := [];
         ps_currentList := ps_currentList st |}
  end.

Definition flushList (st : ParseState) : ParseState :=
  match ps_currentList st with
  | Some (i :: items) =>
      {| ps_blocks := ps_blocks st ++ [ListBlock (map stripEmphasis (i :: items))];
         ps_currentParagraph := ps_currentParagraph st;
         ps_currentList := None |}
  | _ => st
  end.

(** [items[items.length - 1] = `${items[items.length - 1]} ${line}`] on a
    non-empty array (the loop never holds an empty one). *)
Fixpoint appendToLast (items : list Js.str) (line : Js.str) : list Js.str :=
  match items with
  | [] => []
  | [x] => [x ++ Js.lit " " ++ line]
  | x :: rest => x :: appendToLast rest line
  end.

(** One iteration of [for (const rawLine of lines)]. *)
Definition parseLine (st : ParseState) (rawLine : Js.str) : ParseState :=
  let line := Js.trim rawLine in
  if negb (Js.truthy line) then flushList (flushParagraph st)
  else
    match headingMatch line with
    | Some group =>
        let st := flushList (flushParagraph st) in
        let headingText := stripEmphasis (Js.trim group) in
        if Js.truthy headingText then
          {| ps_blocks := ps_blocks st ++ [Heading headingText];
             ps_currentParagraph := ps_currentParagraph st;
             ps_currentList := ps_currentList st |}
        else st
    | None =>
        let listMatch :=
          match bulletMatch line with
          | Some g => Some g
          | None => orderedMatch line
          end in
        match listMatch with
        | Some group =>
            let st := flushParagraph st in
            let items := match ps_currentList st with Some l => l | None => [] end in
            {| ps_blocks := ps_blocks st;
               ps_currentParagraph := ps_currentParagraph st;
               ps_currentList := Some (items ++ [Js.trim group]) |}
        | None =>
            match ps_currentList st with
            | Some items =>
                {| ps_blocks := ps_blocks st;
                   ps_currentParagraph := ps_currentParagraph st;
                   ps_currentList := Some (appendToLast items line) |}
            | None =>
                {| ps_blocks := ps_blocks st;
                   ps_currentParagraph := ps_currentParagraph st ++ [line];
                   ps_currentList := None |}
            end
        end
    end.

Definition parseAssistantContent (text : Js.str) : list ParsedBlock :=
  let lines := splitLines text in
  let st := fold_left parseLine lines
              {| ps_blocks := []; ps_currentParagraph := []; ps_currentList := None |} in
  ps_blocks (flushList (flushParagraph st)).

(* ================================================================== *)
(** ** Observing a run *)
(* ================================================================== *)

(** All three variables that [getEnvConfig] requires are set. *)
Definition envConfigured (env : Env) : bool :=
  isSet (OPENAI_API_KEY env) && isSet (PINECONE_API_KEY env)
  && isSet (PINECONE_INDEX env).

(** The inputs of the embedding calls among [cs], in order. *)
Fixpoint embedInputs (cs : list CallRecord) : list (list Js.str) :=
  match cs with
  | [] => []
  | c :: r =>
      match cr_call c with
      | EmbeddingsCreate input => input :: embedInputs r
      | _ => embedInputs r
      end
  end.

(** The number of vectors carried by the upsert calls among [cs] that
    succeeded. *)
Fixpoint upsertedCount (cs : list CallRecord) : nat :=
  match cs with
  | [] => 0
  | c :: r =>
      match cr_call c, cr_ok c with
      | IndexUpsert vectors, true => length vectors + upsertedCount r
      | _, _ => upsertedCount r
      end
  end.

Definition failedCalls (cs : list CallRecord) : list CallRecord :=
  filter (fun c => negb (cr_ok c)) cs.

Definition isIndexerError (l : LogEntry) : bool :=
  Js.eqb (log_module l) (Js.lit "Indexer")
  && match log_level l with ERROR => true | _ => false end.

(** The messages the indexer logged at level ERROR. *)
Definition indexerErrors (ls : list LogEntry) : list Js.str :=
  map log_message (filter isIndexerError ls).

(** From [p] to [p'] the process made exactly the calls [cs] and the
    indexer logged exactly the errors [es]. *)
Definition extends {W} (p p' : Process W) (cs : list CallRecord) (es : list Js.str)
  : Prop :=
  calls p' = calls p ++ cs
  /\ indexerErrors (logs p') = indexerErrors (logs p) ++ es.

(** The batches a [for (i = 0; i < l.length; i += size)] loop slices,
    from index [i] on. *)
Fixpoint batchesFrom {A} (fuel size : nat) (l : list A) (i : nat) : list (list A) :=
  if i <? length l then
    match fuel with
    | 0 => []
    | S fuel' => sliceList l i (i + size) :: batchesFrom fuel' size l (i + size)
    end
  else [].

Definition batchesOf {A} (size : nat) (l : list A) : list (list A) :=
  batchesFrom (length l) size l 0.

(** [post c p Q]: run from [p], the computation [c] ends with a result and
    a process that satisfy [Q]. *)
Definition post {W A} (c : M W A) (p : Process W)
    (Q : Result A -> Process W -> Prop) : Prop :=
  Q (fst (c p)) (snd (c p)).

(** What one batch attempt leaves behind: exactly the calls [cs], no
    indexer error logged by the attempt itself, one embedding call with
    the batch's texts; on success [size] more vectors upserted and no
    failed call, on failure nothing upserted and exactly one failed call,
    the last one. *)
Definition attempted {W A} (p : Process W) (texts : list Js.str) (size : nat)
    (r : Result A) (p' : Process W) : Prop :=
  exists cs,
    extends p p' cs []
    /\ embedInputs cs = [texts]
    /\ match r with
       | Ok _ => upsertedCount cs = size /\ failedCalls cs = []
       | Thrown _ =>
           upsertedCount cs = 0
           /\ exists pre c, cs = pre ++ [c] /\ cr_ok c = false
                            /\ failedCalls pre = []
       | OutOfFuel => False
       end.


(* ================================================================== *)
(** ** Sample worlds and inputs *)
(* ================================================================== *)

(** A world that counts the embedding requests it has received and
    refuses request number [k] (counting from 0); everything else is
    answered, the index holding nothing. *)
Definition refuseEmbedding (k : nat) : Services nat :=
  {| embeddings_create := fun texts n =>
       (if n =? k then inl (mkError (Js.lit "429 rate limit"))
        else inr (map (fun _ => [0%N]) texts), S n);
     index_upsert := fun _ n => (inr tt, n);
     index_query := fun _ _ n => (inr (Some []), n);
     index_describeIndexStats := fun n =>
       (inr {| totalRecordCount := Some 0; dimension := Some 1536 |}, n);
     index_deleteAll := fun n => (inr tt, n);
     chat_completions_create := fun _ _ n => (inr (Some (Js.lit "answer")), n) |}.

Definition sampleEnv : Env :=
  {| OPENAI_API_KEY := Some (Js.lit "sk-test");
     PINECONE_API_KEY := Some (Js.lit "pc-test");
     PINECONE_INDEX := Some (Js.lit "legal");
     NODE_ENV := Some (Js.lit "development") |}.

(** A process that has just started. *)
Definition freshProcess {W} (w : W) : Process W :=
  {| world := w; calls := []; logs := [];
     openaiClient := false; pineconeClient := false; initialized := false |}.

Definition sampleDocs (n : nat) : list UploadedDoc :=
  map (fun k => {| ud_id := Js.lit "doc_" ++ Js.of_nat k;
                   ud_text := Js.lit "text " ++ Js.of_nat k;
                   ud_metadata := None |}) (seq 0 n).

(** Sections short enough to give one chunk each. *)
Definition sampleSections (n : nat) : list LegalSection :=
  map (fun k => {| ls_id := Js.lit "ipc_" ++ Js.of_nat k; ls_act := Js.lit "IPC";
                   ls_section := Js.of_nat k; ls_title := Js.lit "T";
                   ls_description := Js.lit "d"; ls_text := None |}) (seq 0 n).

Definition sampleChunks (n : nat) : list Chunk :=
  map (fun k => {| ch_id := Js.lit "ipc_" ++ Js.of_nat k;
                   ch_text := Js.lit "text " ++ Js.of_nat k;
                   ch_metadata := {| cm_act := Js.lit "IPC";
                                     cm_section := Js.of_nat k;
                                     cm_title := [];
                                     cm_source := Js.lit "legal_dataset";
                                     cm_chunkIndex := None |} |}) (seq 0 n).

(* ================================================================== *)
(** ** lib/upload.ts: documents made from an uploaded file *)
(* ================================================================== *)

(** [name.replace(/\s+/g, "_")]: every maximal run of whitespace becomes
    one underscore.  [inRun] tells that the previous character belonged
    to a run already replaced. *)
Fixpoint replaceWhitespaceRuns (inRun : bool) (s : Js.str) : Js.str :=
  match s with
  | [] => []
  | c :: r =>
      if Js.isWhiteSpace c then
        if inRun then replaceWhitespaceRuns true r
        else 95%N :: replaceWhitespaceRuns true r
      else c :: replaceWhitespaceRuns false r
  end.

(** The value of a property of a metadata object. *)
Fixpoint getField (key : Js.str) (m : Metadata) : option MetaValue :=
  match m with
  | [] => None
  | (k, v) :: rest => if Js.eqb k key then Some v else getField key rest
  end.

(** The document made of chunk number [index] (from 0) of a file. *)
Definition fileDoc (baseId fileName : Js.str) (uploadedAt : nat -> Js.str)
    (total : nat) (index : nat) (chunk : Js.str) : UploadedDoc :=
  {| ud_id := baseId ++ Js.lit "_chunk_" ++ Js.of_nat (index + 1);
     ud_text := chunk;
     ud_metadata :=
       Some [(Js.lit "source", MStr (Js.lit "upload"));
             (Js.lit "fileName", MStr fileName);
             (Js.lit "chunkIndex", MNum (index + 1));
             (Js.lit "totalChunks", MNum total);
             (Js.lit "uploadedAt", MStr (uploadedAt index))] |}.

(** [chunkFileText(fileName, rawText)], for the reading [now] of
    [Date.now()] and the readings [uploadedAt index] of
    [new Date().toISOString()], one per chunk. *)
Definition chunkFileText (now : nat) (uploadedAt : nat -> Js.str)
    (fileName rawText : Js.str) : option (list UploadedDoc) :=
  let baseId := Js.of_nat now ++ Js.lit "_" ++ replaceWhitespaceRuns false fileName in
  match chunkText rawText chunkText_default with
  | Some chunks =>
      Some (mapFrom (fileDoc baseId fileName uploadedAt (length chunks)) 0 chunks)
  | None => None
  end.

(** The text without its asterisks. *)
Definition withoutAsterisks (s : Js.str) : Js.str :=
  filter (fun c => negb (N.eqb c 42)) s.

(** A block that shows something. *)
Definition blockNonEmpty (b : ParsedBlock) : Prop :=
  match b with
  | Heading text => text <> []
  | Paragraph text => text <> []
  | ListBlock items => items <> []
  end.

(** What the line loop of [parseAssistantContent] keeps true. *)
Record parse_inv (st : ParseState) : Prop := {
  pi_blocks : Forall blockNonEmpty (ps_blocks st);
  pi_paragraph : Forall (fun l => l <> []) (ps_currentParagraph st);
  pi_list : ps_currentList st <> Some []
}.

(* ================================================================== *)
(** ** Shapes of what retrieval and answering do and return *)
(* ================================================================== *)

(** A retrieved document fit for the prompt: it has a text, an act and a
    source. *)
Definition usableDoc (d : IndexedDoc) : Prop :=
  d_text d <> [] /\ d_act d <> [] /\ d_source d <> [].

(** The calls one retrieval can make: none; or one embedding of the
    question alone; or that embedding, answered, then one query of the
    index for [limit] neighbours. *)
Definition retrievalCalls (question : Js.str) (limit : nat)
    (cs : list CallRecord) : Prop :=
  cs = []
  \/ (exists ok, cs = [{| cr_call := EmbeddingsCreate [question]; cr_ok := ok |}])
  \/ (exists vector ok,
         cs = [{| cr_call := EmbeddingsCreate [question]; cr_ok := true |};
               {| cr_call := IndexQuery vector limit; cr_ok := ok |}]).

(** At most one call to the completion service, with the fixed system
    prompt. *)
Definition completionCalls (cs : list CallRecord) : Prop :=
  cs = []
  \/ exists user ok,
       cs = [{| cr_call := ChatCompletionsCreate systemPrompt user; cr_ok := ok |}].

Definition isFailedCompletion (cs : list CallRecord) : Prop :=
  exists user,
    cs = [{| cr_call := ChatCompletionsCreate systemPrompt user; cr_ok := false |}].

(** What [answerLegalQuestion] leaves behind and returns: the calls of one
    retrieval, then at most one completion; a result has an answer that
    is not empty and snippets of at most 280 code units; a throw comes
    from a blank question (nothing called), from the OpenAI client that
    cannot be made for want of a key, or from the completion call that
    failed. *)
Definition answerOutcome {W} (env : Env) (question : Js.str) (p : Process W)
    (r : Result ChatResult) (p' : Process W) : Prop :=
  exists rc cc,
    calls p' = calls p ++ rc ++ cc
    /\ retrievalCalls (Js.trim question) 8 rc
    /\ completionCalls cc
    /\ match r with
       | Ok res =>
           Js.trim question <> []
           /\ answer res <> []
           /\ Forall (fun s => length (s_snippet s) <= 280) (sources res)
           /\ (cc = [] -> sources res = [])
       | Thrown e =>
           (Js.trim question = [] /\ rc = [] /\ cc = []
            /\ e = mkError (Js.lit "Question cannot be empty."))
           \/ (Js.trim question <> [] /\ cc = []
               /\ isSet (OPENAI_API_KEY env) = false)
           \/ (Js.trim question <> [] /\ isFailedCompletion cc)
       | OutOfFuel => False
       end.

(** A world whose index answers every query with the match of the
    example; the completion service answers, or fails when
    [completionOk] is [false]. *)
Definition theftIndex (completionOk : bool) : Services unit :=
  {| embeddings_create := fun texts w => (inr (map (fun _ => [0%N]) texts), w);
     index_upsert := fun _ w => (inr tt, w);
     index_query := fun _ _ w => (inr (Some [theftMatch]), w);
     index_describeIndexStats := fun w =>
       (inr {| totalRecordCount := Some 1; dimension := Some 1536 |}, w);
     index_deleteAll := fun w => (inr tt, w);
     chat_completions_create := fun _ _ w =>
       (if completionOk then inr (Some (Js.lit "  Theft is defined in section 378.  "))
        else inl (mkError (Js.lit "503 service unavailable")), w) |}.

(* ================================================================== *)
(** ** lib/pinecone.ts: the connection check; the status, health and
       upload routes *)
(* ================================================================== *)

(** The body of the status route's answers. *)
Record StatusBody := {
  sb_configured : bool;
  sb_vectorCount : nat;
  sb_dimension : option nat;
  sb_errors : option (list Js.str);
  sb_error : option Js.str
}.

Record StatusResponse := { st_status : nat; st_body : StatusBody }.

(** The health report, without its timestamp, response time, version and
    environment name. *)
Record HealthBody := {
  hb_status : Js.str;
  hb_environment_ok : bool;
  hb_environment_errors : option (list Js.str);
  hb_pinecone_ok : bool;
  hb_pinecone_vectorCount : option nat;
  hb_openai_ok : bool
}.

Inductive HealthResponse :=
| HealthReport (statusCode : nat) (report : HealthBody)
| HealthError (error : Js.str).                          (* status 500 *)

(** A file of the upload form: its name, what reading it gives (its
    bytes decoded as UTF-8, or the error [file.arrayBuffer()] is rejected
    with), and what the clock shows when its documents are made. *)
Record UploadFile := {
  uf_name : Js.str;
  uf_text : Exn + Js.str;
  uf_now : nat;
  uf_uploadedAt : nat -> Js.str
}.

(** The request as the upload route reads it: the [File] entries under
    "files" of its form, or the error [request.formData()] is rejected
    with. *)
Inductive UploadRequest :=
| FormUnreadable (e : Exn)
| FormFiles (files : list UploadFile).

Inductive UploadResponse :=
| UploadOk (fileCount uploadedChunks : nat)              (* status 200, ok: true *)
| UploadRefused (status : nat) (error : Js.str).          (* ok: false *)

Section Routes.

Context {W : Type}.
Variable svc : Services W.
Variable env : Env.

(** [checkPineconeConnection] of lib/pinecone.ts. *)
Definition checkPineconeConnection : M W bool :=
  tryCatch
    (getPineconeIndex env ;;
     stats <- callService IndexDescribeStats (index_describeIndexStats svc) ;;
     log (Js.lit "Pinecone") INFO (Js.lit "Pinecone connection verified") ;;
     ret true)
    (fun error =>
       log (Js.lit "Pinecone") ERROR (Js.lit "Pinecone connection check failed") ;;
       ret false).

(** [GET] of the Pinecone status route (index fullness and namespaces of
    the statistics are left out). *)
Definition statusGET : M W StatusResponse :=
  tryCatch
    (log (Js.lit "API") INFO (Js.lit "Pinecone status check requested") ;;
     envValidation <- validateEnvironment env ;;
     if negb (valid envValidation) then
       log (Js.lit "API") WARN
         (Js.lit "Environment validation failed for Pinecone status check") ;;
       ret {| st_status := 200;
              st_body := {| sb_configured := false; sb_vectorCount := 0;
                            sb_dimension := None;
                            sb_errors := Some (validation_errors envValidation);
                            sb_error := None |} |}
     else
       tryCatch
         (getPineconeIndex env ;;
          stats <- callService IndexDescribeStats (index_describeIndexStats svc) ;;
          let vectorCount :=
            match totalRecordCount stats with Some n => n | None => 0 end in
          log (Js.lit "API") INFO (Js.lit "Pinecone status retrieved") ;;
          ret {| st_status := 200;
                 st_body := {| sb_configured := true; sb_vectorCount := vectorCount;
                               sb_dimension := dimension stats;
                               sb_errors := None; sb_error := None |} |})
         (fun error =>
            log (Js.lit "API") ERROR (Js.lit "Failed to get Pinecone stats") ;;
            ret {| st_status := 200;
                   st_body := {| sb_configured := false; sb_vectorCount := 0;
                                 sb_dimension := None; sb_errors := None;
                                 sb_error :=
                                   Some (Js.lit "Failed to connect to Pinecone index") |} |}))
    (fun error =>
       log (Js.lit "API") ERROR (Js.lit "Pinecone status check failed") ;;
       ret {| st_status := 500;
              st_body := {| sb_configured := false; sb_vectorCount := 0;
                            sb_dimension := None; sb_errors := None;
                            sb_error := Some (Js.lit "Internal server error") |} |}).

(** [GET] of the health route.  Its inner [try] assigns [pineconeStatus]
    and then [vectorCount]; a throw after the first assignment leaves
    [pineconeStatus] as assigned, which the inner handler below keeps. *)
Definition healthGET : M W HealthResponse :=
  tryCatch
    (log (Js.lit "API") INFO (Js.lit "Health check requested") ;;
     envValidation <- validateEnvironment env ;;
     r <- (if valid envValidation then
             tryCatch
               (pineconeStatus <- checkPineconeConnection ;;
                if pineconeStatus then
                  tryCatch
                    (getPineconeIndex env ;;
                     stats <- callService IndexDescribeStats
                                (index_describeIndexStats svc) ;;
                     ret (true, match totalRecordCount stats with
                                | Some n => n | None => 0 end))
                    (fun error =>
                       log (Js.lit "API") WARN (Js.lit "Pinecone health check failed") ;;
                       ret (true, 0))
                else ret (false, 0))
               (fun error =>
                  log (Js.lit "API") WARN (Js.lit "Pinecone health check failed") ;;
                  ret (false, 0))
           else ret (false, 0)) ;;
     let '(pineconeStatus, vectorCount) := r in
     let healthy := valid envValidation && pineconeStatus in
     let report :=
       {| hb_status := if healthy then Js.lit "healthy" else Js.lit "degraded";
          hb_environment_ok := valid envValidation;
          hb_environment_errors :=
            match validation_errors envValidation with
            | [] => None
            | errs => Some errs
            end;
          hb_pinecone_ok := pineconeStatus;
          hb_pinecone_vectorCount := if pineconeStatus then Some vectorCount else None;
          hb_openai_ok :=
            valid envValidation
            && negb (existsb (fun e => Js.includes e (Js.lit "OPENAI"))
                       (validation_errors envValidation)) |} in
     log (Js.lit "API") INFO (Js.lit "Health check completed") ;;
     ret (HealthReport (if healthy then 200 else 503) report))
    (fun error =>
       log (Js.lit "API") ERROR (Js.lit "Health check failed") ;;
       ret (HealthError (exn_message error))).

(** The loop over the files of the upload route: each file is read and
    chunked, and its documents are added to [allDocs]. *)
Fixpoint readFiles (files : list UploadFile) (allDocs : list UploadedDoc)
  : M W (list UploadedDoc) :=
  match files with
  | [] => ret allDocs
  | file :: rest =>
      rawText <- match uf_text file with
                 | inl e => throw e
                 | inr rawText => ret rawText
                 end ;;
      match chunkFileText (uf_now file) (uf_uploadedAt file) (uf_name file) rawText with
      | None => outOfFuel
      | Some docs => readFiles rest (allDocs ++ docs)
      end
  end.

(** [POST] of the upload route (the handler also prints the error on the
    console, which is left out). *)
Definition uploadPOST (request : UploadRequest) : M W UploadResponse :=
  tryCatch
    (if negb (isSet (PINECONE_API_KEY env)) || negb (isSet (PINECONE_INDEX env)) then
       ret (UploadRefused 500
              (Js.lit "Pinecone is not configured. Please set PINECONE_API_KEY and PINECONE_INDEX."))
     else
       files <- match request with
                | FormUnreadable e => throw e
                | FormFiles files => ret files
                end ;;
       match files with
       | [] =>
           ret (UploadRefused 400
                  (Js.lit "No files provided. Please attach at least one file under the 'files' field."))
       | _ :: _ =>
           allDocs <- readFiles files [] ;;
           result <- uploadDocumentsToPinecone svc env allDocs ;;
           ret (UploadOk (length files) (uploadedChunks result))
       end)
    (fun error =>
       ret (UploadRefused 500 (Js.lit "Failed to upload documents to Pinecone."))).

End Routes.

(** What [validateEnvironment] accepts: the three required variables are
    set and the OpenAI key starts with "sk-". *)
Definition envValid (env : Env) : bool :=
  envConfigured env
  && Js.startsWith (Js.lit "sk-") (valueOr (OPENAI_API_KEY env) []).

Definition statsCall (ok : bool) : CallRecord :=
  {| cr_call := IndexDescribeStats; cr_ok := ok |}.

(** What [ensureInitialized] does from [p]: nothing when the flag is up;
    otherwise it judges the environment and either throws, the flag still
    down, or asks for the index statistics once and raises the flag. *)
Definition initOutcome {W} (env : Env) (p : Process W) (r : Result unit)
    (p' : Process W) (cs : list CallRecord) : Prop :=
  match r with
  | Ok _ =>
      initialized p' = true
      /\ ((initialized p = true /\ p' = p /\ cs = [])
          \/ (initialized p = false /\ envValid env = true
              /\ exists ok, cs = [statsCall ok]))
  | Thrown e =>
      e = mkError (Js.lit "Environment configuration is invalid")
      /\ initialized p = false /\ initialized p' = false
      /\ envValid env = false /\ cs = []
  | OutOfFuel => False
  end.

(** An environment with the OpenAI key only. *)
Definition openaiOnlyEnv : Env :=
  {| OPENAI_API_KEY := Some (Js.lit "sk-test");
     PINECONE_API_KEY := None;
     PINECONE_INDEX := None;
     NODE_ENV := Some (Js.lit "production") |}.



(** What the status route answers, and with which calls. *)
Definition statusOutcome (env : Env) (resp : StatusResponse) (cs : list CallRecord)
  : Prop :=
  st_status resp = 200
  /\ ((envValid env = false /\ cs = []
       /\ sb_configured (st_body resp) = false
       /\ sb_vectorCount (st_body resp) = 0
       /\ exists e, sb_errors (st_body resp) = Some [e])
      \/ (envValid env = true
          /\ exists ok,
               cs = [statsCall ok]
               /\ sb_configured (st_body resp) = ok
               /\ sb_errors (st_body resp) = None
               /\ (ok = false ->
                   sb_vectorCount (st_body resp) = 0
                   /\ sb_error (st_body resp)
                      = Some (Js.lit "Failed to connect to Pinecone index")))).

(** What the health route reports, and with which calls. *)
Definition healthOutcome (env : Env) (code : nat) (report : HealthBody)
    (cs : list CallRecord) : Prop :=
  hb_environment_ok report = envValid env
  /\ hb_openai_ok report = envValid env
  /\ ((envValid env = false /\ cs = [] /\ code = 503
       /\ hb_status report = Js.lit "degraded"
       /\ hb_pinecone_ok report = false
       /\ hb_pinecone_vectorCount report = None
       /\ exists e, hb_environment_errors report = Some [e])
      \/ (envValid env = true /\ cs = [statsCall false] /\ code = 503
          /\ hb_status report = Js.lit "degraded"
          /\ hb_pinecone_ok report = false
          /\ hb_pinecone_vectorCount report = None
          /\ hb_environment_errors report = None)
      \/ (envValid env = true
          /\ exists ok n,
               cs = [statsCall true; statsCall ok] /\ code = 200
               /\ hb_status report = Js.lit "healthy"
               /\ hb_pinecone_ok report = true
               /\ hb_pinecone_vectorCount report = Some n
               /\ hb_environment_errors report = None
               /\ (ok = false -> n = 0))).

(** The error of the first file of the form that cannot be read. *)
Fixpoint firstRejection (files : list UploadFile) : option Exn :=
  match files with
  | [] => None
  | file :: rest =>
      match uf_text file with
      | inl e => Some e
      | inr _ => firstRejection rest
      end
  end.

(** The texts of the files that can be read, in order. *)
Definition fileTexts (files : list UploadFile) : list Js.str :=
  flat_map (fun file => match uf_text file with inr t => [t] | inl _ => [] end) files.

(** The documents made of the files that can be read, in order. *)
Definition fileDocuments (files : list UploadFile) : list UploadedDoc :=
  flat_map (fun file =>
              match uf_text file with
              | inr t =>
                  match chunkFileText (uf_now file) (uf_uploadedAt file)
                          (uf_name file) t with
                  | Some docs => docs
                  | None => []
                  end
              | inl _ => []
              end) files.

Definition uploadFailed : UploadResponse :=
  UploadRefused 500 (Js.lit "Failed to upload documents to Pinecone.").

(** What the upload route answers, and with which calls. *)
Definition uploadOutcome (env : Env) (request : UploadRequest)
    (resp : UploadResponse) (cs : list CallRecord) : Prop :=
  (pineconeConfigured env = false ->
   resp = UploadRefused 500
            (Js.lit "Pinecone is not configured. Please set PINECONE_API_KEY and PINECONE_INDEX.")
   /\ cs = [])
  /\ (pineconeConfigured env = true ->
      match request with
      | FormUnreadable e => resp = uploadFailed /\ cs = []
      | FormFiles [] =>
          resp = UploadRefused 400
                   (Js.lit "No files provided. Please attach at least one file under the 'files' field.")
          /\ cs = []
      | FormFiles files =>
          match firstRejection files with
          | Some e => resp = uploadFailed /\ cs = []
          | None =>
              let docs := fileDocuments files in
              Js.nonWhite (concat (map ud_text docs))
              = Js.nonWhite (concat (fileTexts files))
              /\ (isSet (OPENAI_API_KEY env) = true ->
                  resp = UploadOk (length files) (upsertedCount cs)
                  /\ upsertedCount cs <= length docs
                  /\ concat (embedInputs cs) = map ud_text docs)
              /\ (isSet (OPENAI_API_KEY env) = false ->
                  cs = []
                  /\ ((docs = [] /\ resp = UploadOk (length files) 0)
                      \/ (docs <> [] /\ resp = uploadFailed)))
          end
      end).

(** The first required variable that is not set, in the order in which
    the configuration is read. *)
Definition firstMissing (env : Env) : option Js.str :=
  if negb (isSet (OPENAI_API_KEY env)) then Some (Js.lit "OPENAI_API_KEY")
  else if negb (isSet (PINECONE_API_KEY env)) then Some (Js.lit "PINECONE_API_KEY")
  else if negb (isSet (PINECONE_INDEX env)) then Some (Js.lit "PINECONE_INDEX")
  else None.

Definition missingVariable (name : Js.str) : Js.str :=
  Js.lit "Missing required environment variable: " ++ name.



(** The result shape of [uploadDocumentsToPinecone] as the claim words
    it, for every list: the run returns a result whose count is at most
    the number of documents and whose [errors] field is absent exactly
    when the count is that number. *)
Definition uploadResultShape {W} (run : M W UploadResult) (docs : list UploadedDoc)
    (p : Process W) : Prop :=
  exists res p',
    run p = (Ok res, p')
    /\ uploadedChunks res <= length docs
    /\ (errors res = None <-> uploadedChunks res = length docs).

(** An environment with the Pinecone variables only. *)
Definition pineconeOnlyEnv : Env :=
  {| OPENAI_API_KEY := None;
     PINECONE_API_KEY := Some (Js.lit "pc-test");
     PINECONE_INDEX := Some (Js.lit "legal");
     NODE_ENV := Some (Js.lit "production") |}.

(** The vector lists of the upsert calls among [cs], in order, whether
    the calls succeeded or not. *)
Fixpoint upsertInputs (cs : list CallRecord) : list (list VectorRecord) :=
  match cs with
  | [] => []
  | c :: r =>
      match cr_call c with
      | IndexUpsert vectors => vectors :: upsertInputs r
      | _ => upsertInputs r
      end
  end.

(** The vector [v] stands for the record with this identifier, text and
    metadata: it has the identifier, its [text] field is the text cut to
    [limit] code units, and its other fields are those of the metadata. *)
Definition carries (limit : nat) (id text : Js.str) (meta : Metadata)
    (v : VectorRecord) : Prop :=
  vr_id v = id
  /\ getField (Js.lit "text") (vr_metadata v) = Some (MStr (Js.prefix text limit))
  /\ forall k, k <> Js.lit "text" -> getField k (vr_metadata v) = getField k meta.

Definition docMetadata (doc : UploadedDoc) : Metadata :=
  match ud_metadata doc with Some m => m | None => [] end.

(** Every upsert call a run of [c] makes, from any state, sends a vector
    list that satisfies [P]. *)
Definition upsertsOnly {W A} (P : list VectorRecord -> Prop) (c : M W A) : Prop :=
  forall p, exists cs,
    calls (snd (c p)) = calls p ++ cs /\ Forall P (upsertInputs cs).

(** The sections a dataset gives to the indexing route. *)
Definition datasetDocuments (dataset : LoadOutcome) : list LegalSection :=
  match dataset with
  | Loaded _ documents => documents
  | LoadFailed _ _ _ => []
  end.

(* ================================================================== *)
(** * Properties *)
(* ================================================================== *)

(** ** Trimming *)

Lemma trimStart_length (s : Js.str) : length (Js.trimStart s) <= length s.
Proof.
  induction s as [|c r IH]; simpl; [lia|].
  destruct (Js.isWhiteSpace c); simpl; lia.
Qed.

Lemma trimEnd_length (s : Js.str) : length (Js.trimEnd s) <= length s.
Proof.
  induction s as [|c r IH]; simpl; [lia|].
  destruct (Js.trimEnd r) as [|d r'].
  - destruct (Js.isWhiteSpace c); simpl; lia.
  - simpl in *. lia.
Qed.

Lemma trim_length (s : Js.str) : length (Js.trim s) <= length s.
Proof.
  unfold Js.trim.
  pose proof (trimEnd_length (Js.trimStart s)).
  pose proof (trimStart_length s). lia.
Qed.

Lemma nonWhite_app (a b : Js.str) :
  Js.nonWhite (a ++ b) = Js.nonWhite a ++ Js.nonWhite b.
Proof. apply filter_app. Qed.

Lemma nonWhite_trimStart (s : Js.str) : Js.nonWhite (Js.trimStart s) = Js.nonWhite s.
Proof.
  induction s as [|c r IH]; simpl; [reflexivity|].
  destruct (Js.isWhiteSpace c) eqn:E; simpl; [assumption|].
  rewrite E. reflexivity.
Qed.

Lemma nonWhite_trimEnd (s : Js.str) : Js.nonWhite (Js.trimEnd s) = Js.nonWhite s.
Proof.
  induction s as [|c r IH]; simpl; [reflexivity|].
  destruct (Js.trimEnd r) as [|d r'] eqn:E.
  - rewrite <- IH. destruct (Js.isWhiteSpace c) eqn:Ec; simpl; [|rewrite Ec]; reflexivity.
  - change (c :: d :: r') with ([c] ++ d :: r').
    rewrite nonWhite_app, IH. simpl.
    destruct (Js.isWhiteSpace c); reflexivity.
Qed.

Lemma nonWhite_trim (s : Js.str) : Js.nonWhite (Js.trim s) = Js.nonWhite s.
Proof. unfold Js.trim. now rewrite nonWhite_trimEnd, nonWhite_trimStart. Qed.

Lemma trimEnd_cons_black (c : Js.char) (r : Js.str) :
  Js.isWhiteSpace c = false -> Js.trimEnd (c :: r) = c :: Js.trimEnd r.
Proof.
  intros E. simpl. destruct (Js.trimEnd r); [rewrite E|]; reflexivity.
Qed.

Lemma trimEnd_idem (s : Js.str) : Js.trimEnd (Js.trimEnd s) = Js.trimEnd s.
Proof.
  induction s as [|c r IH]; simpl; [reflexivity|].
  destruct (Js.trimEnd r) as [|d r'] eqn:E.
  - destruct (Js.isWhiteSpace c) eqn:Ec; simpl; [|rewrite Ec]; reflexivity.
  - change (Js.trimEnd (c :: d :: r')) with
      (match Js.trimEnd (d :: r') with
       | [] => if Js.isWhiteSpace c then [] else [c]
       | x => c :: x end).
    rewrite IH. reflexivity.
Qed.

Lemma trimStart_head (s : Js.str) :
  Js.trimStart s = [] \/
  exists c r, Js.trimStart s = c :: r /\ Js.isWhiteSpace c = false.
Proof.
  induction s as [|c r IH]; simpl; [now left|].
  destruct (Js.isWhiteSpace c) eqn:E; [assumption|].
  right. now exists c, r.
Qed.

Lemma trim_idem (s : Js.str) : Js.trim (Js.trim s) = Js.trim s.
Proof.
  unfold Js.trim.
  destruct (trimStart_head s) as [E | (c & r & E & Hc)]; rewrite E.
  - reflexivity.
  - rewrite (trimEnd_cons_black c r Hc). simpl Js.trimStart. rewrite Hc.
    rewrite <- (trimEnd_cons_black c r Hc). apply trimEnd_idem.
Qed.

Lemma trim_nil_iff_nonWhite (s : Js.str) : Js.trim s = [] <-> Js.nonWhite s = [].
Proof.
  split; intros H.
  - rewrite <- nonWhite_trim, H. reflexivity.
  - unfold Js.trim.
    destruct (trimStart_head s) as [E | (c & r & E & Hc)].
    + now rewrite E.
    + exfalso. rewrite <- nonWhite_trimStart, E in H. simpl in H.
      rewrite Hc in H. discriminate.
Qed.

(** ** The fixed-window chunker *)

Lemma slice_length (s : Js.str) (a b : nat) : length (Js.slice s a b) <= b - a.
Proof. unfold Js.slice. rewrite length_firstn. lia. Qed.

Lemma firstn_plus (s : Js.str) (a k : nat) :
  firstn (a + k) s = firstn a s ++ firstn k (skipn a s).
Proof.
  revert s. induction a as [|a IH]; intros [|c s]; simpl;
    try reflexivity.
  - now rewrite firstn_nil.
  - now rewrite IH.
Qed.

Lemma firstn_slice (s : Js.str) (a b : nat) :
  a <= b -> firstn b s = firstn a s ++ Js.slice s a b.
Proof.
  intros H. unfold Js.slice.
  replace b with (a + (b - a)) at 1 by lia.
  apply firstn_plus.
Qed.

Section ChunkText.

Variable text : Js.str.
Variable maxChars : nat.
Hypothesis maxChars_pos : 0 < maxChars.

Lemma chunk_inv_init : chunk_inv text maxChars 0 [].
Proof. split; constructor. Qed.

Lemma chunk_inv_step (start : nat) (chunks : list Js.str) :
  chunk_inv text maxChars start chunks ->
  let end_ := Nat.min (start + maxChars) (length text) in
  let chunk := Js.trim (Js.slice text start end_) in
  chunk_inv text maxChars end_ (if Js.truthy chunk then chunks ++ [chunk] else chunks).
Proof.
  intros [Hb Ht Hc] end_ chunk.
  assert (Hle : start <= end_ \/ length text < start) by (subst end_; lia).
  assert (Hcontent : Js.nonWhite (concat chunks) ++ Js.nonWhite chunk
                     = Js.nonWhite (firstn end_ text)).
  { subst chunk. rewrite nonWhite_trim, Hc, <- nonWhite_app.
    destruct Hle as [Hle | Hgt].
    - now rewrite <- firstn_slice.
    - unfold Js.slice. rewrite skipn_all2 by lia.
      rewrite firstn_nil, app_nil_r.
      rewrite !firstn_all2; [reflexivity | subst end_; lia | lia]. }
  destruct (Js.truthy chunk) eqn:E.
  - split.
    + apply Forall_app; split; [assumption|]. constructor; [|constructor].
      subst chunk. pose proof (trim_length (Js.slice text start end_)).
      pose proof (slice_length text start end_). subst end_. lia.
    + apply Forall_app; split; [assumption|]. constructor; [|constructor].
      subst chunk. rewrite trim_idem. intros Hn. rewrite Hn in E. discriminate.
    + rewrite concat_app, nonWhite_app. simpl. rewrite app_nil_r. exact Hcontent.
  - split; try assumption.
    destruct chunk; [|discriminate]. simpl in Hcontent.
    now rewrite app_nil_r in Hcontent.
Qed.

Lemma chunkText_loop_total (fuel start : nat) (chunks : list Js.str) :
  length text - start <= fuel ->
  chunk_inv text maxChars start chunks ->
  exists out, chunkText_loop fuel text maxChars start chunks = Some out
              /\ chunk_inv text maxChars (length text) out.
Proof.
  revert start chunks.
  induction fuel as [|fuel IH]; intros start chunks Hfuel Hinv; simpl.
  - destruct (Nat.ltb_spec start (length text)); [lia|].
    exists chunks. split; [reflexivity|].
    destruct Hinv as [Hb Ht Hc]. split; try assumption.
    rewrite Hc, !firstn_all2; [reflexivity | lia | lia].
  - destruct (Nat.ltb_spec start (length text)) as [Hlt|Hge].
    + apply IH; [lia | now apply chunk_inv_step].
    + exists chunks. split; [reflexivity|].
      destruct Hinv as [Hb Ht Hc]. split; try assumption.
      rewrite Hc, !firstn_all2; [reflexivity | lia | lia].
Qed.

End ChunkText.

(** C1. For every text and every positive maxChars, [chunkText] returns a
    list of chunks; every chunk is at most maxChars long, none is empty
    after trimming, and the chunks concatenated in order carry exactly the
    non-whitespace characters of the text, in their original order. *)
Theorem chunkText_bounded_nonempty_preserving (T : Js.str) (M : nat) :
  0 < M ->
  exists chunks,
    chunkText T M = Some chunks
    /\ Forall (fun c => length c <= M) chunks
    /\ Forall (fun c => Js.trim c <> []) chunks
    /\ Js.nonWhite (concat chunks) = Js.nonWhite T.
Proof.
  intros HM.
  destruct (chunkText_loop_total T M HM (length T) 0 []) as (out & Hout & [Hb Ht Hc]).
  - lia.
  - apply chunk_inv_init.
  - exists out. repeat split; try assumption.
    now rewrite Hc, firstn_all.
Qed.

Lemma chunkText_bounded_nonempty_preserving_witness :
  exists chunks,
    chunkText (Js.lit "  ab cd   ef ") 4 = Some chunks
    /\ Forall (fun c => length c <= 4) chunks
    /\ Forall (fun c => Js.trim c <> []) chunks
    /\ Js.nonWhite (concat chunks) = Js.nonWhite (Js.lit "  ab cd   ef ").
Proof.
  apply (chunkText_bounded_nonempty_preserving (Js.lit "  ab cd   ef ") 4). lia.
Defined.

(** ** The word-aware chunker: chunk lengths *)

Section WordLengths.

Variable fullTextOf : LegalSection -> Js.str.
Variable sections : list LegalSection.
Variable chunkSize : nat.

Lemma wordStep_lengths (s : LegalSection) (st : WordLoop) (w : Js.str) :
  In s sections -> In w (Js.splitSpace (fullTextOf s)) ->
  Forall (withinOrSingleWord fullTextOf sections chunkSize) (wl_chunks st) -> currentWithinOrWord fullTextOf chunkSize s (wl_currentChunk st) ->
  Forall (withinOrSingleWord fullTextOf sections chunkSize) (wl_chunks (wordStep s chunkSize st w))
  /\ currentWithinOrWord fullTextOf chunkSize s (wl_currentChunk (wordStep s chunkSize st w)).
Proof.
  intros Hs Hw Hch Hcur. unfold wordStep.
  destruct (Nat.ltb_spec chunkSize
              (length (wl_currentChunk st ++ Js.lit " " ++ w))) as [Hover|Hfit];
    destruct (Nat.ltb_spec 0 (length (wl_currentChunk st))) as [Hne|Hempty];
    simpl.
  - split.
    + apply Forall_app; split; [assumption|]. constructor; [|constructor].
      destruct Hcur as [Hle | [Hin Hlong]].
      * left. simpl. pose proof (trim_length (wl_currentChunk st)). lia.
      * right. exists s, (wl_currentChunk st). simpl. auto.
    + destruct (Nat.le_gt_cases (length w) chunkSize); [now left | now right].
  - split; [assumption|].
    destruct (wl_currentChunk st); [|simpl in Hempty; lia]. simpl.
    destruct (Nat.le_gt_cases (length w) chunkSize); [now left | now right].
  - split; [assumption|]. left.
    destruct (wl_currentChunk st) as [|c r]; [simpl in Hne; lia|].
    exact Hfit.
  - split; [assumption|].
    destruct (wl_currentChunk st); [|simpl in Hempty; lia]. simpl.
    left. rewrite !length_app in Hfit. simpl in *. lia.
Qed.

Lemma wordLoop_lengths (s : LegalSection) (ws : list Js.str) (st : WordLoop) :
  In s sections -> incl ws (Js.splitSpace (fullTextOf s)) ->
  Forall (withinOrSingleWord fullTextOf sections chunkSize) (wl_chunks st) -> currentWithinOrWord fullTextOf chunkSize s (wl_currentChunk st) ->
  Forall (withinOrSingleWord fullTextOf sections chunkSize) (wl_chunks (fold_left (wordStep s chunkSize) ws st))
  /\ currentWithinOrWord fullTextOf chunkSize s (wl_currentChunk (fold_left (wordStep s chunkSize) ws st)).
Proof.
  intros Hs. revert st.
  induction ws as [|w ws IH]; intros st Hincl Hch Hcur; simpl; [now split|].
  destruct (wordStep_lengths s st w Hs) as [H1 H2]; try assumption.
  - apply Hincl. now left.
  - apply IH; try assumption. intros x Hx. apply Hincl. now right.
Qed.

Lemma chunkSection_lengths (s : LegalSection) (chunks : list Chunk) :
  In s sections -> Forall (withinOrSingleWord fullTextOf sections chunkSize) chunks ->
  Forall (withinOrSingleWord fullTextOf sections chunkSize) (chunkSection s (fullTextOf s) chunkSize chunks).
Proof.
  intros Hs Hch. unfold chunkSection.
  destruct (Nat.leb_spec (length (fullTextOf s)) chunkSize) as [Hle|Hgt].
  - apply Forall_app; split; [assumption|]. constructor; [|constructor].
    now left.
  - destruct (wordLoop_lengths s (Js.splitSpace (fullTextOf s))
                {| wl_chunks := chunks; wl_currentChunk := []; wl_chunkIndex := 0 |}
                Hs (incl_refl _) Hch) as [H1 H2].
    { left. simpl. lia. }
    unfold wordFlush.
    destruct (Js.truthy _); [|assumption].
    apply Forall_app; split; [assumption|]. constructor; [|constructor].
    destruct H2 as [Hle | [Hin Hlong]].
    + left. simpl.
      pose proof (trim_length (wl_currentChunk
        (fold_left (wordStep s chunkSize) (Js.splitSpace (fullTextOf s))
           {| wl_chunks := chunks; wl_currentChunk := []; wl_chunkIndex := 0 |}))).
      lia.
    + right. eexists s, _. simpl. eauto.
Qed.

Lemma chunkSections_lengths (todo : list LegalSection) (chunks : list Chunk) :
  incl todo sections -> Forall (withinOrSingleWord fullTextOf sections chunkSize) chunks ->
  Forall (withinOrSingleWord fullTextOf sections chunkSize) (fold_left
               (fun chunks s => chunkSection s (fullTextOf s) chunkSize chunks)
               todo chunks).
Proof.
  revert chunks. induction todo as [|s todo IH]; intros chunks Hincl Hch; simpl.
  - assumption.
  - apply IH.
    + intros x Hx. apply Hincl. now right.
    + apply chunkSection_lengths; [apply Hincl; now left | assumption].
Qed.

End WordLengths.

Lemma not_allWithin (chunkSize : nat) (chunks : list Chunk) :
  forallb (fun c => length (ch_text c) <=? chunkSize) chunks = false ->
  ~ allWithin chunkSize chunks.
Proof.
  intros E H.
  assert (E' : forallb (fun c => length (ch_text c) <=? chunkSize) chunks = true).
  { apply forallb_forall. intros c Hc. apply Nat.leb_le.
    unfold allWithin in H. rewrite Forall_forall in H. now apply H. }
  congruence.
Qed.

(** C4, as stated, fails: a section whose text is one unbroken run of 1200
    characters gives, at the default sizes of the route (800) and of the
    script (1000), a chunk longer than the size. *)
Lemma word_chunk_exceeds_size :
  ~ allWithin 800 (chunkAndPrepareDocuments [sampleLongWord] 800)
  /\ ~ allWithin 1000 (chunkLegalSections [sampleLongWord] 1000).
Proof.
  split; apply not_allWithin; vm_compute; reflexivity.
Qed.

(** C4, amended. For every list of sections and every size, each chunk of
    the word-aware chunker (route and script) is at most the size long,
    unless it is one single space-delimited word of a section's text that
    is itself longer than the size; such a word is kept whole (trimmed) as
    a chunk of its own. *)
Theorem word_chunks_within_or_single_word
    (sections : list LegalSection) (chunkSize : nat) :
  Forall (withinOrSingleWord routeFullText sections chunkSize)
    (chunkAndPrepareDocuments sections chunkSize)
  /\ Forall (withinOrSingleWord scriptFullText sections chunkSize)
       (chunkLegalSections sections chunkSize).
Proof.
  split; apply chunkSections_lengths;
    (apply incl_refl || constructor).
Qed.

(** ** The word-aware chunker: words are never cut *)

Lemma join_snoc (sep : Js.str) (g : list Js.str) (w : Js.str) :
  g <> [] -> Js.join sep (g ++ [w]) = Js.join sep g ++ sep ++ w.
Proof.
  induction g as [|p g IH]; intros Hne; [congruence|].
  destruct g as [|q g].
  - reflexivity.
  - change (Js.join sep ((p :: q :: g) ++ [w]))
      with (p ++ sep ++ Js.join sep ((q :: g) ++ [w])).
    rewrite IH by discriminate.
    change (Js.join sep (p :: q :: g)) with (p ++ sep ++ Js.join sep (q :: g)).
    now rewrite <- !app_assoc.
Qed.

Lemma join_nil_inv (g : list Js.str) (k : nat) (cur : Js.str) :
  Js.join (Js.lit " ") g = repeat 32%N k ++ cur -> cur <> [] -> g <> [].
Proof.
  intros E Hcur ->. simpl in E. symmetry in E.
  apply app_eq_nil in E. tauto.
Qed.

Lemma trimStart_spaces (k : nat) (s : Js.str) :
  Js.trimStart (repeat 32%N k ++ s) = Js.trimStart s.
Proof. induction k as [|k IH]; simpl; [reflexivity | exact IH]. Qed.

Lemma trim_spaces (k : nat) (s : Js.str) :
  Js.trim (repeat 32%N k ++ s) = Js.trim s.
Proof. unfold Js.trim. now rewrite trimStart_spaces. Qed.

Lemma repeat_snoc_space (k : nat) (s : Js.str) :
  repeat 32%N k ++ Js.lit " " ++ s = repeat 32%N (S k) ++ s.
Proof.
  induction k as [|k IH]; [reflexivity|].
  simpl repeat at 1. rewrite <- app_comm_cons, IH. reflexivity.
Qed.

Lemma nonWhite_join_nil (sep : Js.str) (g : list Js.str) :
  Js.nonWhite (Js.join sep g) = [] -> Forall (fun w => Js.nonWhite w = []) g.
Proof.
  induction g as [|p g IH]; intros H; [constructor|].
  destruct g as [|q g].
  - constructor; [exact H | constructor].
  - change (Js.join sep (p :: q :: g)) with (p ++ sep ++ Js.join sep (q :: g)) in H.
    rewrite !nonWhite_app in H.
    apply app_eq_nil in H as [Hp H]. apply app_eq_nil in H as [_ H].
    constructor; [exact Hp | now apply IH].
Qed.

Section WordPartition.

Variable s : LegalSection.
Variable chunkSize : nat.
Variable base : list Js.str.

Lemma wordStep_partition (st : WordLoop) (done : list (list Js.str))
    (g : list Js.str) (w : Js.str) :
  word_inv base st done g ->
  exists done' g',
    word_inv base (wordStep s chunkSize st w) done' g'
    /\ concat done' ++ g' = (concat done ++ g) ++ [w].
Proof.
  intros [Htexts [k Hcur] Hgroups]. unfold wordStep.
  destruct (Nat.ltb_spec chunkSize
              (length (wl_currentChunk st ++ Js.lit " " ++ w))) as [Hover|Hfit];
    destruct (Nat.ltb_spec 0 (length (wl_currentChunk st))) as [Hne|Hempty];
    simpl andb; cbv iota.
  - (* the accumulated run is pushed, the word starts the next run *)
    exists (done ++ [g]), [w]. split.
    + split; simpl.
      * rewrite map_app, Htexts, map_app, <- app_assoc. simpl.
        unfold groupText at 3. now rewrite Hcur, trim_spaces.
      * exists 0. reflexivity.
      * apply Forall_app; split; [assumption|]. constructor; [|constructor].
        apply (join_nil_inv g k (wl_currentChunk st) Hcur).
        intros E. rewrite E in Hne. simpl in Hne. lia.
    + rewrite concat_app. simpl. now rewrite app_nil_r.
  - exists done, (g ++ [w]). split; [|now rewrite app_assoc].
    destruct (wl_currentChunk st) as [|c r] eqn:Ecur; [|simpl in Hempty; lia].
    split; simpl; try assumption.
    destruct g as [|p g].
    + exists 0. reflexivity.
    + exists (S k). rewrite join_snoc by discriminate.
      rewrite Hcur, app_nil_r. apply repeat_snoc_space.
  - exists done, (g ++ [w]). split; [|now rewrite app_assoc].
    destruct (wl_currentChunk st) as [|c r] eqn:Ecur; [simpl in Hne; lia|].
    split; simpl; try assumption.
    exists k. rewrite join_snoc.
    + rewrite Hcur. now rewrite <- !app_assoc.
    + apply (join_nil_inv g k (c :: r) Hcur). discriminate.
  - exists done, (g ++ [w]). split; [|now rewrite app_assoc].
    destruct (wl_currentChunk st) as [|c r] eqn:Ecur; [|simpl in Hempty; lia].
    split; simpl; try assumption.
    destruct g as [|p g].
    + exists 0. reflexivity.
    + exists (S k). rewrite join_snoc by discriminate.
      rewrite Hcur, app_nil_r. apply repeat_snoc_space.
Qed.

Lemma wordLoop_partition (ws : list Js.str) (st : WordLoop)
    (done : list (list Js.str)) (g : list Js.str) :
  word_inv base st done g ->
  exists done' g',
    word_inv base (fold_left (wordStep s chunkSize) ws st) done' g'
    /\ concat done' ++ g' = (concat done ++ g) ++ ws.
Proof.
  revert st done g.
  induction ws as [|w ws IH]; intros st done g Hinv; simpl.
  - exists done, g. split; [assumption | now rewrite app_nil_r].
  - destruct (wordStep_partition st done g w Hinv) as (d1 & g1 & H1 & E1).
    destruct (IH _ _ _ H1) as (d2 & g2 & H2 & E2).
    exists d2, g2. split; [assumption|].
    rewrite E2, E1, <- !app_assoc. reflexivity.
Qed.

Lemma chunkSection_partition (fullText : Js.str) (chunks : list Chunk) :
  map ch_text chunks = base ->
  exists texts,
    map ch_text (chunkSection s fullText chunkSize chunks) = base ++ texts
    /\ wordPartition chunkSize fullText texts.
Proof.
  intros Hbase. unfold chunkSection.
  destruct (Nat.leb_spec (length fullText) chunkSize) as [Hle|Hgt].
  - exists [fullText]. split.
    + now rewrite map_app, Hbase.
    + left. now split.
  - destruct (wordLoop_partition (Js.splitSpace fullText)
                {| wl_chunks := chunks; wl_currentChunk := []; wl_chunkIndex := 0 |}
                [] []) as (done & g & [Htexts [k Hcur] Hgroups] & Ewords).
    { split; simpl.
      - now rewrite app_nil_r.
      - exists 0. reflexivity.
      - constructor. }
    simpl in Ewords. unfold wordFlush.
    set (final := fold_left (wordStep s chunkSize) (Js.splitSpace fullText) _) in *.
    destruct (Js.truthy (Js.trim (wl_currentChunk final))) eqn:Etr.
    + exists (map groupText (done ++ [g])). split.
      * rewrite map_app, Htexts, map_app, <- app_assoc. simpl.
        unfold groupText at 3. now rewrite Hcur, trim_spaces.
      * right. split; [assumption|]. exists (done ++ [g]), [].
        repeat split.
        -- now rewrite app_nil_r, concat_app, <- Ewords; simpl; rewrite app_nil_r.
        -- apply Forall_app; split; [assumption|]. constructor; [|constructor].
           intros ->. simpl in Hcur. symmetry in Hcur.
           apply app_eq_nil in Hcur as [_ Hcur]. rewrite Hcur in Etr. discriminate.
        -- constructor.
    + exists (map groupText done). split; [assumption|].
      right. split; [assumption|]. exists done, g.
      repeat split; try assumption.
      assert (Hnil : Js.trim (wl_currentChunk final) = []).
      { destruct (Js.trim (wl_currentChunk final)); [reflexivity | discriminate]. }
      apply trim_nil_iff_nonWhite in Hnil.
      assert (Hj : Js.nonWhite (Js.join (Js.lit " ") g) = []).
      { rewrite Hcur, nonWhite_app, Hnil, app_nil_r.
        clear. induction k; [reflexivity | exact IHk]. }
      apply nonWhite_join_nil in Hj.
      eapply Forall_impl; [|exact Hj].
      intros w Hw. now apply trim_nil_iff_nonWhite.
Qed.

End WordPartition.

Lemma chunkSections_partition (fullTextOf : LegalSection -> Js.str)
    (chunkSize : nat) (sections : list LegalSection) (chunks : list Chunk) :
  exists parts,
    map ch_text (fold_left
                   (fun chunks s => chunkSection s (fullTextOf s) chunkSize chunks)
                   sections chunks)
    = map ch_text chunks ++ concat parts
    /\ Forall2 (fun s texts => wordPartition chunkSize (fullTextOf s) texts)
         sections parts.
Proof.
  revert chunks. induction sections as [|s sections IH]; intros chunks; simpl.
  - exists []. split; [now rewrite app_nil_r | constructor].
  - destruct (chunkSection_partition s chunkSize (map ch_text chunks)
                (fullTextOf s) chunks eq_refl) as (texts & E & Hp).
    destruct (IH (chunkSection s (fullTextOf s) chunkSize chunks))
      as (parts & E' & Hps).
    exists (texts :: parts). split.
    + rewrite E', E. simpl. now rewrite <- app_assoc.
    + now constructor.
Qed.

(** C5, as stated, fails: in the sample record the word "bbb" followed by
    a line feed ends a chunk at size 32, and trimming the chunk removes
    the line feed, so that word of the text is in no chunk whole. *)
Lemma trimmed_word_not_whole :
  ~ wordsWhole (routeFullText sampleNewlineWord)
      (map ch_text (chunkAndPrepareDocuments [sampleNewlineWord] 32))
  /\ ~ wordsWhole (scriptFullText sampleNewlineWord)
         (map ch_text (chunkLegalSections [sampleNewlineWord] 32)).
Proof.
  split; intros H; vm_compute in H; discriminate H.
Qed.

(** C5, amended. For every list of sections and every size, the chunks of
    the word-aware chunker (route and script) are, section by section:
    the whole text when it fits, and otherwise one chunk per run of
    consecutive words of the text (the pieces between spaces), the runs
    covering the words in order with every word in exactly one run, each
    chunk being its run joined by single spaces and trimmed.  So no chunk
    boundary falls inside a word; a word loses only whitespace other than
    spaces (line feeds, tabs) when it stands at the start or end of a
    chunk, and whitespace-only words after the last chunk are dropped. *)
Theorem word_chunks_partition_words
    (sections : list LegalSection) (chunkSize : nat) :
  (exists parts,
      map ch_text (chunkAndPrepareDocuments sections chunkSize) = concat parts
      /\ Forall2 (fun s texts => wordPartition chunkSize (routeFullText s) texts)
           sections parts)
  /\ (exists parts,
         map ch_text (chunkLegalSections sections chunkSize) = concat parts
         /\ Forall2 (fun s texts => wordPartition chunkSize (scriptFullText s) texts)
              sections parts).
Proof.
  split.
  - apply (chunkSections_partition routeFullText chunkSize sections []).
  - apply (chunkSections_partition scriptFullText chunkSize sections []).
Qed.

(** ** Batches *)

Lemma sliceList_length {A} (l : list A) (i size : nat) :
  length (sliceList l i (i + size)) = Nat.min size (length l - i).
Proof.
  unfold sliceList. rewrite length_firstn, length_skipn.
  replace (i + size - i) with size by lia. reflexivity.
Qed.

Lemma skipn_sliceList {A} (l : list A) (i size : nat) :
  skipn i l = sliceList l i (i + size) ++ skipn (i + size) l.
Proof.
  unfold sliceList. replace (i + size - i) with size by lia.
  rewrite Nat.add_comm, <- skipn_skipn. symmetry. apply firstn_skipn.
Qed.

(** The batches are the list, cut in order. *)
Lemma batchesFrom_concat {A} (fuel size : nat) (l : list A) (i : nat) :
  0 < size -> length l - i <= fuel ->
  concat (batchesFrom fuel size l i) = skipn i l.
Proof.
  intros Hsize. revert i.
  induction fuel as [|fuel IH]; intros i Hfuel; simpl;
    destruct (Nat.ltb_spec i (length l)) as [Hlt|Hge];
    try (now rewrite skipn_all2 by lia).
  simpl. rewrite IH by lia. symmetry. apply skipn_sliceList.
Qed.

Lemma batchesOf_concat {A} (size : nat) (l : list A) :
  0 < size -> concat (batchesOf size l) = l.
Proof.
  intros H. unfold batchesOf. rewrite batchesFrom_concat by lia. reflexivity.
Qed.

Lemma batchesFrom_sizes {A} (fuel size : nat) (l : list A) (i : nat) :
  0 < size ->
  Forall (fun b => 0 < length b <= size) (batchesFrom fuel size l i).
Proof.
  intros Hsize. revert i.
  induction fuel as [|fuel IH]; intros i; simpl;
    destruct (Nat.ltb_spec i (length l)) as [Hlt|Hge]; try constructor.
  - rewrite sliceList_length. lia.
  - apply IH.
Qed.

(** ** Reasoning about runs *)

Section Runs.

Context {W : Type}.
Implicit Types p : Process W.

Lemma post_exists {A} (c : M W A) p (Q : Result A -> Process W -> Prop) :
  post c p Q <-> exists r p', c p = (r, p') /\ Q r p'.
Proof.
  unfold post. split.
  - intros H. exists (fst (c p)), (snd (c p)). split; [apply surjective_pairing | exact H].
  - intros (r & p' & E & H). now rewrite E.
Qed.

Lemma post_mono {A} (c : M W A) p (Q Q' : Result A -> Process W -> Prop) :
  post c p Q -> (forall r p', Q r p' -> Q' r p') -> post c p Q'.
Proof. unfold post. auto. Qed.

Lemma post_ret {A} (a : A) p (Q : Result A -> Process W -> Prop) :
  Q (Ok a) p -> post (ret a) p Q.
Proof. exact (fun H => H). Qed.

Lemma post_throw {A} (e : Exn) p (Q : Result A -> Process W -> Prop) :
  Q (Thrown e) p -> post (throw e) p Q.
Proof. exact (fun H => H). Qed.

Lemma post_bind {A B} (c : M W A) (k : A -> M W B) p
    (Q : Result B -> Process W -> Prop) :
  post c p (fun r p' =>
              match r with
              | Ok a => post (k a) p' Q
              | Thrown e => Q (Thrown e) p'
              | OutOfFuel => Q OutOfFuel p'
              end) ->
  post (bind c k) p Q.
Proof.
  unfold post, bind. destruct (c p) as [[a|e|] p']; simpl; auto.
Qed.

Lemma post_tryCatch {A} (body : M W A) (handler : Exn -> M W A) p
    (Q : Result A -> Process W -> Prop) :
  post body p (fun r p' =>
                 match r with
                 | Thrown e => post (handler e) p' Q
                 | other => Q other p'
                 end) ->
  post (tryCatch body handler) p Q.
Proof.
  unfold post, tryCatch. destruct (body p) as [[a|e|] p']; simpl; auto.
Qed.

Lemma extends_refl p : extends p p [] [].
Proof. split; now rewrite app_nil_r. Qed.

Lemma extends_trans p p1 p2 cs1 cs2 es1 es2 :
  extends p p1 cs1 es1 -> extends p1 p2 cs2 es2 ->
  extends p p2 (cs1 ++ cs2) (es1 ++ es2).
Proof.
  intros [C1 L1] [C2 L2]. split.
  - now rewrite C2, C1, app_assoc.
  - now rewrite L2, L1, app_assoc.
Qed.

Lemma extends_quiet p p1 p2 cs es :
  extends p p1 [] [] -> extends p1 p2 cs es -> extends p p2 cs es.
Proof. intros H1 H2. exact (extends_trans p p1 p2 [] cs [] es H1 H2). Qed.

Lemma extends_then_quiet p p1 p2 cs es :
  extends p p1 cs es -> extends p1 p2 [] [] -> extends p p2 cs es.
Proof.
  intros H1 H2. pose proof (extends_trans p p1 p2 cs [] es [] H1 H2) as H.
  now rewrite !app_nil_r in H.
Qed.

Lemma extends_then_logged p p1 p2 cs es :
  extends p p1 cs [] -> extends p1 p2 [] es -> extends p p2 cs es.
Proof.
  intros H1 H2. pose proof (extends_trans p p1 p2 cs [] [] es H1 H2) as H.
  now rewrite app_nil_r in H.
Qed.

(** A line that is not an indexer error. *)
Lemma post_log module level message p (Q : Result unit -> Process W -> Prop) :
  isIndexerError {| log_module := module; log_level := level;
                    log_message := message |} = false ->
  (forall p', extends p p' [] [] -> Q (Ok tt) p') ->
  post (log module level message) p Q.
Proof.
  intros Hq H. unfold post, log. simpl. apply H. split; simpl.
  - now rewrite app_nil_r.
  - unfold indexerErrors. rewrite filter_app. simpl. rewrite Hq.
    now rewrite !app_nil_r.
Qed.

(** The same, keeping track of the initialisation flag. *)
Lemma post_log_flag module level message p (Q : Result unit -> Process W -> Prop) :
  isIndexerError {| log_module := module; log_level := level;
                    log_message := message |} = false ->
  (forall p', extends p p' [] [] -> initialized p' = initialized p -> Q (Ok tt) p') ->
  post (log module level message) p Q.
Proof.
  intros Hq H. unfold post, log. simpl. apply H; [|reflexivity]. split; simpl.
  - now rewrite app_nil_r.
  - unfold indexerErrors. rewrite filter_app. simpl. rewrite Hq.
    now rewrite !app_nil_r.
Qed.

(** An error logged by the indexer. *)
Lemma post_log_error message p (Q : Result unit -> Process W -> Prop) :
  (forall p', extends p p' [] [message] -> Q (Ok tt) p') ->
  post (log (Js.lit "Indexer") ERROR message) p Q.
Proof.
  intros H. unfold post, log. simpl. apply H. split; simpl.
  - now rewrite app_nil_r.
  - unfold indexerErrors. rewrite filter_app, map_app. reflexivity.
Qed.

Lemma post_callService {A} (c : ExternalCall) (f : W -> (Exn + A) * W) p
    (Q : Result A -> Process W -> Prop) :
  (forall a p', extends p p' [{| cr_call := c; cr_ok := true |}] [] -> Q (Ok a) p') ->
  (forall e p', extends p p' [{| cr_call := c; cr_ok := false |}] [] -> Q (Thrown e) p') ->
  post (callService c f) p Q.
Proof.
  intros Hok Hko. unfold post, callService.
  destruct (f (world p)) as [[e|a] w']; simpl.
  - apply Hko. split; simpl; [reflexivity | now rewrite app_nil_r].
  - apply Hok. split; simpl; [reflexivity | now rewrite app_nil_r].
Qed.

Lemma post_get {A} (f : Process W -> A) p (Q : Result A -> Process W -> Prop) :
  Q (Ok (f p)) p -> post (get f) p Q.
Proof. exact (fun H => H). Qed.

Lemma post_setOpenaiClient p (Q : Result unit -> Process W -> Prop) :
  (forall p', extends p p' [] [] -> Q (Ok tt) p') -> post setOpenaiClient p Q.
Proof. intros H. apply H. split; simpl; now rewrite app_nil_r. Qed.

Lemma post_setPineconeClient p (Q : Result unit -> Process W -> Prop) :
  (forall p', extends p p' [] [] -> Q (Ok tt) p') -> post setPineconeClient p Q.
Proof. intros H. apply H. split; simpl; now rewrite app_nil_r. Qed.

Lemma post_setInitialized p (Q : Result unit -> Process W -> Prop) :
  (forall p', extends p p' [] [] -> initialized p' = true -> Q (Ok tt) p') ->
  post setInitialized p Q.
Proof. intros H. apply H; [split; simpl; now rewrite app_nil_r | reflexivity]. Qed.

Lemma post_of_eq {A} (c : M W A) p (r : Result A) p'
    (Q : Result A -> Process W -> Prop) :
  c p = (r, p') -> Q r p' -> post c p Q.
Proof. intros E H. unfold post. now rewrite E. Qed.


End Runs.

(** ** The clients *)

Section ClientProperties.

Context {W : Type}.
Variable svc : Services W.
Variable env : Env.
Implicit Types p : Process W.

Lemma isSet_inv (v : option Js.str) :
  isSet v = true -> exists c r, v = Some (c :: r).
Proof. destruct v as [[|c r]|]; try discriminate. intros _. now exists c, r. Qed.

Lemma envConfigured_inv :
  envConfigured env = true ->
  isSet (OPENAI_API_KEY env) = true /\ isSet (PINECONE_API_KEY env) = true
  /\ isSet (PINECONE_INDEX env) = true.
Proof.
  unfold envConfigured. intros H.
  apply andb_prop in H as [H H3]. apply andb_prop in H as [H1 H2]. auto.
Qed.

Lemma post_getEnvConfig p (Q : Result EnvironmentConfig -> Process W -> Prop) :
  envConfigured env = true ->
  (forall cfg, Js.truthy (cfg_pinecone_apiKey cfg) = true ->
               Js.truthy (cfg_pinecone_index cfg) = true -> Q (Ok cfg) p) ->
  post (getEnvConfig env) p Q.
Proof.
  intros Hc H. destruct (envConfigured_inv Hc) as (H1 & H2 & H3).
  destruct (isSet_inv _ H1) as (c1 & r1 & E1).
  destruct (isSet_inv _ H2) as (c2 & r2 & E2).
  destruct (isSet_inv _ H3) as (c3 & r3 & E3).
  unfold post, getEnvConfig, validateEnvVar. rewrite E1, E2, E3. simpl.
  now apply H.
Qed.

(** With a variable missing, the configuration cannot be read: the
    attempt throws before anything is logged or called. *)
Lemma getEnvConfig_unconfigured p :
  envConfigured env = false -> exists e, getEnvConfig env p = (Thrown e, p).
Proof.
  unfold envConfigured, getEnvConfig, validateEnvVar, bind, throw.
  destruct (isSet (OPENAI_API_KEY env)); [|intros _; eexists; reflexivity].
  destruct (isSet (PINECONE_API_KEY env)); [|intros _; eexists; reflexivity].
  destruct (isSet (PINECONE_INDEX env)); [discriminate|].
  intros _; eexists; reflexivity.
Qed.

Lemma post_getPineconeClient p (Q : Result unit -> Process W -> Prop) :
  envConfigured env = true ->
  (forall p', extends p p' [] [] -> Q (Ok tt) p') ->
  post (getPineconeClient env) p Q.
Proof.
  intros Hc H. unfold getPineconeClient.
  apply post_bind, post_getEnvConfig; [assumption|].
  intros cfg Hk _. rewrite Hk. simpl.
  apply post_bind, post_get.
  destruct (pineconeClient p).
  - apply post_ret, H, extends_refl.
  - apply post_bind, post_log; [reflexivity|]. intros p1 E1.
    apply post_bind, post_setPineconeClient. intros p2 E2.
    apply post_log; [reflexivity|]. intros p3 E3.
    apply H. eauto using extends_quiet.
Qed.

Lemma post_getPineconeIndex p (Q : Result unit -> Process W -> Prop) :
  envConfigured env = true ->
  (forall p', extends p p' [] [] -> Q (Ok tt) p') ->
  post (getPineconeIndex env) p Q.
Proof.
  intros Hc H. unfold getPineconeIndex.
  apply post_bind, post_getEnvConfig; [assumption|].
  intros cfg _ Hi. rewrite Hi. simpl.
  apply post_bind, post_log; [reflexivity|]. intros p1 E1.
  apply post_getPineconeClient; [assumption|]. intros p2 E2.
  apply H. eauto using extends_quiet.
Qed.

Lemma getPineconeIndex_unconfigured p :
  envConfigured env = false -> exists e, getPineconeIndex env p = (Thrown e, p).
Proof.
  intros Hc. destruct (getEnvConfig_unconfigured p Hc) as [e E].
  exists e. unfold getPineconeIndex, bind. now rewrite E.
Qed.

Lemma post_getOpenAIClient p (Q : Result unit -> Process W -> Prop) :
  isSet (OPENAI_API_KEY env) = true ->
  (forall p', extends p p' [] [] -> Q (Ok tt) p') ->
  post (getOpenAIClient env) p Q.
Proof.
  intros Hk H. unfold getOpenAIClient.
  apply post_bind, post_get.
  destruct (openaiClient p).
  - apply post_ret, H, extends_refl.
  - rewrite Hk. simpl.
    apply post_bind, post_log; [reflexivity|]. intros p1 E1.
    apply post_bind, post_setOpenaiClient. intros p2 E2.
    apply post_log; [reflexivity|]. intros p3 E3.
    apply H. eauto using extends_quiet.
Qed.

(** A non-empty request makes exactly one call to the embedding service
    and succeeds or fails with it. *)
Lemma post_embedTexts (texts : list Js.str) p
    (Q : Result (list Embedding) -> Process W -> Prop) :
  texts <> [] -> isSet (OPENAI_API_KEY env) = true ->
  (forall r p' ok,
      extends p p' [{| cr_call := EmbeddingsCreate texts; cr_ok := ok |}] [] ->
      match r with
      | Ok _ => ok = true
      | Thrown _ => ok = false
      | OutOfFuel => False
      end -> Q r p') ->
  post (embedTexts svc env texts) p Q.
Proof.
  intros Hne Hk H. destruct texts as [|t texts]; [congruence|].
  unfold embedTexts.
  apply post_bind, post_log; [reflexivity|]. intros p1 E1.
  apply post_tryCatch, post_bind, post_getOpenAIClient; [assumption|].
  intros p2 E2.
  apply post_bind, post_callService.
  - intros data p3 E3.
    apply post_bind, post_log; [reflexivity|]. intros p4 E4.
    apply post_ret. apply (H _ _ true); [|reflexivity].
    eauto using extends_quiet, extends_then_quiet.
  - intros e p3 E3.
    apply post_bind, post_log; [reflexivity|]. intros p4 E4.
    apply post_throw. apply (H _ _ false); [|reflexivity].
    eauto using extends_quiet, extends_then_quiet.
Qed.

End ClientProperties.

(** ** The verdict on the environment *)

Lemma validateEnvironment_facts (W : Type) (env : Env) (p : Process W) :
  exists v,
    validateEnvironment env p = (Ok v, p)
    /\ (valid v = true <->
        envConfigured env = true
        /\ Js.startsWith (Js.lit "sk-") (valueOr (OPENAI_API_KEY env) []) = true)
    /\ (valid v = true <-> validation_errors v = [])
    /\ length (validation_errors v) <= 1.
Proof.
  unfold validateEnvironment, getEnvConfig, validateEnvVar, envConfigured,
    tryCatch, bind, throw, ret.
  destruct (OPENAI_API_KEY env) as [[|c1 k1]|];
    destruct (PINECONE_API_KEY env) as [[|c2 k2]|];
    destruct (PINECONE_INDEX env) as [[|c3 k3]|]; cbn -[Js.startsWith];
    try (eexists; split; [reflexivity|]; cbn -[Js.startsWith];
         repeat split; intros; try discriminate; try lia;
         match goal with H : _ /\ _ |- _ => destruct H; discriminate end).
  destruct (Js.startsWith (Js.lit "sk-") (c1 :: k1)) eqn:E; cbn -[Js.startsWith];
    eexists; (split; [reflexivity|]); cbn -[Js.startsWith];
    repeat split; intros; try discriminate; try lia; try assumption;
    try match goal with H : _ /\ _ |- _ => destruct H; congruence end.
Qed.

(** The verdict in one piece, for the routes that branch on it. *)
Lemma validateEnvironment_run (W : Type) (env : Env) (p : Process W) :
  exists v,
    validateEnvironment env p = (Ok v, p)
    /\ valid v = envValid env
    /\ (valid v = true -> validation_errors v = [])
    /\ (valid v = false -> exists e, validation_errors v = [e]).
Proof.
  destruct (validateEnvironment_facts W env p) as (v & E & Hv & He & Hl).
  exists v. split; [exact E|]. split; [|split].
  - unfold envValid. destruct (valid v) eqn:Ev.
    + destruct (proj1 Hv eq_refl) as [-> ->]. reflexivity.
    + destruct (envConfigured env) eqn:Hc; [|reflexivity].
      destruct (Js.startsWith _ _) eqn:Hs; [|reflexivity].
      assert (false = true) by (apply Hv; auto). discriminate.
  - intros Hx. now apply He.
  - intros Hx. destruct (validation_errors v) as [|e [|e' r]] eqn:Ee.
    + assert (valid v = true) by now apply He. congruence.
    + now exists e.
    + simpl in Hl. lia.
Qed.

Lemma envValid_configured (env : Env) :
  envValid env = true -> envConfigured env = true.
Proof. unfold envValid. intros H. now apply andb_prop in H. Qed.

Lemma envConfigured_pinecone (env : Env) :
  envConfigured env = true -> pineconeConfigured env = true.
Proof.
  unfold envConfigured, pineconeConfigured.
  destruct (isSet (OPENAI_API_KEY env)); [simpl; auto | discriminate].
Qed.

Lemma getPineconeIndex_missing (W : Type) (env : Env) (p : Process W) (name : Js.str) :
  firstMissing env = Some name ->
  getPineconeIndex env p = (Thrown (mkConfigurationError (missingVariable name)), p).
Proof.
  unfold firstMissing, getPineconeIndex, getEnvConfig, validateEnvVar, bind, throw,
    missingVariable.
  destruct (isSet (OPENAI_API_KEY env)); simpl;
    [|intros H; injection H as <-; reflexivity].
  destruct (isSet (PINECONE_API_KEY env)); simpl;
    [|intros H; injection H as <-; reflexivity].
  destruct (isSet (PINECONE_INDEX env)); simpl;
    [discriminate | intros H; injection H as <-; reflexivity].
Qed.



(** C9. [embedTexts] applied to the empty list returns the empty list of
    embeddings and makes no call to the embedding service (nor to any
    other): the calls made and the world outside are as before. *)
Theorem embedTexts_empty_no_call
    (W : Type) (svc : Services W) (env : Env) (p : Process W) :
  exists p',
    embedTexts svc env [] p = (Ok [], p')
    /\ calls p' = calls p
    /\ world p' = world p.
Proof.
  eexists. split; [reflexivity|]. split; reflexivity.
Qed.

(** ** Bulk ingestion *)

Lemma mapFrom_length {A B} (f : nat -> A -> B) (i : nat) (l : list A) :
  length (mapFrom f i l) = length l.
Proof. revert i. induction l as [|x l IH]; intros i; simpl; [|rewrite IH]; reflexivity. Qed.

Lemma embedInputs_app (a b : list CallRecord) :
  embedInputs (a ++ b) = embedInputs a ++ embedInputs b.
Proof.
  induction a as [|c a IH]; simpl; [reflexivity|].
  destruct (cr_call c); simpl; now rewrite IH.
Qed.

Lemma upsertedCount_app (a b : list CallRecord) :
  upsertedCount (a ++ b) = upsertedCount a + upsertedCount b.
Proof.
  induction a as [|c a IH]; simpl; [reflexivity|].
  destruct (cr_call c), (cr_ok c); simpl; lia.
Qed.

Lemma failedCalls_app (a b : list CallRecord) :
  failedCalls (a ++ b) = failedCalls a ++ failedCalls b.
Proof. apply filter_app. Qed.

Lemma failedCalls_last (pre : list CallRecord) (c : CallRecord) :
  cr_ok c = false -> failedCalls pre = [] -> failedCalls (pre ++ [c]) = [c].
Proof.
  intros Hc Hpre. rewrite failedCalls_app, Hpre. simpl.
  unfold failedCalls. simpl. now rewrite Hc.
Qed.

Section IngestionProperties.

Context {W : Type}.
Variable svc : Services W.
Variable env : Env.
Hypothesis configured : envConfigured env = true.
Implicit Types p : Process W.

Lemma openai_set : isSet (OPENAI_API_KEY env) = true.
Proof. now destruct (envConfigured_inv env configured). Qed.

(** Embedding a batch and upserting its vectors, the core of the three
    [try] blocks. *)
Lemma post_embed_upsert {A} (texts : list Js.str) (size : nat)
    (vectorsOf : list Embedding -> list VectorRecord) (k : unit -> M W A) p
    (Q : Result A -> Process W -> Prop) :
  texts <> [] ->
  (forall embeddings, length (vectorsOf embeddings) = size) ->
  (forall p1, attempted p texts size (Ok tt) p1 -> post (k tt) p1 Q) ->
  (forall e p', attempted (A:=A) p texts size (Thrown e) p' -> Q (Thrown e) p') ->
  post (embeddings <- embedTexts svc env texts ;;
        bind (callService (IndexUpsert (vectorsOf embeddings))
                (index_upsert svc (vectorsOf embeddings))) k) p Q.
Proof.
  intros Hne Hsize Hok Hko.
  apply post_bind, post_embedTexts; [assumption | exact openai_set |].
  intros [embeddings|e|] p1 ok E1 Hr; [subst ok | subst ok | contradiction].
  - apply post_bind, post_callService.
    + intros [] p2 E2. apply Hok.
      exists [{| cr_call := EmbeddingsCreate texts; cr_ok := true |};
              {| cr_call := IndexUpsert (vectorsOf embeddings); cr_ok := true |}].
      split; [exact (extends_trans _ _ _ _ _ _ _ E1 E2)|].
      split; [reflexivity|]. simpl. rewrite Hsize. split; [lia | reflexivity].
    + intros e p2 E2. apply Hko.
      exists [{| cr_call := EmbeddingsCreate texts; cr_ok := true |};
              {| cr_call := IndexUpsert (vectorsOf embeddings); cr_ok := false |}].
      split; [exact (extends_trans _ _ _ _ _ _ _ E1 E2)|].
      split; [reflexivity|]. simpl. split; [reflexivity|].
      exists [{| cr_call := EmbeddingsCreate texts; cr_ok := true |}],
             {| cr_call := IndexUpsert (vectorsOf embeddings); cr_ok := false |}.
      repeat split.
  - apply Hko.
    exists [{| cr_call := EmbeddingsCreate texts; cr_ok := false |}].
    split; [assumption|]. split; [reflexivity|]. simpl. split; [reflexivity|].
    exists [], {| cr_call := EmbeddingsCreate texts; cr_ok := false |}.
    repeat split.
Qed.

Lemma attempted_quiet_before {A} p p0 p' texts size (r : Result A) :
  extends p p0 [] [] -> attempted p0 texts size r p' -> attempted p texts size r p'.
Proof.
  intros E (cs & E' & H). exists cs. split; [|exact H].
  eauto using extends_quiet.
Qed.

Lemma attempted_quiet_after {A B} p p1 p' texts size (a : A) (b : B) :
  attempted p texts size (Ok a) p1 -> extends p1 p' [] [] ->
  attempted p texts size (Ok b) p'.
Proof.
  intros (cs & E' & H) E. exists cs. split; [|exact H].
  eauto using extends_then_quiet.
Qed.

Lemma map_nonempty {A B} (f : A -> B) (l : list A) : l <> [] -> map f l <> [].
Proof. destruct l; [congruence | discriminate]. Qed.

Lemma post_uploadBatch (batch : list UploadedDoc) (batchNum uploadedCount : nat) p
    (Q : Result nat -> Process W -> Prop) :
  batch <> [] ->
  (forall r p',
      attempted p (map ud_text batch) (length batch) r p' ->
      (forall n, r = Ok n -> n = uploadedCount + length batch) -> Q r p') ->
  post (uploadBatch svc env batch batchNum uploadedCount) p Q.
Proof.
  intros Hne H. unfold uploadBatch.
  apply post_bind, post_log; [reflexivity|]. intros p0 E0.
  apply (post_embed_upsert (map ud_text batch) (length batch)
           (fun embeddings => mapFrom (docVector embeddings) 0 batch)).
  - now apply map_nonempty.
  - intros. apply mapFrom_length.
  - intros p1 H1. apply post_bind, post_log; [reflexivity|]. intros p2 E2.
    apply post_ret. apply H.
    + eapply attempted_quiet_before; [exact E0|].
      eapply attempted_quiet_after; eassumption.
    + congruence.
  - intros e p1 H1. apply H.
    + eapply attempted_quiet_before; eassumption.
    + discriminate.
Qed.



Lemma sliceList_nonempty {A} (l : list A) (i size : nat) :
  i < length l -> 0 < size -> sliceList l i (i + size) <> [].
Proof.
  intros Hi Hs E. apply (f_equal (@length A)) in E.
  rewrite sliceList_length in E. simpl in E. lia.
Qed.

(** The loop of [uploadDocumentsToPinecone] always runs to its end: every
    batch from [i] on is attempted, the count grows by the vectors of the
    successful upserts, and each failed batch adds one message, logged and
    recorded. *)
Lemma post_uploadLoop (docs : list UploadedDoc) (fuel i uploadedCount : nat)
    (errs : list Js.str) p :
  length docs - i <= fuel ->
  post (uploadLoop svc env fuel docs i uploadedCount errs) p
    (fun r p' =>
       exists n es cs,
         r = Ok (n, errs ++ es)
         /\ extends p p' cs es
         /\ embedInputs cs = map (map ud_text) (batchesFrom fuel 50 docs i)
         /\ n = uploadedCount + upsertedCount cs
         /\ length es = length (failedCalls cs)
         /\ n <= uploadedCount + (length docs - i)
         /\ (es = [] <-> n = uploadedCount + (length docs - i))).
Proof.
  revert i uploadedCount errs p.
  induction fuel as [|fuel IH]; intros i uploadedCount errs p Hfuel; simpl;
    destruct (Nat.ltb_spec i (length docs)) as [Hlt|Hge]; try lia.
  - apply post_ret. exists uploadedCount, [], []. rewrite app_nil_r.
    split; [reflexivity|]. split; [apply extends_refl|].
    simpl. repeat split; lia.
  - pose proof (sliceList_length docs i uploadBatchSize) as Hlen.
    unfold uploadBatchSize in *.
    apply post_bind, post_tryCatch, post_bind, post_uploadBatch.
    { apply sliceList_nonempty; lia. }
    intros [n| e |] p1 (cs1 & E1 & I1 & H1) Hn; [| |contradiction].
    + (* the batch went through *)
      destruct H1 as [U1 F1]. specialize (Hn n eq_refl).
      apply post_ret. simpl.
      eapply post_mono; [apply (IH (i + 50) n errs p1); lia|].
      intros r p' (n' & es & cs & -> & E & I & -> & L & B & Z).
      exists (n + upsertedCount cs), es, (cs1 ++ cs).
      split; [reflexivity|].
      split; [exact (extends_trans _ _ _ _ _ _ _ E1 E)|].
      rewrite embedInputs_app, upsertedCount_app, failedCalls_app, I1, I, U1, F1.
      repeat split; simpl; try lia.
      * intros He. apply Z in He. lia.
      * intros He. apply Z. lia.
    + (* the batch failed: logged, recorded, and the loop goes on *)
      destruct H1 as (U1 & pre & c & -> & Hc & Hpre).
      apply post_bind, post_log_error. intros p2 E2.
      apply post_ret. simpl.
      eapply post_mono; [apply (IH (i + 50) uploadedCount _ p2); lia|].
      intros r p' (n' & es & cs & -> & E & I & -> & L & B & Z).
      eexists _, (_ :: es), ((pre ++ [c]) ++ cs).
      split; [rewrite <- app_assoc; reflexivity|].
      split.
      { pose proof (extends_then_logged _ _ _ _ _ E1 E2) as E12.
        exact (extends_trans _ _ _ _ _ _ _ E12 E). }
      rewrite embedInputs_app, upsertedCount_app, failedCalls_app, I1, I, U1.
      rewrite (failedCalls_last pre c Hc Hpre).
      repeat split; simpl; try lia; discriminate.
  - apply post_ret. exists uploadedCount, [], []. rewrite app_nil_r.
    split; [reflexivity|]. split; [apply extends_refl|].
    simpl. repeat split; lia.
Qed.



(** [uploadDocumentsToPinecone] on a non-empty or empty list. *)
Lemma post_uploadDocuments (docs : list UploadedDoc) p :
  post (uploadDocumentsToPinecone svc env docs) p
    (fun r p' =>
       exists res es cs,
         r = Ok res
         /\ extends p p' cs es
         /\ embedInputs cs = map (map ud_text) (batchesOf 50 docs)
         /\ uploadedChunks res = upsertedCount cs
         /\ length es = length (failedCalls cs)
         /\ errors res = match es with [] => None | _ :: _ => Some es end
         /\ uploadedChunks res <= length docs
         /\ (es = [] <-> uploadedChunks res = length docs)).
Proof.
  destruct docs as [|d docs'].
  - unfold uploadDocumentsToPinecone.
    apply post_bind, post_log; [reflexivity|]. intros p1 E1.
    apply post_ret. exists {| uploadedChunks := 0; errors := None |}, [], [].
    split; [reflexivity|]. split; [assumption|]. simpl. repeat split; auto.
  - unfold uploadDocumentsToPinecone.
    remember (d :: docs') as docs eqn:Edocs.
    apply post_bind, post_log; [reflexivity|]. intros p1 E1.
    apply post_bind, post_getPineconeIndex; [assumption|]. intros p2 E2.
    apply post_bind.
    eapply post_mono; [apply (post_uploadLoop docs (length docs) 0 0 [] p2); lia|].
    intros r p3 (n & es & cs & -> & E3 & I & -> & L & B & Z).
    simpl app. cbv iota beta.
    assert (E : extends p p3 cs es) by eauto using extends_quiet.
    rewrite Nat.sub_0_r in B, Z. simpl in B, Z.
    destruct es as [|m es].
    + apply post_bind, post_log; [reflexivity|]. intros p4 E4.
      apply post_ret. eexists _, [], cs.
      split; [reflexivity|]. split; [eauto using extends_then_quiet|].
      simpl. tauto.
    + apply post_bind, post_log; [reflexivity|]. intros p4 E4.
      apply post_ret. eexists _, (m :: es), cs.
      split; [reflexivity|]. split; [eauto using extends_then_quiet|].
      simpl. tauto.
Qed.


End IngestionProperties.

(** ** The indexing route as a whole *)

Section IndexRoute.

Context {W : Type}.
Variable svc : Services W.
Variable env : Env.
Implicit Types p : Process W.




End IndexRoute.




(** The scenario of three batches with the second one failing: [upload]
    reports the 70 documents of batches 1 and 3 and one error naming
    batch 2; the route reports 70 as well; the script stops. *)
Example upload_second_of_three_fails :
  let '(r, p') := uploadDocumentsToPinecone (refuseEmbedding 1) sampleEnv
                    (sampleDocs 120) (freshProcess 0) in
  r = Ok {| uploadedChunks := 70;
            errors := Some [Js.lit "Failed to upload batch 2: Error: 429 rate limit"] |}
  /\ length (embedInputs (calls p')) = 3.
Proof. vm_compute. split; reflexivity. Qed.

Example route_second_of_three_fails :
  fst (indexPOST (refuseEmbedding 1) sampleEnv (IndexBody false)
         (Loaded [] (sampleSections 120)) (freshProcess 0))
  = Ok (IndexingCompleted {| totalDocuments := 120; totalChunks := 120;
                             totalIndexed := 70; vectorCount := Some 0 |}).
Proof. vm_compute. reflexivity. Qed.

(** With the three variables set but an OpenAI key that does not start
    with "sk-", the route answers 400 and attempts nothing. *)
Example route_refuses_invalid_key :
  let env := {| OPENAI_API_KEY := Some (Js.lit "pk-test");
                PINECONE_API_KEY := Some (Js.lit "pc-test");
                PINECONE_INDEX := Some (Js.lit "legal");
                NODE_ENV := None |} in
  let '(r, p') := indexPOST (refuseEmbedding 1) env (IndexBody false)
                    (Loaded [] (sampleSections 120)) (freshProcess 0) in
  envConfigured env = true
  /\ r = Ok (IndexingInvalid
               [Js.lit "OPENAI_API_KEY appears to be invalid (should start with "
                ++ [34%N] ++ Js.lit "sk-" ++ [34%N] ++ Js.lit ")"])
  /\ calls p' = [].
Proof. vm_compute. repeat split. Qed.

Example script_second_of_three_fails :
  let '(r, p') := indexToPinecone (refuseEmbedding 1) sampleEnv
                    (sampleChunks 120) 50 (freshProcess 0) in
  r = Thrown (mkError (Js.lit "429 rate limit"))
  /\ length (embedInputs (calls p')) = 2.
Proof. vm_compute. split; reflexivity. Qed.

Lemma firstMissing_unconfigured (env : Env) :
  envConfigured env = false -> exists name, firstMissing env = Some name.
Proof.
  unfold envConfigured, firstMissing.
  destruct (isSet (OPENAI_API_KEY env)); simpl; [|eauto].
  destruct (isSet (PINECONE_API_KEY env)); simpl; [|eauto].
  destruct (isSet (PINECONE_INDEX env)); simpl; [discriminate | eauto].
Qed.

(** C10, as stated, fails: the claim is made for every list, but with the
    OpenAI key missing (the Pinecone variables being set, as the upload
    route requires before it calls the function) a list that is not empty
    makes [uploadDocumentsToPinecone] throw the configuration error
    instead of returning a result. *)
Lemma upload_throws_without_openai_key :
  ~ uploadResultShape
      (uploadDocumentsToPinecone emptyIndex pineconeOnlyEnv (sampleDocs 2))
      (sampleDocs 2) (freshProcess tt).
Proof.
  intros (res & p' & E & _).
  vm_compute in E. discriminate E.
Qed.

(** C10, amended. For every list of documents and whatever the services
    answer:
    - for the empty list, in any environment, the result is
      [uploadedChunks = 0] without [errors], no call having been made and
      the world outside left as it was;
    - with the three required variables set, the function returns a
      result: every batch of 50 is sent for embedding, in order;
      [uploadedChunks] is the number of vectors of the upsert calls that
      succeeded, which is at most the number of documents; [errors] holds
      one message per failed call, and is absent exactly when no call of
      the run failed, which is exactly when [uploadedChunks] equals the
      number of documents;
    - with a required variable missing and a list that is not empty, it
      throws the configuration error that names the first missing
      variable, without any call. *)
Theorem upload_result_shape
    (W : Type) (svc : Services W) (env : Env) (p : Process W)
    (docs : list UploadedDoc) :
  (docs = [] ->
   exists p',
     uploadDocumentsToPinecone svc env docs p
     = (Ok {| uploadedChunks := 0; errors := None |}, p')
     /\ calls p' = calls p /\ world p' = world p)
  /\ (envConfigured env = true ->
      exists res p' cs es,
        uploadDocumentsToPinecone svc env docs p = (Ok res, p')
        /\ extends p p' cs es
        /\ embedInputs cs = map (map ud_text) (batchesOf 50 docs)
        /\ uploadedChunks res = upsertedCount cs
        /\ uploadedChunks res <= length docs
        /\ length es = length (failedCalls cs)
        /\ errors res = match es with [] => None | _ :: _ => Some es end
        /\ (errors res = None <-> failedCalls cs = [])
        /\ (errors res = None <-> uploadedChunks res = length docs))
  /\ (envConfigured env = false -> docs <> [] ->
      exists name p',
        firstMissing env = Some name
        /\ uploadDocumentsToPinecone svc env docs p
           = (Thrown (mkConfigurationError (missingVariable name)), p')
        /\ calls p' = calls p /\ world p' = world p).
Proof.
  split; [|split].
  - intros ->. eexists. split; [reflexivity|]. split; reflexivity.
  - intros Hc.
    destruct (proj1 (post_exists _ _ _) (post_uploadDocuments svc env Hc docs p))
      as (r & p' & E & res & es & cs & -> & HX & HI & HU & HL & HE & HB & HZ).
    exists res, p', cs, es.
    assert (Hes : errors res = None <-> es = []).
    { rewrite HE. destruct es; split; intros; congruence. }
    repeat (split; [assumption|]).
    split; [|now rewrite Hes].
    rewrite Hes. destruct es, (failedCalls cs); simpl in HL;
      split; intros; congruence.
  - intros Hc Hd. destruct (firstMissing_unconfigured env Hc) as [name Hm].
    exists name. destruct docs as [|d docs]; [congruence|].
    unfold uploadDocumentsToPinecone, bind at 1 2. unfold log at 1. cbv beta iota.
    rewrite (getPineconeIndex_missing W env _ name Hm).
    eexists. split; [exact Hm|]. split; [reflexivity|]. split; reflexivity.
Qed.

Lemma upload_result_shape_witness :
  exists res p' cs es,
    uploadDocumentsToPinecone (refuseEmbedding 1) sampleEnv (sampleDocs 120)
      (freshProcess 0) = (Ok res, p')
    /\ extends (freshProcess 0) p' cs es
    /\ embedInputs cs = map (map ud_text) (batchesOf 50 (sampleDocs 120))
    /\ uploadedChunks res = upsertedCount cs
    /\ uploadedChunks res <= length (sampleDocs 120)
    /\ length es = length (failedCalls cs)
    /\ errors res = match es with [] => None | _ :: _ => Some es end
    /\ (errors res = None <-> failedCalls cs = [])
    /\ (errors res = None <-> uploadedChunks res = length (sampleDocs 120)).
Proof.
  apply (proj1 (proj2 (upload_result_shape nat (refuseEmbedding 1) sampleEnv
                         (freshProcess 0) (sampleDocs 120)))).
  reflexivity.
Defined.

(** ** Retrieval and answer composition *)

Section RagProperties.

Context {W : Type}.
Variable svc : Services W.
Variable env : Env.
Implicit Types p : Process W.

(** A service call, with what the service answered. *)
Lemma post_callService_answer {A} (c : ExternalCall) (f : W -> (Exn + A) * W) p
    (Q : Result A -> Process W -> Prop) :
  (forall a w p', fst (f w) = inr a ->
                  extends p p' [{| cr_call := c; cr_ok := true |}] [] -> Q (Ok a) p') ->
  (forall e p', extends p p' [{| cr_call := c; cr_ok := false |}] [] -> Q (Thrown e) p') ->
  post (callService c f) p Q.
Proof.
  intros Hok Hko. unfold post, callService.
  destruct (f (world p)) as [[e|a] w'] eqn:E; simpl.
  - apply Hko. split; simpl; [reflexivity | now rewrite app_nil_r].
  - apply (Hok a (world p)); [now rewrite E|].
    split; simpl; [reflexivity | now rewrite app_nil_r].
Qed.

(** The environment is judged without a call, a log line or a change of
    state; it is judged valid only when all three variables are set. *)
Lemma validateEnvironment_pure p :
  exists v, validateEnvironment env p = (Ok v, p)
            /\ (valid v = true -> envConfigured env = true).
Proof.
  unfold validateEnvironment, getEnvConfig, validateEnvVar, envConfigured,
    tryCatch, bind, throw, ret.
  destruct (isSet (OPENAI_API_KEY env)); simpl;
    [|eexists; split; [reflexivity | discriminate]].
  destruct (isSet (PINECONE_API_KEY env)); simpl;
    [|eexists; split; [reflexivity | discriminate]].
  destruct (isSet (PINECONE_INDEX env)); simpl;
    [|eexists; split; [reflexivity | discriminate]].
  eexists; split; [reflexivity | reflexivity].
Qed.

(** Initialising the index asks for its statistics at most once and calls
    nothing else. *)
Lemma post_initLegalIndex p :
  post (initLegalIndex svc env) p
    (fun r p' =>
       exists st cs,
         r = Ok st /\ extends p p' cs []
         /\ (cs = [] \/ exists ok, cs = [{| cr_call := IndexDescribeStats; cr_ok := ok |}])).
Proof.
  unfold initLegalIndex. apply post_bind.
  destruct (pineconeConfigured env).
  - apply post_tryCatch, post_bind.
    destruct (envConfigured env) eqn:Hc.
    + apply post_getPineconeIndex; [assumption|]. intros p1 E1.
      apply post_bind, post_callService.
      * intros stats p2 E2.
        apply post_bind, post_log; [reflexivity|]. intros p3 E3.
        do 2 apply post_ret. eexists _, _. split; [reflexivity|].
        split; [|right; now exists true].
        eauto using extends_quiet, extends_then_quiet.
      * intros e p2 E2.
        apply post_bind, post_log; [reflexivity|]. intros p3 E3.
        do 2 apply post_ret. eexists _, _. split; [reflexivity|].
        split; [|right; now exists false].
        eauto using extends_quiet, extends_then_quiet.
    + destruct (getPineconeIndex_unconfigured env p Hc) as [e E].
      eapply post_of_eq; [exact E|].
      apply post_bind, post_log; [reflexivity|]. intros p3 E3.
      do 2 apply post_ret. eexists _, []. split; [reflexivity|].
      split; [assumption | now left].
  - apply post_bind, post_log; [reflexivity|]. intros p3 E3.
    do 2 apply post_ret. eexists _, []. split; [reflexivity|].
    split; [assumption | now left].
Qed.

Lemma zeroMatches_noUsable : zeroMatches svc -> noUsableMatches svc.
Proof.
  intros H vector topK w. specialize (H vector topK w).
  destruct (fst (index_query svc vector topK w)) as [e|[[|m ms]|]];
    [exact I | reflexivity | contradiction | exact I].
Qed.

Lemma filter_none {A B} (f : B -> bool) (g : A -> B) (l : list A) :
  forallb (fun x => negb (f (g x))) l = true -> filter f (map g l) = [].
Proof.
  induction l as [|x l IH]; simpl; [reflexivity|].
  intros H. apply andb_prop in H as [Hx Hl].
  destruct (f (g x)); [discriminate | now apply IH].
Qed.

(** Retrieval never throws; with an index that has no usable match for
    any query it yields no document. *)
Lemma post_retrieveWithPinecone (question : Js.str) (limit : nat) p :
  post (retrieveWithPinecone svc env question limit) p
    (fun r p' => exists docs, r = Ok docs /\ (noUsableMatches svc -> docs = [])).
Proof.
  unfold retrieveWithPinecone.
  apply post_bind, post_log; [reflexivity|]. intros p1 _.
  apply post_tryCatch, post_bind.
  destruct (isSet (OPENAI_API_KEY env)) eqn:Hk.
  - apply post_embedTexts; [discriminate | assumption |].
    intros [[|queryEmbedding rest]|e|] p2 ok _ Hr; [| | |contradiction].
    + apply post_bind, post_log; [reflexivity|]. intros p3 _.
      apply post_ret. now exists [].
    + apply post_bind.
      destruct (envConfigured env) eqn:Hc.
      * apply post_getPineconeIndex; [assumption|]. intros p3 _.
        apply post_bind, post_callService_answer.
        -- intros response w p4 Hw _.
           apply post_bind, post_log; [reflexivity|]. intros p5 _.
           destruct response as [[|m ms]|].
           ++ apply post_bind, post_log; [reflexivity|]. intros p6 _.
              apply post_ret. now exists [].
           ++ apply post_bind, post_log; [reflexivity|]. intros p6 _.
              apply post_ret. eexists. split; [reflexivity|].
              intros Hz. specialize (Hz queryEmbedding limit w).
              rewrite Hw in Hz. now apply filter_none.
           ++ apply post_bind, post_log; [reflexivity|]. intros p6 _.
              apply post_ret. now exists [].
        -- intros e p4 _.
           apply post_bind, post_log; [reflexivity|]. intros p5 _.
           apply post_ret. now exists [].
      * destruct (getPineconeIndex_unconfigured env p2 Hc) as [e E].
        eapply post_of_eq; [exact E|].
        apply post_bind, post_log; [reflexivity|]. intros p5 _.
        apply post_ret. now exists [].
    + apply post_bind, post_log; [reflexivity|]. intros p5 _.
      apply post_ret. now exists [].
  - (* no API key: the client cannot be made, the error is caught *)
    unfold embedTexts.
    apply post_bind, post_log; [reflexivity|]. intros p2 _.
    apply post_tryCatch, post_bind.
    unfold getOpenAIClient. apply post_bind, post_get.
    destruct (openaiClient p2).
    + apply post_ret, post_bind, post_callService_answer.
      * intros data w p3 _ _.
        apply post_bind, post_log; [reflexivity|]. intros p4 _.
        apply post_ret.
        destruct data as [|queryEmbedding rest].
        -- apply post_bind, post_log; [reflexivity|]. intros p5 _.
           apply post_ret. now exists [].
        -- apply post_bind.
           destruct (envConfigured env) eqn:Hc.
           { unfold envConfigured in Hc. rewrite Hk in Hc. discriminate. }
           destruct (getPineconeIndex_unconfigured env p4 Hc) as [e E].
           eapply post_of_eq; [exact E|].
           apply post_bind, post_log; [reflexivity|]. intros p5 _.
           apply post_ret. now exists [].
      * intros e p3 _.
        apply post_bind, post_log; [reflexivity|]. intros p4 _.
        apply post_throw.
        apply post_bind, post_log; [reflexivity|]. intros p5 _.
        apply post_ret. now exists [].
    + rewrite Hk. simpl.
      apply post_bind, post_log; [reflexivity|]. intros p3 _.
      apply post_throw.
      apply post_bind, post_log; [reflexivity|]. intros p4 _.
      apply post_throw.
      apply post_bind, post_log; [reflexivity|]. intros p5 _.
      apply post_ret. now exists [].
Qed.

End RagProperties.

(** C6. For every question that is not blank, in an environment where the
    vector index is configured: if the index has zero matches for every
    query, or none of its matches has a text, or more generally if
    retrieval yields no document, then [answerLegalQuestion] does not
    throw; it returns the fixed answer saying that it could not find any
    matching sections, with an empty list of sources. *)
Theorem no_documents_fixed_answer
    (W : Type) (svc : Services W) (env : Env) (p : Process W) (q : Js.str) :
  Js.trim q <> [] ->
  pineconeConfigured env = true ->
  zeroMatches svc
  \/ noUsableMatches svc
  \/ (exists p1 p2,
         log (Js.lit "RAG") INFO (Js.lit "Processing legal question") p = (Ok tt, p1)
         /\ retrieveWithPinecone svc env (Js.trim q) 8 p1 = (Ok [], p2)) ->
  exists p',
    answerLegalQuestion svc env q p
    = (Ok {| answer := noMatchAnswer; sources := [] |}, p')
    /\ Js.includes noMatchAnswer (Js.lit "could not find") = true.
Proof.
  intros Hq Hcfg Hnone.
  assert (Ht : Js.truthy (Js.trim q) = true).
  { destruct (Js.trim q) eqn:E; [congruence | reflexivity]. }
  assert (Hnone' : noUsableMatches svc
                   \/ (exists p1 p2,
                          log (Js.lit "RAG") INFO
                            (Js.lit "Processing legal question") p = (Ok tt, p1)
                          /\ retrieveWithPinecone svc env (Js.trim q) 8 p1
                             = (Ok [], p2))).
  { destruct Hnone as [Hz | [Hu | Hr]]; auto using zeroMatches_noUsable. }
  clear Hnone.
  assert (H : post (answerLegalQuestion svc env q) p
                (fun r _ => r = Ok {| answer := noMatchAnswer; sources := [] |})).
  { unfold answerLegalQuestion. rewrite Ht, Hcfg. simpl negb. cbv iota.
    destruct Hnone' as [Hz | (p1 & p2 & E1 & E2)].
    - apply post_bind, post_log; [reflexivity|]. intros p1 _.
      apply post_bind.
      eapply post_mono; [apply post_retrieveWithPinecone|].
      intros r p2 (docs & -> & Hdocs). rewrite (Hdocs Hz).
      apply post_bind, post_log; [reflexivity|]. intros p3 _.
      now apply post_ret.
    - apply post_bind. eapply post_of_eq; [exact E1|].
      apply post_bind. eapply post_of_eq; [exact E2|].
      apply post_bind, post_log; [reflexivity|]. intros p3 _.
      now apply post_ret. }
  apply post_exists in H as (r & p' & E & ->).
  exists p'. split; [assumption | vm_compute; reflexivity].
Qed.

Lemma no_documents_fixed_answer_witness :
  exists p',
    answerLegalQuestion emptyIndex sampleEnv (Js.lit "what is theft")
      (freshProcess tt)
    = (Ok {| answer := noMatchAnswer; sources := [] |}, p')
    /\ Js.includes noMatchAnswer (Js.lit "could not find") = true.
Proof.
  apply (no_documents_fixed_answer unit emptyIndex sampleEnv (freshProcess tt)
           (Js.lit "what is theft")).
  - vm_compute. discriminate.
  - reflexivity.
  - left. intros vector topK w. exact I.
Defined.

(** The specification's scenario, run: an index without matches, the
    question "what is theft". *)
Example what_is_theft_no_matches :
  fst (answerLegalQuestion emptyIndex sampleEnv (Js.lit "what is theft")
         (freshProcess tt))
  = Ok {| answer := noMatchAnswer; sources := [] |}.
Proof. vm_compute. reflexivity. Qed.

(** ** The context block *)

Lemma join_middle (sep : Js.str) (pre post : list Js.str) (x : Js.str) :
  exists a b, Js.join sep (pre ++ x :: post) = a ++ x ++ b.
Proof.
  induction pre as [|y pre IH].
  - destruct post as [|z post].
    + exists [], []. simpl. now rewrite app_nil_r.
    + exists [], (sep ++ Js.join sep (z :: post)). reflexivity.
  - destruct IH as (a & b & E).
    exists (y ++ sep ++ a), b.
    change ((y :: pre) ++ x :: post) with (y :: (pre ++ x :: post)).
    destruct (pre ++ x :: post) as [|z rest] eqn:El.
    + destruct pre; discriminate.
    + change (Js.join sep (y :: z :: rest)) with (y ++ sep ++ Js.join sep (z :: rest)).
      rewrite E. now rewrite <- !app_assoc.
Qed.

(** C7, as stated, fails: the context assembled for the document of the
    example does not contain "IPC - Section 378: Theft". *)
Lemma context_header_has_no_colon :
  Js.includes (buildContext [theftDoc]) (Js.lit "IPC - Section 378: Theft") = false.
Proof. vm_compute. reflexivity. Qed.

(** C7, amended. The header of the example document is
    "IPC - Section 378 - Theft" (the parts joined with " - "); whatever
    other documents were retrieved before or after it, the context
    contains that header, then an empty line (two line feeds), then the
    document's text. *)
Theorem context_contains_header_then_text (before after : list IndexedDoc) :
  headerParts theftDoc = Js.lit "IPC - Section 378 - Theft"
  /\ exists a b,
       buildContext (before ++ theftDoc :: after)
       = a ++ (Js.lit "IPC - Section 378 - Theft" ++ [10; 10]%N
               ++ Js.lit "Whoever, intending to take dishonestly...") ++ b.
Proof.
  split; [reflexivity|].
  unfold buildContext. rewrite map_app. simpl map.
  apply join_middle.
Qed.

(** ** Blank questions *)

Lemma blank_is_refused (q : Js.str) :
  Js.trim q = [] ->
  negb (Js.truthy q) || negb (Js.truthy (Js.trim q)) = true.
Proof. intros ->. apply orb_true_r. Qed.

(** The chat route on a blank question: whatever the state of the
    process, it answers 400 or 500 and calls nothing but, at most once,
    the index statistics; once initialised it answers 400 and calls
    nothing. *)
Lemma post_chatPOST_blank
    (W : Type) (svc : Services W) (env : Env) (p : Process W) (q : Js.str) :
  Js.trim q = [] ->
  post (chatPOST svc env (Body (QString q))) p
    (fun r p' =>
       exists resp cs,
         r = Ok resp /\ extends p p' cs []
         /\ (cs = [] \/ exists ok, cs = [{| cr_call := IndexDescribeStats; cr_ok := ok |}])
         /\ (status resp = 400 \/ status resp = 500)
         /\ (initialized p = true ->
             cs = [] /\ resp = {| status := 400;
                                  body := ErrorBody (Js.lit "Question is required.") None |})).
Proof.
  intros Hq. unfold chatPOST.
  apply post_bind, post_log_flag; [reflexivity|]. intros p0 E0 I0.
  apply post_tryCatch, post_bind.
  unfold ensureInitialized. apply post_bind, post_get. rewrite I0.
  destruct (initialized p) eqn:Hi.
  - apply post_ret, post_bind, post_ret. cbv beta iota zeta.
    rewrite (blank_is_refused q Hq).
    apply post_bind, post_log; [reflexivity|]. intros p1 E1.
    apply post_ret. eexists _, []. split; [reflexivity|].
    split; [eauto using extends_quiet|].
    split; [now left|]. split; [now left|]. intros _. now split.
  - apply post_bind, post_log; [reflexivity|]. intros p1 E1.
    apply post_bind.
    destruct (validateEnvironment_pure env p1) as (v & Ev & Hv).
    eapply post_of_eq; [exact Ev|]. cbv beta iota.
    destruct (valid v) eqn:Hvalid; cbn [negb].
    + apply post_bind.
      eapply post_mono; [apply post_initLegalIndex|].
      intros r p2 (st & cs & -> & E2 & Hcs).
      apply post_bind, post_log; [reflexivity|]. intros p3 E3.
      apply post_setInitialized. intros p4 E4 _.
      apply post_bind, post_ret. cbv beta iota zeta.
      rewrite (blank_is_refused q Hq).
      apply post_bind, post_log; [reflexivity|]. intros p5 E5.
      apply post_ret. eexists _, cs. split; [reflexivity|].
      split.
      { pose proof (extends_quiet _ _ _ _ _ E0 E1) as Ea.
        pose proof (extends_quiet _ _ _ _ _ Ea E2) as Eb.
        pose proof (extends_then_quiet _ _ _ _ _ Eb E3) as Ec.
        pose proof (extends_then_quiet _ _ _ _ _ Ec E4) as Ed.
        exact (extends_then_quiet _ _ _ _ _ Ed E5). }
      split; [assumption|]. split; [now left | discriminate].
    + apply post_bind, post_log; [reflexivity|]. intros p2 E2.
      apply post_throw.
      apply post_bind, post_log; [reflexivity|]. intros p3 E3.
      apply post_ret. eexists _, []. split; [reflexivity|].
      split; [eauto using extends_quiet|].
      split; [now left|]. split; [now right | discriminate].
Qed.

(** C3, as stated, fails on the chat route: the first request of a process
    (here with a valid environment and a working index) initialises the
    service before the question is looked at, and that asks the index for
    its statistics; the blank question is then refused with one external
    call made. *)
Lemma blank_first_request_calls_index_stats :
  ~ refusedWithoutCalls (chatPOST emptyIndex sampleEnv (Body (QString (Js.lit "   "))))
      (freshProcess tt).
Proof.
  intros (details & p' & E & C).
  vm_compute in E. injection E as _ <-. discriminate C.
Qed.

(** C3, amended. For every question that is empty or blank:
    - [answerLegalQuestion] throws the error "Question cannot be empty."
      and makes no external call (the calls made and the world outside
      are as before);
    - the chat route, once the process is initialised, answers status 400
      with the error "Question is required." and makes no external call;
    - on any request the chat route answers 400 or 500 for such a
      question and makes no embedding, query or completion call: the only
      call it can make is the one statistics request of the one-time
      initialisation, which runs before the question is looked at. *)
Theorem blank_question_rejected
    (W : Type) (svc : Services W) (env : Env) (p : Process W) (q : Js.str) :
  Js.trim q = [] ->
  (exists p',
      answerLegalQuestion svc env q p
      = (Thrown (mkError (Js.lit "Question cannot be empty.")), p')
      /\ calls p' = calls p /\ world p' = world p)
  /\ (initialized p = true ->
      refusedWithoutCalls (chatPOST svc env (Body (QString q))) p)
  /\ (exists resp p' cs,
         chatPOST svc env (Body (QString q)) p = (Ok resp, p')
         /\ calls p' = calls p ++ cs
         /\ (cs = [] \/ exists ok, cs = [{| cr_call := IndexDescribeStats; cr_ok := ok |}])
         /\ (status resp = 400 \/ status resp = 500)).
Proof.
  intros Hq.
  pose proof (post_chatPOST_blank W svc env p q Hq) as H.
  apply post_exists in H
    as (r & p' & E & resp & cs & -> & [C _] & Hcs & Hst & Hinit).
  split; [|split].
  - unfold answerLegalQuestion. rewrite Hq. simpl.
    eexists. split; [reflexivity|]. split; reflexivity.
  - intros Hi. destruct (Hinit Hi) as [-> ->].
    exists None, p'. split; [assumption|]. now rewrite C, app_nil_r.
  - exists resp, p', cs. auto.
Qed.

Lemma blank_question_rejected_witness :
  (exists p',
      answerLegalQuestion emptyIndex sampleEnv (Js.lit "   ") (freshProcess tt)
      = (Thrown (mkError (Js.lit "Question cannot be empty.")), p')
      /\ calls p' = calls (freshProcess tt) /\ world p' = world (freshProcess tt))
  /\ (initialized (freshProcess tt) = true ->
      refusedWithoutCalls (chatPOST emptyIndex sampleEnv (Body (QString (Js.lit "   "))))
        (freshProcess tt))
  /\ (exists resp p' cs,
         chatPOST emptyIndex sampleEnv (Body (QString (Js.lit "   "))) (freshProcess tt)
         = (Ok resp, p')
         /\ calls p' = calls (freshProcess tt) ++ cs
         /\ (cs = [] \/ exists ok, cs = [{| cr_call := IndexDescribeStats; cr_ok := ok |}])
         /\ (status resp = 400 \/ status resp = 500)).
Proof.
  apply (blank_question_rejected unit emptyIndex sampleEnv (freshProcess tt)
           (Js.lit "   ")).
  reflexivity.
Defined.

(** ** The response formatter *)

(** The formatter on the specification's first example. *)
Example parse_heading_paragraph_list :
  parseAssistantContent
    (Js.lit "### Heading" ++ [10%N] ++ Js.lit "Some para." ++ [10%N]
     ++ Js.lit "- item one" ++ [10%N] ++ Js.lit "- item two")
  = [Heading (Js.lit "Heading"); Paragraph (Js.lit "Some para.");
     ListBlock [Js.lit "item one"; Js.lit "item two"]].
Proof. vm_compute. reflexivity. Qed.

(** C8 (the code departs from it). For the input "**bold** and *italic*"
    the formatter yields one paragraph block whose text still carries the
    emphasis markers: paragraphs are pushed without [stripEmphasis],
    although [stripEmphasis] turns that very text into "bold and italic"
    and the formatter applies it to the same line as a heading or as a
    list item. *)
Theorem paragraph_keeps_emphasis_markers :
  parseAssistantContent (Js.lit "**bold** and *italic*")
  = [Paragraph (Js.lit "**bold** and *italic*")]
  /\ stripEmphasis (Js.lit "**bold** and *italic*") = Js.lit "bold and italic"
  /\ parseAssistantContent (Js.lit "# **bold** and *italic*")
     = [Heading (Js.lit "bold and italic")]
  /\ parseAssistantContent (Js.lit "- **bold** and *italic*")
     = [ListBlock [Js.lit "bold and italic"]].
Proof. repeat split; vm_compute; reflexivity. Qed.

(* ================================================================== *)
(** * Further properties of the sources *)
(* ================================================================== *)

(** ** The fixed-window chunker on short and blank texts *)

Lemma chunkText_loop_done (fuel : nat) (text : Js.str) (maxChars start : nat)
    (chunks : list Js.str) :
  length text <= start ->
  chunkText_loop fuel text maxChars start chunks = Some chunks.
Proof.
  intros H. destruct fuel; simpl;
    destruct (Nat.ltb_spec start (length text)); (lia || reflexivity).
Qed.

(** X1. A text that fits in one window is not cut: [chunkText] returns
    its trimmed form as the only chunk, or no chunk at all when the text
    is blank. *)
Theorem chunkText_short_text (T : Js.str) (M : nat) :
  length T <= M ->
  chunkText T M = Some (if Js.truthy (Js.trim T) then [Js.trim T] else []).
Proof.
  intros H. unfold chunkText. destruct T as [|c T]; [reflexivity|].
  cbn [chunkText_loop length]. cbn [Nat.ltb Nat.leb].
  replace (Nat.min (0 + M) (S (length T))) with (length (c :: T))
    by (simpl in *; lia).
  unfold Js.slice. rewrite Nat.sub_0_r. cbn [skipn]. rewrite firstn_all.
  apply chunkText_loop_done. reflexivity.
Qed.

Lemma chunkText_short_text_witness :
  chunkText (Js.lit "  theft  ") 1500
  = Some (if Js.truthy (Js.trim (Js.lit "  theft  "))
          then [Js.trim (Js.lit "  theft  ")] else []).
Proof.
  apply (chunkText_short_text (Js.lit "  theft  ") 1500). vm_compute. lia.
Defined.

(** X2. A text made of whitespace only gives no chunk, whatever its
    length and the window. *)
Theorem chunkText_blank_text (T : Js.str) (M : nat) :
  0 < M -> Js.nonWhite T = [] -> chunkText T M = Some [].
Proof.
  intros HM Hblank.
  destruct (chunkText_loop_total T M HM (length T) 0 []) as (out & E & [_ Ht Hc]).
  - lia.
  - apply chunk_inv_init.
  - unfold chunkText. rewrite E. f_equal.
    destruct out as [|c out]; [reflexivity|]. exfalso.
    rewrite firstn_all, Hblank in Hc. simpl in Hc.
    rewrite nonWhite_app in Hc. apply app_eq_nil in Hc as [Hc0 _].
    inversion Ht as [|? ? Hne _]; subst. apply Hne.
    now apply trim_nil_iff_nonWhite.
Qed.

Lemma chunkText_blank_text_witness :
  chunkText (repeat 32%N 40 ++ [10%N; 9%N]) 16 = Some [].
Proof.
  apply (chunkText_blank_text (repeat 32%N 40 ++ [10%N; 9%N]) 16).
  - lia.
  - reflexivity.
Defined.

(** ** Numbers in identifiers *)

Lemma to_uint_nonnil (n : nat) : Nat.to_uint n <> Nil.
Proof.
  rewrite <- (Unsigned.of_to n) at 1. rewrite Unsigned.to_of.
  apply unorm_nonnil.
Qed.

Lemma lit_inj (a b : string) : Js.lit a = Js.lit b -> a = b.
Proof.
  unfold Js.lit. intros H.
  rewrite <- (string_of_list_ascii_of_string a),
          <- (string_of_list_ascii_of_string b).
  f_equal. revert H.
  generalize (list_ascii_of_string a) (list_ascii_of_string b).
  induction l as [|x l IH]; intros [|y l'] H; simpl in H; try discriminate.
  - reflexivity.
  - injection H as Hxy Hl. f_equal; [|now apply IH].
    rewrite <- (ascii_N_embedding x), <- (ascii_N_embedding y). now f_equal.
Qed.

(** Two numbers are printed alike only when they are equal. *)
Lemma of_nat_inj (n m : nat) : Js.of_nat n = Js.of_nat m -> n = m.
Proof.
  unfold Js.of_nat. intros H. apply lit_inj in H.
  apply Unsigned.to_uint_inj.
  assert (E : Some (Nat.to_uint n) = Some (Nat.to_uint m)).
  { rewrite <- (NilZero.usu (Nat.to_uint n) (to_uint_nonnil n)),
            <- (NilZero.usu (Nat.to_uint m) (to_uint_nonnil m)).
    now rewrite H. }
  now injection E.
Qed.

(** ** Documents made from an uploaded file *)

Lemma chunkText_facts (T : Js.str) (M : nat) :
  0 < M ->
  exists chunks,
    chunkText T M = Some chunks
    /\ Forall (fun c => length c <= M) chunks
    /\ Forall (fun c => Js.trim c <> []) chunks
    /\ Js.nonWhite (concat chunks) = Js.nonWhite T.
Proof.
  intros HM.
  destruct (chunkText_loop_total T M HM (length T) 0 []) as (out & Hout & [Hb Ht Hc]).
  - lia.
  - apply chunk_inv_init.
  - exists out. repeat split; try assumption.
    now rewrite Hc, firstn_all.
Qed.

Lemma trimStart_fixed (s : Js.str) :
  Js.trimStart s = s ->
  s = [] \/ exists c r, s = c :: r /\ Js.isWhiteSpace c = false.
Proof.
  destruct s as [|c r]; [now left|]. simpl.
  destruct (Js.isWhiteSpace c) eqn:E; [|right; eauto].
  intros H. pose proof (trimStart_length r) as L. rewrite H in L. simpl in L. lia.
Qed.

Lemma trimEnd_fixed_cons (c : Js.char) (r : Js.str) :
  Js.trimEnd (c :: r) = c :: r ->
  (r = [] /\ Js.isWhiteSpace c = false) \/ (r <> [] /\ Js.trimEnd r = r).
Proof.
  simpl. destruct (Js.trimEnd r) as [|c' r'] eqn:E.
  - destruct (Js.isWhiteSpace c); [discriminate|].
    intros H. injection H as <-. now left.
  - intros H. injection H as <-. right. split; [discriminate | reflexivity].
Qed.

Lemma replaceWhitespaceRuns_after_black (before rest : Js.str) (inRun : bool) :
  before <> [] -> Js.trimEnd before = before ->
  replaceWhitespaceRuns inRun (before ++ rest)
  = replaceWhitespaceRuns inRun before ++ replaceWhitespaceRuns false rest.
Proof.
  revert inRun. induction before as [|c r IH]; intros inRun Hne Ht; [congruence|].
  destruct (trimEnd_fixed_cons c r Ht) as [[-> Hc] | [Hr Hr']].
  - simpl. now rewrite Hc.
  - simpl. destruct (Js.isWhiteSpace c); [destruct inRun|];
      simpl; now rewrite IH.
Qed.

Lemma replaceWhitespaceRuns_in_run (run rest : Js.str) :
  Forall (fun c => Js.isWhiteSpace c = true) run ->
  replaceWhitespaceRuns true (run ++ rest) = replaceWhitespaceRuns true rest.
Proof.
  induction 1 as [|c run Hc _ IH]; [reflexivity|]. simpl. now rewrite Hc.
Qed.

Lemma replaceWhitespaceRuns_run (run rest : Js.str) :
  run <> [] -> Forall (fun c => Js.isWhiteSpace c = true) run ->
  Js.trimStart rest = rest ->
  replaceWhitespaceRuns false (run ++ rest)
  = 95%N :: replaceWhitespaceRuns false rest.
Proof.
  intros Hne Hrun Hrest. destruct Hrun as [|c run Hc Hrun]; [congruence|].
  simpl. rewrite Hc, replaceWhitespaceRuns_in_run by assumption. f_equal.
  destruct (trimStart_fixed rest Hrest) as [-> | (c' & r' & -> & Hc')];
    [reflexivity|]. simpl. now rewrite Hc'.
Qed.

(** X3. The identifier prefix made from a file name holds no whitespace
    and is never longer than the name; a name without whitespace is kept
    as it is; and every maximal run of whitespace of the name has become
    one underscore: wherever the name is cut as [before ++ run ++ after]
    with [run] a non-empty run of whitespace that [before] does not end
    with and [after] does not begin with, the prefix is the prefix of
    [before], one underscore, and the prefix of [after]. *)
Theorem sanitized_name_has_no_whitespace (fileName : Js.str) :
  Js.nonWhite (replaceWhitespaceRuns false fileName)
  = replaceWhitespaceRuns false fileName
  /\ length (replaceWhitespaceRuns false fileName) <= length fileName
  /\ (Js.nonWhite fileName = fileName ->
      replaceWhitespaceRuns false fileName = fileName)
  /\ (forall before run after,
         fileName = before ++ run ++ after ->
         run <> [] -> Forall (fun c => Js.isWhiteSpace c = true) run ->
         Js.trimEnd before = before -> Js.trimStart after = after ->
         replaceWhitespaceRuns false fileName
         = replaceWhitespaceRuns false before ++ [95%N]
           ++ replaceWhitespaceRuns false after).
Proof.
  split; [|split; [|split]].
  - generalize false. induction fileName as [|c r IH]; intros b; simpl;
      [reflexivity|].
    destruct (Js.isWhiteSpace c) eqn:E.
    + destruct b; [apply IH|].
      change (Js.nonWhite (95%N :: replaceWhitespaceRuns true r))
        with (95%N :: Js.nonWhite (replaceWhitespaceRuns true r)).
      f_equal. apply IH.
    + simpl. rewrite E. simpl. f_equal. apply IH.
  - generalize false. induction fileName as [|c r IH]; intros b; simpl; [lia|].
    destruct (Js.isWhiteSpace c).
    + destruct b; simpl; specialize (IH true); lia.
    + simpl. specialize (IH false). lia.
  - generalize false. induction fileName as [|c r IH]; intros b H; simpl;
      [reflexivity|].
    simpl in H. destruct (Js.isWhiteSpace c) eqn:E; simpl in H.
    + exfalso.
      assert (L : length (Js.nonWhite r) <= length r) by apply filter_length_le.
      rewrite H in L. simpl in L. lia.
    + injection H as H. f_equal. now apply IH.
  - intros before run after -> Hne Hrun Hb Ha.
    destruct before as [|c r].
    + simpl app. now apply replaceWhitespaceRuns_run.
    + rewrite replaceWhitespaceRuns_after_black by (assumption || discriminate).
      f_equal. now apply replaceWhitespaceRuns_run.
Qed.

(** A name with a run of two spaces and a tab between its words. *)
Example sanitized_name_example :
  replaceWhitespaceRuns false (Js.lit "my  legal" ++ [9%N] ++ Js.lit "file.txt")
  = Js.lit "my_legal_file.txt".
Proof. vm_compute. reflexivity. Qed.

Lemma mapFrom_nth_error {A B} (f : nat -> A -> B) (i : nat) (l : list A) (k : nat) :
  nth_error (mapFrom f i l) k = option_map (f (i + k)) (nth_error l k).
Proof.
  revert i k. induction l as [|x l IH]; intros i [|k]; simpl; try reflexivity.
  - now rewrite Nat.add_0_r.
  - rewrite IH. now rewrite Nat.add_succ_r.
Qed.

Lemma mapFrom_map_seq {A B C} (f : nat -> A -> B) (g : B -> C) (h : nat -> C)
    (i : nat) (l : list A) :
  (forall k x, g (f k x) = h k) ->
  map g (mapFrom f i l) = map h (seq i (length l)).
Proof.
  intros H. revert i. induction l as [|x l IH]; intros i; simpl; [reflexivity|].
  now rewrite H, IH.
Qed.

Lemma mapFrom_texts {A B} (f : nat -> A -> B) (g : B -> A) (i : nat) (l : list A) :
  (forall k x, g (f k x) = x) -> map g (mapFrom f i l) = l.
Proof.
  intros H. revert i. induction l as [|x l IH]; intros i; simpl; [reflexivity|].
  now rewrite H, IH.
Qed.

Lemma numbered_ids_distinct (prefix : Js.str) (shift i n : nat) :
  NoDup (map (fun k => prefix ++ Js.of_nat (k + shift)) (seq i n)).
Proof.
  apply Injective_map_NoDup; [|apply seq_NoDup].
  intros a b H. apply app_inv_head in H. apply of_nat_inj in H. lia.
Qed.

(** X4. [chunkFileText] always returns.  The texts of its documents are
    the chunks of the file's text: none is empty, none is longer than
    1500, and together they hold the non-whitespace characters of the
    file in order.  The identifiers are pairwise distinct; the document
    at position [k] (from 0) has the identifier ending in
    [_chunk_(k+1)], [chunkIndex = k + 1] and [totalChunks] equal to the
    number of documents. *)
Theorem chunkFileText_documents (now : nat) (uploadedAt : nat -> Js.str)
    (fileName rawText : Js.str) :
  exists docs,
    chunkFileText now uploadedAt fileName rawText = Some docs
    /\ chunkText rawText 1500 = Some (map ud_text docs)
    /\ Forall (fun d => 0 < length (ud_text d) <= 1500) docs
    /\ Js.nonWhite (concat (map ud_text docs)) = Js.nonWhite rawText
    /\ NoDup (map ud_id docs)
    /\ (forall k d,
           nth_error docs k = Some d ->
           ud_id d = (Js.of_nat now ++ Js.lit "_"
                      ++ replaceWhitespaceRuns false fileName)
                     ++ Js.lit "_chunk_" ++ Js.of_nat (k + 1)
           /\ (exists m, ud_metadata d = Some m
                         /\ getField (Js.lit "chunkIndex") m = Some (MNum (k + 1))
                         /\ getField (Js.lit "totalChunks") m
                            = Some (MNum (length docs))
                         /\ getField (Js.lit "fileName") m = Some (MStr fileName))).
Proof.
  destruct (chunkText_facts rawText 1500) as (chunks & E & Hb & Ht & Hc); [lia|].
  unfold chunkFileText, chunkText_default. rewrite E.
  set (baseId := Js.of_nat now ++ Js.lit "_" ++ replaceWhitespaceRuns false fileName).
  set (docs := mapFrom (fileDoc baseId fileName uploadedAt (length chunks)) 0 chunks).
  assert (Htexts : map ud_text docs = chunks)
    by (apply mapFrom_texts; reflexivity).
  exists docs. split; [reflexivity|].
  split; [now rewrite Htexts|].
  split.
  { apply Forall_forall. intros d Hd.
    assert (Hin : In (ud_text d) chunks) by (rewrite <- Htexts; now apply in_map).
    rewrite Forall_forall in Hb, Ht. split; [|now apply Hb].
    specialize (Ht _ Hin). destruct (ud_text d); [|simpl; lia].
    exfalso. now apply Ht. }
  split; [now rewrite Htexts|].
  split.
  { unfold docs.
    rewrite (mapFrom_map_seq _ ud_id
               (fun k => (baseId ++ Js.lit "_chunk_") ++ Js.of_nat (k + 1))).
    - apply numbered_ids_distinct.
    - intros k x. simpl. now rewrite <- app_assoc. }
  intros k d Hk. unfold docs in Hk. rewrite mapFrom_nth_error in Hk.
  destruct (nth_error chunks k) as [chunk|]; [|discriminate].
  simpl in Hk. injection Hk as <-. split; [reflexivity|].
  eexists. split; [reflexivity|].
  unfold docs. rewrite mapFrom_length. repeat split.
Qed.

(** ** The word-aware chunker: identifiers and content *)

Lemma mapFrom_snoc {A B} (f : nat -> A -> B) (i : nat) (l : list A) (x : A) :
  mapFrom f i (l ++ [x]) = mapFrom f i l ++ [f (i + length l) x].
Proof.
  revert i. induction l as [|y l IH]; intros i; simpl.
  - now rewrite Nat.add_0_r.
  - rewrite IH. now rewrite Nat.add_succ_r.
Qed.

Lemma wordStep_numbering (s : LegalSection) (chunkSize : nat) (base : list Chunk)
    (st : WordLoop) (w : Js.str) (texts : list Js.str) :
  wl_chunks st = base ++ mapFrom (partChunk s) 0 texts ->
  wl_chunkIndex st = length texts ->
  exists texts',
    wl_chunks (wordStep s chunkSize st w) = base ++ mapFrom (partChunk s) 0 texts'
    /\ wl_chunkIndex (wordStep s chunkSize st w) = length texts'.
Proof.
  intros Hc Hi. unfold wordStep.
  destruct ((chunkSize <? _) && _).
  - exists (texts ++ [Js.trim (wl_currentChunk st)]). simpl.
    rewrite Hc, Hi, mapFrom_snoc, <- app_assoc, length_app. simpl.
    split; [reflexivity | lia].
  - exists texts. now split.
Qed.

Lemma wordLoop_numbering (s : LegalSection) (chunkSize : nat) (base : list Chunk)
    (ws : list Js.str) (st : WordLoop) (texts : list Js.str) :
  wl_chunks st = base ++ mapFrom (partChunk s) 0 texts ->
  wl_chunkIndex st = length texts ->
  exists texts',
    wl_chunks (fold_left (wordStep s chunkSize) ws st)
    = base ++ mapFrom (partChunk s) 0 texts'
    /\ wl_chunkIndex (fold_left (wordStep s chunkSize) ws st) = length texts'.
Proof.
  revert st texts. induction ws as [|w ws IH]; intros st texts Hc Hi; simpl.
  - now exists texts.
  - destruct (wordStep_numbering s chunkSize base st w texts Hc Hi)
      as (texts1 & Hc1 & Hi1).
    exact (IH _ _ Hc1 Hi1).
Qed.

(** X5. What one section adds to the chunk list, for the route and the
    script alike: the chunks already there are left as they are; a text
    that fits gives one chunk with the section's own identifier and no
    ordinal; a longer text gives chunks numbered 0, 1, 2, ... in order,
    chunk [k] having the identifier [<section id>_chunk_<k>] and
    [chunkIndex = k].  The identifiers of one section's chunks are
    pairwise distinct. *)
Theorem chunkSection_numbering (s : LegalSection) (fullText : Js.str)
    (chunkSize : nat) (chunks : list Chunk) :
  exists new,
    chunkSection s fullText chunkSize chunks = chunks ++ new
    /\ NoDup (map ch_id new)
    /\ ((length fullText <= chunkSize /\ new = [wholeChunk s fullText])
        \/ (chunkSize < length fullText
            /\ exists texts, new = mapFrom (partChunk s) 0 texts)).
Proof.
  unfold chunkSection.
  destruct (Nat.leb_spec (length fullText) chunkSize) as [Hle|Hgt].
  - exists [wholeChunk s fullText]. split; [reflexivity|].
    split; [|left; now split].
    simpl. constructor; [intros [] | constructor].
  - destruct (wordLoop_numbering s chunkSize chunks (Js.splitSpace fullText)
                {| wl_chunks := chunks; wl_currentChunk := []; wl_chunkIndex := 0 |}
                []) as (texts & Hc & Hi).
    { simpl. now rewrite app_nil_r. }
    { reflexivity. }
    unfold wordFlush.
    set (final := fold_left (wordStep s chunkSize) (Js.splitSpace fullText) _) in *.
    assert (Hids : forall l, NoDup (map ch_id (mapFrom (partChunk s) 0 l))).
    { intros l.
      rewrite (mapFrom_map_seq _ ch_id
                 (fun k => (ls_id s ++ Js.lit "_chunk_") ++ Js.of_nat (k + 0))).
      - apply numbered_ids_distinct.
      - intros k x. simpl. now rewrite Nat.add_0_r, <- app_assoc. }
    destruct (Js.truthy (Js.trim (wl_currentChunk final))).
    + exists (mapFrom (partChunk s) 0 (texts ++ [Js.trim (wl_currentChunk final)])).
      split.
      * rewrite Hc, Hi, mapFrom_snoc, <- app_assoc. reflexivity.
      * split; [apply Hids|]. right. split; [assumption|]. eauto.
    + exists (mapFrom (partChunk s) 0 texts).
      split; [assumption|]. split; [apply Hids|]. right. split; [assumption|]. eauto.
Qed.

Lemma splitSpace_nonnil (s : Js.str) : Js.splitSpace s <> [].
Proof.
  induction s as [|c r IH]; simpl; [discriminate|].
  destruct (N.eqb c 32); [discriminate|].
  destruct (Js.splitSpace r); discriminate.
Qed.

Lemma nonWhite_splitSpace (s : Js.str) :
  Js.nonWhite s = concat (map Js.nonWhite (Js.splitSpace s)).
Proof.
  induction s as [|c r IH]; simpl; [reflexivity|].
  destruct (N.eqb_spec c 32) as [->|Hc].
  - simpl. exact IH.
  - destruct (Js.splitSpace r) as [|w ws] eqn:E.
    + now destruct (splitSpace_nonnil r).
    + simpl in *. rewrite IH.
      destruct (Js.isWhiteSpace c); reflexivity.
Qed.

Lemma nonWhite_join_spaces (g : list Js.str) :
  Js.nonWhite (Js.join (Js.lit " ") g) = concat (map Js.nonWhite g).
Proof.
  induction g as [|p g IH]; [reflexivity|].
  destruct g as [|q g].
  - simpl. now rewrite app_nil_r.
  - change (Js.join (Js.lit " ") (p :: q :: g))
      with (p ++ Js.lit " " ++ Js.join (Js.lit " ") (q :: g)).
    rewrite !nonWhite_app, IH. reflexivity.
Qed.

Lemma wordPartition_content (chunkSize : nat) (fullText : Js.str)
    (texts : list Js.str) :
  wordPartition chunkSize fullText texts ->
  Js.nonWhite (concat texts) = Js.nonWhite fullText.
Proof.
  intros [[_ ->] | (_ & groups & rest & Hw & -> & _ & Hrest)].
  - simpl. now rewrite app_nil_r.
  - rewrite (nonWhite_splitSpace fullText), <- Hw, map_app, concat_app.
    assert (Hr : concat (map Js.nonWhite rest) = []).
    { clear Hw. induction Hrest as [|w rest Hw' _ IH]; [reflexivity|].
      simpl. apply trim_nil_iff_nonWhite in Hw'. now rewrite Hw', IH. }
    rewrite Hr, app_nil_r. clear.
    induction groups as [|g groups IH]; [reflexivity|].
    simpl. rewrite nonWhite_app, IH. unfold groupText.
    now rewrite nonWhite_trim, nonWhite_join_spaces, map_app, concat_app.
Qed.

Lemma template_not_blank (s : LegalSection) : Js.nonWhite (sectionTemplate s) <> [].
Proof.
  unfold sectionTemplate. rewrite !nonWhite_app.
  intros H. apply app_eq_nil in H as [_ H]. apply app_eq_nil in H as [H _].
  vm_compute in H. discriminate.
Qed.

Lemma partition_run_content (chunkSize : nat) (fullTextOf : LegalSection -> Js.str)
    (sections : list LegalSection) (parts : list (list Js.str)) :
  (forall s, Js.nonWhite (fullTextOf s) = Js.nonWhite (sectionTemplate s)) ->
  Forall2 (fun s texts => wordPartition chunkSize (fullTextOf s) texts)
    sections parts ->
  Js.nonWhite (concat (concat parts))
  = Js.nonWhite (concat (map sectionTemplate sections))
  /\ length sections <= length (concat parts).
Proof.
  intros Hfull H. induction H as [|s texts sections parts Hp _ [IH1 IH2]].
  - split; [reflexivity | simpl; lia].
  - simpl. rewrite concat_app, !nonWhite_app, IH1.
    pose proof (wordPartition_content _ _ _ Hp) as Hc. rewrite Hfull in Hc.
    rewrite Hc. split; [reflexivity|].
    rewrite length_app. destruct texts as [|t texts]; [|simpl; lia].
    exfalso. simpl in Hc. symmetry in Hc. now apply template_not_blank in Hc.
Qed.

(** X6. The word-aware chunker loses no content and no record: for every
    list of sections and every size, the chunk texts of the route and of
    the script, concatenated in order, hold exactly the non-whitespace
    characters of the sections' full texts in order, and every section
    gives at least one chunk. *)
Theorem word_chunks_keep_content (sections : list LegalSection) (chunkSize : nat) :
  (Js.nonWhite (concat (map ch_text (chunkAndPrepareDocuments sections chunkSize)))
   = Js.nonWhite (concat (map sectionTemplate sections))
   /\ length sections <= length (chunkAndPrepareDocuments sections chunkSize))
  /\ (Js.nonWhite (concat (map ch_text (chunkLegalSections sections chunkSize)))
      = Js.nonWhite (concat (map sectionTemplate sections))
      /\ length sections <= length (chunkLegalSections sections chunkSize)).
Proof.
  split.
  - destruct (chunkSections_partition routeFullText chunkSize sections [])
      as (parts & E & H).
    unfold chunkAndPrepareDocuments.
    rewrite <- (length_map ch_text), E. simpl.
    apply (partition_run_content chunkSize routeFullText); [|assumption].
    intros s. apply nonWhite_trim.
  - destruct (chunkSections_partition scriptFullText chunkSize sections [])
      as (parts & E & H).
    unfold chunkLegalSections.
    rewrite <- (length_map ch_text), E. simpl.
    apply (partition_run_content chunkSize scriptFullText); [|assumption].
    reflexivity.
Qed.

(** ** The response formatter: emphasis markers *)

Lemma startsWith_split (m s : Js.str) :
  Js.startsWith m s = true -> s = m ++ skipn (length m) s.
Proof.
  revert s. induction m as [|a m IH]; intros s H; [reflexivity|].
  destruct s as [|b s]; [discriminate|]. simpl in H.
  apply andb_prop in H as [Hab H]. apply N.eqb_eq in Hab. subst b.
  simpl. f_equal. now apply IH.
Qed.

Lemma scanClose_split (m r inner rest : Js.str) :
  scanClose m r = Some (inner, rest) -> r = inner ++ m ++ rest.
Proof.
  revert inner rest. induction r as [|c r IH]; intros inner rest H.
  - simpl in H. destruct (Js.startsWith m []) eqn:E; [|discriminate].
    injection H as <- <-. now apply startsWith_split in E.
  - simpl in H. destruct (Js.startsWith m (c :: r)) eqn:E.
    + injection H as <- <-. now apply startsWith_split in E.
    + destruct (Js.isLineTerminator c); [discriminate|].
      destruct (scanClose m r) as [[inner' rest']|]; [|discriminate].
      injection H as <- <-. simpl. f_equal. now apply IH.
Qed.

Lemma matchEmphasis_split (m s inner rest : Js.str) :
  matchEmphasis m s = Some (inner, rest) ->
  s = m ++ inner ++ m ++ rest /\ inner <> [].
Proof.
  unfold matchEmphasis. intros H.
  destruct (Js.startsWith m s) eqn:E; [|discriminate].
  apply startsWith_split in E.
  destruct (skipn (length m) s) as [|c r]; [discriminate|].
  destruct (Js.isLineTerminator c); [discriminate|].
  destruct (scanClose m r) as [[inner' rest']|] eqn:Es; [|discriminate].
  injection H as <- <-. apply scanClose_split in Es.
  split; [|discriminate]. rewrite E at 1. now rewrite Es.
Qed.

Lemma withoutAsterisks_app (a b : Js.str) :
  withoutAsterisks (a ++ b) = withoutAsterisks a ++ withoutAsterisks b.
Proof. apply filter_app. Qed.

Lemma replaceEmphasis_asterisks (fuel : nat) (m s : Js.str) :
  withoutAsterisks m = [] ->
  withoutAsterisks (replaceEmphasis fuel m s) = withoutAsterisks s
  /\ length (replaceEmphasis fuel m s) <= length s.
Proof.
  intros Hm. revert s. induction fuel as [|fuel IH]; intros s; simpl; [auto|].
  destruct s as [|c r]; [auto|].
  destruct (matchEmphasis m (c :: r)) as [[inner rest]|] eqn:E.
  - apply matchEmphasis_split in E as [E _]. rewrite E.
    destruct (IH rest) as [IH1 IH2].
    rewrite !withoutAsterisks_app, Hm, IH1, !length_app. simpl. split; [reflexivity | lia].
  - destruct (IH r) as [IH1 IH2]. split.
    + change (c :: replaceEmphasis fuel m r) with ([c] ++ replaceEmphasis fuel m r).
      change (c :: r) with ([c] ++ r).
      now rewrite !withoutAsterisks_app, IH1.
    + simpl. lia.
Qed.

Lemma no_asterisk_cons (c : Js.char) (r : Js.str) :
  withoutAsterisks (c :: r) = c :: r -> c <> 42%N /\ withoutAsterisks r = r.
Proof.
  simpl. destruct (N.eqb_spec c 42) as [->|Hc]; simpl; intros H.
  - exfalso.
    assert (L : length (withoutAsterisks r) <= length r) by apply filter_length_le.
    rewrite H in L. simpl in L. lia.
  - injection H as H. now split.
Qed.

Lemma matchEmphasis_other (m r : Js.str) (c : Js.char) :
  c <> 42%N -> matchEmphasis (42%N :: m) (c :: r) = None.
Proof.
  intros Hc. unfold matchEmphasis. cbn [Js.startsWith].
  destruct (N.eqb_spec 42 c) as [E|_]; [congruence | reflexivity].
Qed.

Lemma replaceEmphasis_no_asterisk (fuel : nat) (m s : Js.str) :
  withoutAsterisks s = s -> replaceEmphasis fuel (42%N :: m) s = s.
Proof.
  revert s. induction fuel as [|fuel IH]; intros s H; [reflexivity|].
  destruct s as [|c r]; [reflexivity|].
  apply no_asterisk_cons in H as [Hc Hr].
  cbn [replaceEmphasis]. rewrite (matchEmphasis_other m r c Hc).
  f_equal. now apply IH.
Qed.

(** Matches are looked for one after the other and each one consumes
    characters: more than [length s] steps change nothing. *)
Lemma replaceEmphasis_fuel (f1 f2 : nat) (m s : Js.str) :
  length s <= f1 -> length s <= f2 ->
  replaceEmphasis f1 m s = replaceEmphasis f2 m s.
Proof.
  revert f2 s. induction f1 as [|f1 IH]; intros f2 s H1 H2.
  - destruct s; [|simpl in H1; lia]. destruct f2; reflexivity.
  - destruct s as [|c r]; [destruct f2; reflexivity|].
    destruct f2 as [|f2]; [simpl in H2; lia|]. simpl.
    destruct (matchEmphasis m (c :: r)) as [[inner rest]|] eqn:E.
    + apply matchEmphasis_split in E as [E Hi].
      apply (f_equal (@length _)) in E. rewrite !length_app in E.
      assert (0 < length inner) by (destruct inner; [congruence | simpl; lia]).
      simpl in H1, H2, E. f_equal. apply IH; lia.
    + simpl in H1, H2. f_equal. apply IH; lia.
Qed.

(** X7. [stripEmphasis] removes asterisks and nothing else: the result
    without its asterisks is the text without its asterisks, it is never
    longer than the text, and a text without asterisks comes back
    unchanged. *)
Theorem stripEmphasis_removes_only_asterisks (text : Js.str) :
  withoutAsterisks (stripEmphasis text) = withoutAsterisks text
  /\ length (stripEmphasis text) <= length text
  /\ (withoutAsterisks text = text -> stripEmphasis text = text).
Proof.
  unfold stripEmphasis.
  set (bold := replaceEmphasis (length text) (Js.lit "**") text).
  destruct (replaceEmphasis_asterisks (length text) (Js.lit "**") text eq_refl)
    as [B1 B2].
  destruct (replaceEmphasis_asterisks (length bold) (Js.lit "*") bold eq_refl)
    as [I1 I2].
  fold bold in B1, B2.
  split; [now rewrite I1, B1|]. split; [lia|].
  intros H.
  assert (Eb : bold = text).
  { unfold bold. change (Js.lit "**") with (42%N :: [42%N]).
    now apply replaceEmphasis_no_asterisk. }
  rewrite Eb. change (Js.lit "*") with (42%N :: []).
  now apply replaceEmphasis_no_asterisk.
Qed.

(** ** The response formatter: blocks *)

Lemma join_nonempty (sep : Js.str) (parts : list Js.str) :
  parts <> [] -> Forall (fun l => l <> []) parts -> Js.join sep parts <> [].
Proof.
  intros Hne H. destruct parts as [|p parts]; [congruence|].
  inversion H as [|? ? Hp _]; subst.
  destruct p as [|c p]; [congruence|].
  destruct parts; discriminate.
Qed.

Lemma flushParagraph_inv (st : ParseState) :
  parse_inv st -> parse_inv (flushParagraph st) /\ ps_currentParagraph (flushParagraph st) = [].
Proof.
  intros [Hb Hp Hl]. unfold flushParagraph.
  destruct (ps_currentParagraph st) as [|l ls] eqn:E.
  - split; [split; [assumption | now rewrite E | assumption] | assumption].
  - split; [|reflexivity].
    split; cbn [ps_blocks ps_currentParagraph ps_currentList];
      [|constructor | assumption].
    apply Forall_app; split; [assumption|]. constructor; [|constructor].
    unfold blockNonEmpty. apply join_nonempty; [discriminate | assumption].
Qed.

Lemma flushList_inv (st : ParseState) :
  parse_inv st ->
  parse_inv (flushList st)
  /\ ps_currentList (flushList st) = None
  /\ ps_currentParagraph (flushList st) = ps_currentParagraph st.
Proof.
  intros [Hb Hp Hl]. unfold flushList.
  destruct (ps_currentList st) as [[|i items]|] eqn:E.
  - congruence.
  - split; [|split; reflexivity]. split; simpl; [|assumption | discriminate].
    apply Forall_app; split; [assumption|]. constructor; [|constructor].
    simpl. discriminate.
  - split; [split; [assumption | assumption | rewrite E; discriminate]|].
    split; [assumption | reflexivity].
Qed.

Lemma appendToLast_nonempty (items : list Js.str) (line : Js.str) :
  items <> [] -> appendToLast items line <> [].
Proof.
  destruct items as [|x [|y items]]; [congruence | discriminate | discriminate].
Qed.

Lemma parseLine_inv (st : ParseState) (rawLine : Js.str) :
  parse_inv st -> parse_inv (parseLine st rawLine).
Proof.
  intros Hinv. unfold parseLine.
  destruct (Js.truthy (Js.trim rawLine)) eqn:Et; simpl negb; cbv iota.
  - destruct (headingMatch (Js.trim rawLine)) as [group|].
    + destruct (flushParagraph_inv st Hinv) as [H1 _].
      destruct (flushList_inv _ H1) as [[Hb Hp Hl] _].
      destruct (Js.truthy (stripEmphasis (Js.trim group))) eqn:Eh.
      * split; simpl; try assumption.
        apply Forall_app; split; [assumption|]. constructor; [|constructor].
        simpl. intros E. rewrite E in Eh. discriminate.
      * now split.
    + destruct (match bulletMatch (Js.trim rawLine) with
                | Some g => Some g
                | None => orderedMatch (Js.trim rawLine)
                end) as [group|].
      * destruct (flushParagraph_inv st Hinv) as [[Hb Hp Hl] _].
        split; simpl; try assumption.
        intros E. injection E as E. now destruct (app_eq_nil _ _ E).
      * destruct Hinv as [Hb Hp Hl].
        destruct (ps_currentList st) as [items|] eqn:El.
        -- split; simpl; try assumption.
           intros E. injection E as E.
           apply (appendToLast_nonempty items (Js.trim rawLine)); [|assumption].
           intros ->. congruence.
        -- split; simpl; try assumption; try discriminate.
           apply Forall_app; split; [assumption|]. constructor; [|constructor].
           intros E. rewrite E in Et. discriminate.
  - destruct (flushParagraph_inv st Hinv) as [H1 _].
    now destruct (flushList_inv _ H1).
Qed.

Lemma parseLines_inv (lines : list Js.str) (st : ParseState) :
  parse_inv st -> parse_inv (fold_left parseLine lines st).
Proof.
  revert st. induction lines as [|l lines IH]; intros st H; simpl; [assumption|].
  apply IH. now apply parseLine_inv.
Qed.


Lemma blank_cons (c : Js.char) (r : Js.str) :
  Js.nonWhite (c :: r) = [] -> Js.isWhiteSpace c = true /\ Js.nonWhite r = [].
Proof.
  simpl. destruct (Js.isWhiteSpace c); simpl; [auto | discriminate].
Qed.

Lemma blank_line_cons (c : Js.char) (l : Js.str) :
  Js.isWhiteSpace c = true -> Js.nonWhite l = [] -> Js.nonWhite (c :: l) = [].
Proof. intros Hc Hl. simpl. now rewrite Hc. Qed.

(** The lines of a blank text are blank. *)
Lemma splitLines_blank (n : nat) (s : Js.str) :
  length s <= n -> Js.nonWhite s = [] ->
  Forall (fun l => Js.nonWhite l = []) (splitLines s).
Proof.
  revert s. induction n as [|n IH]; intros s Hn Hs.
  - destruct s; [|simpl in Hn; lia]. repeat constructor.
  - destruct s as [|c r]; [repeat constructor|].
    apply blank_cons in Hs as [Hc Hr]. simpl in Hn.
    assert (Hrest : Forall (fun l => Js.nonWhite l = []) (splitLines r))
      by (apply IH; [lia | assumption]).
    assert (Hkeep : Forall (fun l => Js.nonWhite l = [])
                      match splitLines r with
                      | l :: ls => (c :: l) :: ls
                      | [] => [[c]]
                      end).
    { destruct (splitLines r) as [|l ls].
      - repeat constructor. now apply blank_line_cons.
      - inversion Hrest; subst. constructor; [now apply blank_line_cons | assumption]. }
    cbn [splitLines]. destruct (N.eqb c 10); [now constructor|].
    destruct r as [|d r']; [exact Hkeep|].
    destruct (N.eqb c 13 && N.eqb d 10); [|exact Hkeep].
    constructor; [reflexivity|].
    apply blank_cons in Hr as [_ Hr']. apply IH; [simpl in Hn; lia | assumption].
Qed.

Lemma parseLines_blank (lines : list Js.str) :
  Forall (fun l => Js.nonWhite l = []) lines ->
  fold_left parseLine lines
    {| ps_blocks := []; ps_currentParagraph := []; ps_currentList := None |}
  = {| ps_blocks := []; ps_currentParagraph := []; ps_currentList := None |}.
Proof.
  induction 1 as [|l lines Hl _ IH]; [reflexivity|].
  simpl. unfold parseLine at 2.
  apply trim_nil_iff_nonWhite in Hl. rewrite Hl. simpl. exact IH.
Qed.

(** X8. The formatter never gives an empty block: every heading and every
    paragraph it returns has a text, every list block at least one item;
    and a text made of whitespace only (blank lines) gives no block. *)
Theorem parse_blocks_nonempty (text : Js.str) :
  Forall blockNonEmpty (parseAssistantContent text)
  /\ (Js.nonWhite text = [] -> parseAssistantContent text = []).
Proof.
  split.
  - unfold parseAssistantContent.
    assert (H : parse_inv (fold_left parseLine (splitLines text)
                  {| ps_blocks := []; ps_currentParagraph := [];
                     ps_currentList := None |})).
    { apply parseLines_inv. split; simpl; [constructor | constructor | discriminate]. }
    destruct (flushParagraph_inv _ H) as [H1 _].
    now destruct (flushList_inv _ H1) as [[Hb _ _] _].
  - intros Hblank. unfold parseAssistantContent.
    rewrite parseLines_blank; [reflexivity|].
    now apply (splitLines_blank (length text)).
Qed.

(** ** The embedding gateway and the index handle *)

(** X9. For a non-empty list of texts, once the OpenAI client exists or
    can be made (the API key is set), [embedTexts] makes exactly one call
    to the embedding service, with the whole list, and passes on what the
    service answers: its embeddings as they are, or its error thrown
    again unchanged.  Without a client and without the key it throws the
    configuration error and calls nothing. *)
Theorem embedTexts_passes_through
    (W : Type) (svc : Services W) (env : Env) (p : Process W)
    (texts : list Js.str) :
  texts <> [] ->
  (isSet (OPENAI_API_KEY env) = true \/ openaiClient p = true ->
   exists p',
     embedTexts svc env texts p
     = (match fst (embeddings_create svc texts (world p)) with
        | inr data => Ok data
        | inl e => Thrown e
        end, p')
     /\ calls p'
        = calls p
          ++ [{| cr_call := EmbeddingsCreate texts;
                 cr_ok := match fst (embeddings_create svc texts (world p)) with
                          | inr _ => true
                          | inl _ => false
                          end |}]
     /\ world p' = snd (embeddings_create svc texts (world p)))
  /\ (isSet (OPENAI_API_KEY env) = false -> openaiClient p = false ->
      exists p',
        embedTexts svc env texts p
        = (Thrown (mkError (Js.lit "OPENAI_API_KEY is not configured in the environment.")),
           p')
        /\ calls p' = calls p /\ world p' = world p).
Proof.
  intros Hne. destruct texts as [|t texts]; [congruence|].
  split.
  - intros Hclient.
    unfold embedTexts, tryCatch, bind, getOpenAIClient, get, log, callService,
      setOpenaiClient, ret, throw. simpl.
    destruct (openaiClient p) eqn:Ec; simpl.
    + destruct (embeddings_create svc (t :: texts) (world p)) as [[e|data] w'];
        simpl; eexists; repeat split.
    + destruct Hclient as [Hk|Hk]; [|discriminate]. rewrite Hk. simpl.
      destruct (embeddings_create svc (t :: texts) (world p)) as [[e|data] w'];
        simpl; eexists; repeat split.
  - intros Hk Hc.
    unfold embedTexts, tryCatch, bind, getOpenAIClient, get, log, callService,
      setOpenaiClient, ret, throw. simpl.
    rewrite Hc, Hk. simpl. eexists; repeat split.
Qed.

Lemma embedTexts_passes_through_witness :
  (isSet (OPENAI_API_KEY sampleEnv) = true \/ openaiClient (freshProcess 0) = true ->
   exists p',
     embedTexts (refuseEmbedding 0) sampleEnv [Js.lit "what is theft"] (freshProcess 0)
     = (match fst (embeddings_create (refuseEmbedding 0) [Js.lit "what is theft"]
                     (world (freshProcess 0))) with
        | inr data => Ok data
        | inl e => Thrown e
        end, p')
     /\ calls p'
        = calls (freshProcess 0)
          ++ [{| cr_call := EmbeddingsCreate [Js.lit "what is theft"];
                 cr_ok := match fst (embeddings_create (refuseEmbedding 0)
                                       [Js.lit "what is theft"]
                                       (world (freshProcess 0))) with
                          | inr _ => true
                          | inl _ => false
                          end |}]
     /\ world p' = snd (embeddings_create (refuseEmbedding 0)
                          [Js.lit "what is theft"] (world (freshProcess 0))))
  /\ (isSet (OPENAI_API_KEY sampleEnv) = false ->
      openaiClient (freshProcess 0) = false ->
      exists p',
        embedTexts (refuseEmbedding 0) sampleEnv [Js.lit "what is theft"]
          (freshProcess 0)
        = (Thrown (mkError (Js.lit "OPENAI_API_KEY is not configured in the environment.")),
           p')
        /\ calls p' = calls (freshProcess 0) /\ world p' = world (freshProcess 0)).
Proof.
  apply (embedTexts_passes_through nat (refuseEmbedding 0) sampleEnv
           (freshProcess 0) [Js.lit "what is theft"]).
  discriminate.
Defined.

(** X10. [getPineconeIndex] gives the index handle exactly when all three
    required variables are set, the OpenAI key included, since it reads
    the whole configuration; otherwise it throws.  Either way it calls no
    service and leaves the world outside as it was. *)
Theorem getPineconeIndex_needs_whole_configuration
    (W : Type) (env : Env) (p : Process W) :
  exists r p',
    getPineconeIndex env p = (r, p')
    /\ calls p' = calls p /\ world p' = world p
    /\ (r = Ok tt <-> envConfigured env = true)
    /\ (forall e, r = Thrown e ->
        exn_name e = Js.lit "ConfigurationError"
        /\ (e = mkConfigurationError
                  (Js.lit "Missing required environment variable: OPENAI_API_KEY")
            <-> isSet (OPENAI_API_KEY env) = false)).
Proof.
  unfold getPineconeIndex, getPineconeClient, getEnvConfig, validateEnvVar,
    envConfigured, bind, get, log, setPineconeClient, ret, throw.
  destruct (OPENAI_API_KEY env) as [[|c1 k1]|];
    destruct (PINECONE_API_KEY env) as [[|c2 k2]|];
    destruct (PINECONE_INDEX env) as [[|c3 k3]|];
    simpl; try destruct (pineconeClient p); simpl;
    eexists _, _; (split; [reflexivity|]);
    repeat split; intros; try discriminate; try reflexivity;
    try match goal with H : Thrown _ = Thrown _ |- _ => injection H as <- end;
    try reflexivity; try discriminate.
Qed.

(** X11. [validateEnvironment] never throws and changes nothing.  It
    reports the environment valid exactly when the three required
    variables are set and the OpenAI key starts with "sk-"; it reports at
    most one error, because reading the configuration stops at the first
    missing variable. *)
Theorem validateEnvironment_verdict (W : Type) (env : Env) (p : Process W) :
  exists v,
    validateEnvironment env p = (Ok v, p)
    /\ (valid v = true <->
        envConfigured env = true
        /\ Js.startsWith (Js.lit "sk-") (valueOr (OPENAI_API_KEY env) []) = true)
    /\ (valid v = true <-> validation_errors v = [])
    /\ length (validation_errors v) <= 1.
Proof. exact (validateEnvironment_facts W env p). Qed.

(** ** Retrieval and answering: what is called, returned and thrown *)

Section AnswerShape.

Context {W : Type}.
Variable svc : Services W.
Variable env : Env.
Implicit Types p : Process W.

Lemma post_getOpenAIClient_any p (Q : Result unit -> Process W -> Prop) :
  (forall p', extends p p' [] [] -> Q (Ok tt) p') ->
  (forall e p', extends p p' [] [] -> isSet (OPENAI_API_KEY env) = false ->
                Q (Thrown e) p') ->
  post (getOpenAIClient env) p Q.
Proof.
  intros Hok Hko. destruct (isSet (OPENAI_API_KEY env)) eqn:Hk.
  - now apply post_getOpenAIClient.
  - unfold getOpenAIClient. apply post_bind, post_get.
    destruct (openaiClient p).
    + apply post_ret, Hok, extends_refl.
    + rewrite Hk. simpl.
      apply post_bind, post_log; [reflexivity|]. intros p1 E1.
      apply post_throw. now apply Hko.
Qed.

Lemma post_getPineconeIndex_any p (Q : Result unit -> Process W -> Prop) :
  (forall p', extends p p' [] [] -> Q (Ok tt) p') ->
  (forall e, Q (Thrown e) p) ->
  post (getPineconeIndex env) p Q.
Proof.
  intros Hok Hko. destruct (envConfigured env) eqn:Hc.
  - now apply post_getPineconeIndex.
  - destruct (getPineconeIndex_unconfigured env p Hc) as [e E].
    eapply post_of_eq; [exact E | apply Hko].
Qed.

Lemma post_embedTexts_any (texts : list Js.str) p
    (Q : Result (list Embedding) -> Process W -> Prop) :
  texts <> [] ->
  (forall e p', extends p p' [] [] -> Q (Thrown e) p') ->
  (forall r p' ok,
      extends p p' [{| cr_call := EmbeddingsCreate texts; cr_ok := ok |}] [] ->
      match r with
      | Ok _ => ok = true
      | Thrown _ => ok = false
      | OutOfFuel => False
      end -> Q r p') ->
  post (embedTexts svc env texts) p Q.
Proof.
  intros Hne Hno H. destruct texts as [|t texts]; [congruence|].
  unfold embedTexts.
  apply post_bind, post_log; [reflexivity|]. intros p1 E1.
  apply post_tryCatch, post_bind, post_getOpenAIClient_any.
  - intros p2 E2.
    apply post_bind, post_callService.
    + intros data p3 E3.
      apply post_bind, post_log; [reflexivity|]. intros p4 E4.
      apply post_ret. apply (H _ _ true); [|reflexivity].
      eauto using extends_quiet, extends_then_quiet.
    + intros e p3 E3.
      apply post_bind, post_log; [reflexivity|]. intros p4 E4.
      apply post_throw. apply (H _ _ false); [|reflexivity].
      eauto using extends_quiet, extends_then_quiet.
  - intros e p2 E2 _.
    apply post_bind, post_log; [reflexivity|]. intros p3 E3.
    apply post_throw. apply Hno. eauto using extends_quiet.
Qed.

Lemma orElse_nonempty (a : option Js.str) (b : Js.str) : b <> [] -> orElse a b <> [].
Proof. intros Hb. destruct a as [[|c r]|]; simpl; (assumption || discriminate). Qed.

Lemma docOfMatch_act_source (m : Match) :
  d_act (docOfMatch m) <> [] /\ d_source (docOfMatch m) <> [].
Proof.
  unfold docOfMatch. simpl. split; apply orElse_nonempty; discriminate.
Qed.

Lemma usable_filter (ms : list Match) :
  Forall usableDoc
    (filter (fun doc => Js.truthy (d_text doc)) (map docOfMatch ms)).
Proof.
  apply Forall_forall. intros d Hd. apply filter_In in Hd as [Hin Ht].
  apply in_map_iff in Hin as (m & <- & _).
  split; [|apply docOfMatch_act_source].
  intros E. rewrite E in Ht. discriminate.
Qed.

Lemma post_retrieve_shape (question : Js.str) (limit : nat) p :
  post (retrieveWithPinecone svc env question limit) p
    (fun r p' =>
       exists docs cs,
         r = Ok docs /\ extends p p' cs []
         /\ retrievalCalls question limit cs
         /\ Forall usableDoc docs).
Proof.
  unfold retrieveWithPinecone.
  apply post_bind, post_log; [reflexivity|]. intros p1 E1.
  apply post_tryCatch, post_bind, post_embedTexts_any; [discriminate | |].
  - intros e p2 E2.
    apply post_bind, post_log; [reflexivity|]. intros p3 E3.
    apply post_ret. exists [], []. split; [reflexivity|].
    split; [eauto using extends_quiet|]. split; [now left | constructor].
  - intros [[|queryEmbedding rest]|e|] p2 ok E2 Hr; [| | |contradiction].
    + apply post_bind, post_log; [reflexivity|]. intros p3 E3.
      apply post_ret. eexists [], _. split; [reflexivity|].
      split; [eauto using extends_quiet, extends_then_quiet|].
      split; [right; left; eauto | constructor].
    + subst ok. apply post_bind, post_getPineconeIndex_any.
      * intros p3 E3.
        apply post_bind, post_callService.
        -- intros response p4 E4.
           apply post_bind, post_log; [reflexivity|]. intros p5 E5.
           assert (E : extends p p5
                         [{| cr_call := EmbeddingsCreate [question]; cr_ok := true |};
                          {| cr_call := IndexQuery queryEmbedding limit;
                             cr_ok := true |}] []).
           { pose proof (extends_quiet _ _ _ _ _ E1 E2) as Ea.
             pose proof (extends_then_quiet _ _ _ _ _ Ea E3) as Eb.
             pose proof (extends_trans _ _ _ _ _ _ _ Eb E4) as Ec.
             exact (extends_then_quiet _ _ _ _ _ Ec E5). }
           destruct response as [[|m ms]|].
           ++ apply post_bind, post_log; [reflexivity|]. intros p6 E6.
              apply post_ret. eexists [], _. split; [reflexivity|].
              split; [eauto using extends_then_quiet|].
              split; [right; right; eauto | constructor].
           ++ apply post_bind, post_log; [reflexivity|]. intros p6 E6.
              apply post_ret. eexists _, _. split; [reflexivity|].
              split; [eauto using extends_then_quiet|].
              split; [right; right; eauto | apply usable_filter].
           ++ apply post_bind, post_log; [reflexivity|]. intros p6 E6.
              apply post_ret. eexists [], _. split; [reflexivity|].
              split; [eauto using extends_then_quiet|].
              split; [right; right; eauto | constructor].
        -- intros e p4 E4.
           apply post_bind, post_log; [reflexivity|]. intros p5 E5.
           apply post_ret.
           exists [], [{| cr_call := EmbeddingsCreate [question]; cr_ok := true |};
                       {| cr_call := IndexQuery queryEmbedding limit;
                          cr_ok := false |}].
           split; [reflexivity|].
           split.
           { pose proof (extends_quiet _ _ _ _ _ E1 E2) as Ea.
             pose proof (extends_then_quiet _ _ _ _ _ Ea E3) as Eb.
             pose proof (extends_trans _ _ _ _ _ _ _ Eb E4) as Ec.
             exact (extends_then_quiet _ _ _ _ _ Ec E5). }
           split; [right; right; eauto | constructor].
      * intros e.
        apply post_bind, post_log; [reflexivity|]. intros p5 E5.
        apply post_ret. eexists [], _. split; [reflexivity|].
        split; [eauto using extends_quiet, extends_then_quiet|].
        split; [right; left; eauto | constructor].
    + apply post_bind, post_log; [reflexivity|]. intros p5 E5.
      apply post_ret. eexists [], _. split; [reflexivity|].
      split; [eauto using extends_quiet, extends_then_quiet|].
      split; [right; left; eauto | constructor].
Qed.

End AnswerShape.

(** X12. [retrieveWithPinecone] never throws, whatever the services and
    the environment do.  It makes at most one embedding call (for the
    question alone) and, only when that call is answered, at most one
    index query; nothing else is called.  Every document it returns has a
    non-empty text, act and source. *)
Theorem retrieval_degrades_never_throws
    (W : Type) (svc : Services W) (env : Env) (p : Process W)
    (question : Js.str) (limit : nat) :
  exists docs p' cs,
    retrieveWithPinecone svc env question limit p = (Ok docs, p')
    /\ calls p' = calls p ++ cs
    /\ retrievalCalls question limit cs
    /\ Forall usableDoc docs.
Proof.
  destruct (proj1 (post_exists _ _ _)
              (post_retrieve_shape svc env question limit p))
    as (r & p' & E & docs & cs & -> & [C _] & Hcs & Hd).
  now exists docs, p', cs.
Qed.

Lemma truthy_nonempty (s : Js.str) : Js.truthy s = true <-> s <> [].
Proof. destruct s; simpl; split; intros; congruence. Qed.

Lemma snippets_bounded (docs : list IndexedDoc) :
  Forall (fun s => length (s_snippet s) <= 280) (map snippetOf docs).
Proof.
  apply Forall_forall. intros s Hs. apply in_map_iff in Hs as (d & <- & _).
  cbn [s_snippet snippetOf]. unfold Js.prefix. rewrite length_firstn. lia.
Qed.

Lemma post_answer_outcome
    (W : Type) (svc : Services W) (env : Env) (p : Process W) (q : Js.str) :
  post (answerLegalQuestion svc env q) p (answerOutcome env q p).
Proof.
  unfold answerLegalQuestion.
  destruct (Js.truthy (Js.trim q)) eqn:Et; simpl negb; cbv iota.
  - assert (Hq : Js.trim q <> []) by now apply truthy_nonempty.
    apply post_bind, post_log; [reflexivity|]. intros p1 E1.
    destruct (pineconeConfigured env); simpl negb; cbv iota.
    + apply post_bind.
      eapply post_mono; [apply post_retrieve_shape|].
      intros r p2 (docs & rc & -> & E2 & Hrc & Hdocs).
      pose proof (extends_quiet _ _ _ _ _ E1 E2) as Ea.
      destruct docs as [|d ds].
      * apply post_bind, post_log; [reflexivity|]. intros p3 E3.
        apply post_ret. exists rc, [].
        destruct (extends_then_quiet _ _ _ _ _ Ea E3) as [C _].
        split; [now rewrite C, app_nil_r|]. split; [assumption|].
        split; [now left|].
        split; [assumption|]. split; [discriminate|]. split; [constructor | reflexivity].
      * apply post_bind, post_log; [reflexivity|]. intros p3 E3.
        pose proof (extends_then_quiet _ _ _ _ _ Ea E3) as Eb.
        apply post_bind, post_getOpenAIClient_any.
        -- intros p4 E4.
           apply post_bind, post_log; [reflexivity|]. intros p5 E5.
           pose proof (extends_then_quiet _ _ _ _ _
                         (extends_then_quiet _ _ _ _ _ Eb E4) E5) as Ec.
           apply post_tryCatch, post_bind, post_callService.
           ++ intros content p6 E6.
              apply post_bind, post_log; [reflexivity|]. intros p7 E7.
              apply post_ret.
              destruct (extends_then_quiet _ _ _ _ _
                          (extends_trans _ _ _ _ _ _ _ Ec E6) E7) as [C _].
              eexists rc, [_]. split; [exact C|]. split; [assumption|].
              split; [right; eauto|].
              split; [assumption|].
              split; [apply orElse_nonempty; discriminate|].
              split; [apply snippets_bounded | discriminate].
           ++ intros e p6 E6.
              apply post_bind, post_log; [reflexivity|]. intros p7 E7.
              apply post_throw.
              destruct (extends_then_quiet _ _ _ _ _
                          (extends_trans _ _ _ _ _ _ _ Ec E6) E7) as [C _].
              eexists rc, [_]. split; [exact C|]. split; [assumption|].
              split; [right; eauto|].
              right. right. split; [assumption|]. eexists. reflexivity.
        -- intros e p4 E4 Hk.
           destruct (extends_then_quiet _ _ _ _ _ Eb E4) as [C _].
           exists rc, []. split; [now rewrite C, app_nil_r|].
           split; [assumption|]. split; [now left|].
           right. left. auto.
    + apply post_bind, post_log; [reflexivity|]. intros p2 E2.
      apply post_ret. exists [], [].
      destruct (extends_quiet _ _ _ _ _ E1 E2) as [C _].
      split; [exact C|]. split; [now left|]. split; [now left|].
      split; [assumption|]. split; [discriminate|]. split; [constructor | reflexivity].
  - assert (Hq : Js.trim q = []) by (destruct (Js.trim q); [reflexivity | discriminate]).
    apply post_bind, post_log; [reflexivity|]. intros p1 [C _].
    apply post_throw. exists [], []. split; [exact C|].
    split; [now left|]. split; [now left|]. left. auto.
Qed.

(** X13. Whenever [answerLegalQuestion] returns a result, the question
    was not blank, the answer is not empty (a fixed text stands in for an
    empty completion) and every source snippet has at most 280 code
    units; a result obtained without calling the completion service has
    no sources.  In all, it makes the calls of one retrieval followed by
    at most one completion call, with the fixed system prompt. *)
Theorem answer_result_shape
    (W : Type) (svc : Services W) (env : Env) (p p' : Process W)
    (q : Js.str) (res : ChatResult) :
  answerLegalQuestion svc env q p = (Ok res, p') ->
  Js.trim q <> []
  /\ answer res <> []
  /\ Forall (fun s => length (s_snippet s) <= 280) (sources res)
  /\ exists rc cc,
       calls p' = calls p ++ rc ++ cc
       /\ retrievalCalls (Js.trim q) 8 rc
       /\ completionCalls cc
       /\ (cc = [] -> sources res = []).
Proof.
  intros E. pose proof (post_answer_outcome W svc env p q) as H.
  unfold post in H. rewrite E in H. simpl in H.
  destruct H as (rc & cc & C & Hrc & Hcc & Hq & Ha & Hs & Hn).
  repeat split; try assumption. now exists rc, cc.
Qed.


Lemma answer_result_shape_witness :
  exists res p',
    answerLegalQuestion (theftIndex true) sampleEnv (Js.lit " what is theft? ")
      (freshProcess tt) = (Ok res, p')
    /\ Js.trim (Js.lit " what is theft? ") <> []
    /\ answer res <> []
    /\ Forall (fun s => length (s_snippet s) <= 280) (sources res)
    /\ exists rc cc,
         calls p' = calls (freshProcess tt) ++ rc ++ cc
         /\ retrievalCalls (Js.trim (Js.lit " what is theft? ")) 8 rc
         /\ completionCalls cc
         /\ (cc = [] -> sources res = []).
Proof.
  eexists _, _. split; [vm_compute; reflexivity|].
  apply (answer_result_shape unit (theftIndex true) sampleEnv (freshProcess tt) _
           (Js.lit " what is theft? ") _).
  vm_compute. reflexivity.
Defined.


(** X15. Without [PINECONE_API_KEY] or without [PINECONE_INDEX], a
    question that is not blank gets the fixed answer that the vector
    database is not configured, with no sources: nothing is thrown, no
    service is called (the OpenAI key is not even looked at) and the world
    outside stays as it was. *)
Theorem answer_without_index_configuration
    (W : Type) (svc : Services W) (env : Env) (p : Process W) (q : Js.str) :
  Js.trim q <> [] ->
  pineconeConfigured env = false ->
  exists p',
    answerLegalQuestion svc env q p
    = (Ok {| answer := notConfiguredAnswer; sources := [] |}, p')
    /\ calls p' = calls p /\ world p' = world p
    /\ openaiClient p' = openaiClient p.
Proof.
  intros Hq Hc. unfold answerLegalQuestion. rewrite Hc.
  destruct (Js.trim q) as [|c r]; [congruence|].
  simpl. eexists. repeat split.
Qed.

Lemma answer_without_index_configuration_witness :
  exists p',
    answerLegalQuestion emptyIndex openaiOnlyEnv (Js.lit "what is theft")
      (freshProcess tt)
    = (Ok {| answer := notConfiguredAnswer; sources := [] |}, p')
    /\ calls p' = calls (freshProcess tt) /\ world p' = world (freshProcess tt)
    /\ openaiClient p' = openaiClient (freshProcess tt).
Proof.
  apply (answer_without_index_configuration unit emptyIndex openaiOnlyEnv
           (freshProcess tt) (Js.lit "what is theft")).
  - vm_compute. discriminate.
  - reflexivity.
Defined.

(** ** The chat route: initialisation and responses *)


Section ChatRouteProperties.

Context {W : Type}.
Variable svc : Services W.
Variable env : Env.
Implicit Types p : Process W.

(** With the whole configuration present, initialising the index asks for
    its statistics exactly once. *)
Lemma post_initLegalIndex_configured p :
  envConfigured env = true ->
  post (initLegalIndex svc env) p
    (fun r p' => exists st ok, r = Ok st /\ extends p p' [statsCall ok] []).
Proof.
  intros Hc. unfold initLegalIndex. apply post_bind.
  rewrite (envConfigured_pinecone env Hc).
  apply post_tryCatch, post_bind, post_getPineconeIndex; [assumption|].
  intros p1 E1. apply post_bind, post_callService.
  - intros stats p2 E2.
    apply post_bind, post_log; [reflexivity|]. intros p3 E3.
    do 2 apply post_ret. eexists _, true. split; [reflexivity|].
    eauto using extends_quiet, extends_then_quiet.
  - intros e p2 E2.
    apply post_bind, post_log; [reflexivity|]. intros p3 E3.
    do 2 apply post_ret. eexists _, false. split; [reflexivity|].
    eauto using extends_quiet, extends_then_quiet.
Qed.

Lemma post_ensureInitialized p :
  post (ensureInitialized svc env) p
    (fun r p' => exists cs, extends p p' cs [] /\ initOutcome env p r p' cs).
Proof.
  unfold ensureInitialized. apply post_bind, post_get.
  destruct (initialized p) eqn:Hi.
  - apply post_ret. exists []. split; [apply extends_refl|].
    simpl. split; [assumption|]. left. auto.
  - apply post_bind, post_log_flag; [reflexivity|]. intros p1 E1 I1.
    apply post_bind.
    destruct (validateEnvironment_run W env p1) as (v & Ev & Hv & _).
    eapply post_of_eq; [exact Ev|]. cbv beta iota.
    rewrite Hv. destruct (envValid env) eqn:Hvalid; cbn [negb].
    + apply post_bind.
      eapply post_mono;
        [apply post_initLegalIndex_configured, envValid_configured, Hvalid|].
      intros r p2 (st & ok & -> & E2).
      apply post_bind, post_log; [reflexivity|]. intros p3 E3.
      apply post_setInitialized. intros p4 E4 I4.
      exists [statsCall ok]. split.
      { eauto using extends_quiet, extends_then_quiet. }
      simpl. split; [assumption|]. right. eauto.
    + apply post_bind, post_log_flag; [reflexivity|]. intros p2 E2 I2.
      apply post_throw. exists []. split; [eauto using extends_quiet|].
      simpl. repeat split; congruence.
Qed.

End ChatRouteProperties.

(** X16. [ensureInitialized] is a latch.  With the flag up it does
    nothing at all.  With the flag down and a valid environment it asks
    for the index statistics exactly once and raises the flag, also when
    that call fails, so that the index is never asked again by later
    requests.  With the flag down and an invalid environment it throws
    "Environment configuration is invalid", calls nothing and leaves the
    flag down, so that the next request validates again. *)
Theorem ensureInitialized_latch
    (W : Type) (svc : Services W) (env : Env) (p : Process W) :
  exists r p' cs,
    ensureInitialized svc env p = (r, p')
    /\ calls p' = calls p ++ cs
    /\ (initialized p = true -> r = Ok tt /\ p' = p)
    /\ (initialized p = false -> envValid env = true ->
        r = Ok tt /\ initialized p' = true /\ exists ok, cs = [statsCall ok])
    /\ (initialized p = false -> envValid env = false ->
        r = Thrown (mkError (Js.lit "Environment configuration is invalid"))
        /\ initialized p' = false /\ cs = []).
Proof.
  destruct (proj1 (post_exists _ _ _) (post_ensureInitialized svc env p))
    as (r & p' & E & cs & [C _] & H).
  exists r, p', cs. split; [exact E|]. split; [exact C|].
  destruct r as [[]|e|]; simpl in H; [| |contradiction].
  - destruct H as [I [(Hi & -> & ->) | (Hi & Hv & ok & ->)]].
    + repeat split; intros; congruence.
    + repeat split; intros; try congruence. now exists ok.
  - destruct H as (-> & Hi & I & Hv & ->).
    repeat split; intros; congruence.
Qed.

Section ChatResponses.

Context {W : Type}.
Variable svc : Services W.
Variable env : Env.
Implicit Types p : Process W.



End ChatResponses.


(** The requests that [answerLegalQuestion] never sees: an unreadable
    body and a number as question are answered with 500, a missing
    question with 400; once the process is initialised none of them makes
    a call. *)
Example chat_requests_without_a_string :
  let p := snd (chatPOST emptyIndex sampleEnv (Body (QString (Js.lit "x")))
                  (freshProcess tt)) in
  let answered request :=
    let '(r, p') := chatPOST emptyIndex sampleEnv request p in
    (option_map status (match r with Ok resp => Some resp | _ => None end),
     length (calls p') - length (calls p)) in
  answered (BodyUnreadable (mkError (Js.lit "Unexpected end of JSON input")))
  = (Some 500, 0)
  /\ answered (Body QOther) = (Some 500, 0)
  /\ answered (Body QMissing) = (Some 400, 0).
Proof. vm_compute. repeat split. Qed.

(** ** The connection check and the status and health routes *)

Section StatusProperties.

Context {W : Type}.
Variable svc : Services W.
Variable env : Env.
Implicit Types p : Process W.

Lemma post_checkPineconeConnection p :
  post (checkPineconeConnection svc env) p
    (fun r p' =>
       exists b cs,
         r = Ok b /\ extends p p' cs []
         /\ ((envConfigured env = false /\ b = false /\ cs = [])
             \/ (envConfigured env = true /\ cs = [statsCall b]))).
Proof.
  unfold checkPineconeConnection.
  apply post_tryCatch, post_bind.
  destruct (envConfigured env) eqn:Hc.
  - apply post_getPineconeIndex; [assumption|]. intros p1 E1.
    apply post_bind, post_callService.
    + intros stats p2 E2.
      apply post_bind, post_log; [reflexivity|]. intros p3 E3.
      apply post_ret. exists true, [statsCall true]. split; [reflexivity|].
      split; [eauto using extends_quiet, extends_then_quiet | right; auto].
    + intros e p2 E2.
      apply post_bind, post_log; [reflexivity|]. intros p3 E3.
      apply post_ret. exists false, [statsCall false]. split; [reflexivity|].
      split; [eauto using extends_quiet, extends_then_quiet | right; auto].
  - destruct (getPineconeIndex_unconfigured env p Hc) as [e E].
    eapply post_of_eq; [exact E|].
    apply post_bind, post_log; [reflexivity|]. intros p3 E3.
    apply post_ret. exists false, []. split; [reflexivity|].
    split; [assumption | left; auto].
Qed.

Lemma post_statusGET p :
  post (statusGET svc env) p
    (fun r p' =>
       exists resp cs,
         r = Ok resp /\ extends p p' cs [] /\ statusOutcome env resp cs).
Proof.
  unfold statusGET, statusOutcome.
  apply post_tryCatch, post_bind, post_log; [reflexivity|]. intros p0 E0.
  apply post_bind.
  destruct (validateEnvironment_run W env p0) as (v & Ev & Hv & _ & He).
  eapply post_of_eq; [exact Ev|]. cbv beta iota.
  destruct (valid v) eqn:Hvalid; cbn [negb].
  - symmetry in Hv. pose proof (envValid_configured env Hv) as Hc.
    apply post_tryCatch, post_bind, post_getPineconeIndex; [assumption|].
    intros p1 E1. apply post_bind, post_callService.
    + intros stats p2 E2.
      apply post_bind, post_log; [reflexivity|]. intros p3 E3.
      apply post_ret. eexists _, [statsCall true]. split; [reflexivity|].
      split; [eauto using extends_quiet, extends_then_quiet|].
      split; [reflexivity|]. right. split; [assumption|]. exists true.
      repeat split; discriminate.
    + intros e p2 E2.
      apply post_bind, post_log; [reflexivity|]. intros p3 E3.
      apply post_ret. eexists _, [statsCall false]. split; [reflexivity|].
      split; [eauto using extends_quiet, extends_then_quiet|].
      split; [reflexivity|]. right. split; [assumption|]. exists false.
      repeat split.
  - destruct (He eq_refl) as [e Ee].
    apply post_bind, post_log; [reflexivity|]. intros p1 E1.
    apply post_ret. eexists _, []. split; [reflexivity|].
    split; [eauto using extends_quiet|].
    split; [reflexivity|]. left. split; [congruence|].
    repeat split. exists e. simpl. now rewrite Ee.
Qed.

Lemma post_healthGET p :
  post (healthGET svc env) p
    (fun r p' =>
       exists code report cs,
         r = Ok (HealthReport code report) /\ extends p p' cs []
         /\ healthOutcome env code report cs).
Proof.
  unfold healthGET, healthOutcome.
  apply post_tryCatch, post_bind, post_log; [reflexivity|]. intros p0 E0.
  apply post_bind.
  destruct (validateEnvironment_run W env p0) as (v & Ev & Hv & Hok & He).
  eapply post_of_eq; [exact Ev|]. cbv beta iota.
  destruct (valid v) eqn:Hvalid.
  - symmetry in Hv. pose proof (envValid_configured env Hv) as Hc.
    rewrite (Hok eq_refl).
    apply post_bind, post_tryCatch, post_bind.
    eapply post_mono; [apply post_checkPineconeConnection|].
    intros r p1 (b & cs & -> & E1 & [(Hn & _) | (_ & ->)]); [congruence|].
    destruct b.
    + apply post_tryCatch, post_bind, post_getPineconeIndex; [assumption|].
      intros p2 E2. apply post_bind, post_callService.
      * intros stats p3 E3. apply post_ret.
        apply post_bind, post_log; [reflexivity|]. intros p4 E4.
        apply post_ret. eexists _, _, [statsCall true; statsCall true].
        split; [reflexivity|]. split.
        { pose proof (extends_quiet _ _ _ _ _ E0 E1) as Ea.
          pose proof (extends_then_quiet _ _ _ _ _ Ea E2) as Eb.
          pose proof (extends_trans _ _ _ _ _ _ _ Eb E3) as Ec.
          exact (extends_then_quiet _ _ _ _ _ Ec E4). }
        simpl. rewrite Hv. split; [reflexivity|]. split; [reflexivity|].
        right. right. split; [reflexivity|]. eexists true, _.
        repeat split. discriminate.
      * intros e p3 E3.
        apply post_bind, post_log; [reflexivity|]. intros p4 E4.
        apply post_ret.
        apply post_bind, post_log; [reflexivity|]. intros p5 E5.
        apply post_ret. eexists _, _, [statsCall true; statsCall false].
        split; [reflexivity|]. split.
        { pose proof (extends_quiet _ _ _ _ _ E0 E1) as Ea.
          pose proof (extends_then_quiet _ _ _ _ _ Ea E2) as Eb.
          pose proof (extends_trans _ _ _ _ _ _ _ Eb E3) as Ec.
          pose proof (extends_then_quiet _ _ _ _ _ Ec E4) as Ed.
          exact (extends_then_quiet _ _ _ _ _ Ed E5). }
        simpl. rewrite Hv. split; [reflexivity|]. split; [reflexivity|].
        right. right. split; [reflexivity|]. eexists false, _.
        repeat split.
    + apply post_ret.
      apply post_bind, post_log; [reflexivity|]. intros p4 E4.
      apply post_ret. eexists _, _, [statsCall false].
      split; [reflexivity|].
      split; [eauto using extends_quiet, extends_then_quiet|].
      simpl. rewrite Hv. split; [reflexivity|]. split; [reflexivity|].
      right. left. repeat split.
  - destruct (He eq_refl) as [e Ee]. rewrite Ee.
    apply post_bind, post_ret.
    apply post_bind, post_log; [reflexivity|]. intros p4 E4.
    apply post_ret. eexists _, _, [].
    split; [reflexivity|].
    split; [eauto using extends_quiet, extends_then_quiet|].
    simpl. rewrite <- Hv. split; [reflexivity|]. split; [reflexivity|].
    left. repeat split. now exists e.
Qed.

End StatusProperties.

(** X18. [checkPineconeConnection] never throws.  When a required
    variable is missing it answers [false] without calling anything;
    otherwise it asks for the index statistics exactly once and answers
    whether that call succeeded. *)
Theorem checkPineconeConnection_verdict
    (W : Type) (svc : Services W) (env : Env) (p : Process W) :
  exists b p' cs,
    checkPineconeConnection svc env p = (Ok b, p')
    /\ calls p' = calls p ++ cs
    /\ (envConfigured env = false -> b = false /\ cs = [])
    /\ (envConfigured env = true -> cs = [statsCall b]).
Proof.
  destruct (proj1 (post_exists _ _ _) (post_checkPineconeConnection svc env p))
    as (r & p' & E & b & cs & -> & [C _] & H).
  exists b, p', cs. split; [exact E|]. split; [exact C|].
  destruct H as [(Hc & -> & ->) | (Hc & ->)]; split; intros; auto; congruence.
Qed.

(** X19. The Pinecone status route always answers with status 200: its
    500 answer is never given, whatever the services do.  With an invalid
    environment it calls nothing and answers [configured: false],
    [vectorCount: 0] and the one validation error.  With a valid
    environment it asks for the index statistics exactly once and answers
    [configured] as that call went; when the call failed the count is 0
    and the error is "Failed to connect to Pinecone index". *)
Theorem statusGET_always_200
    (W : Type) (svc : Services W) (env : Env) (p : Process W) :
  exists resp p' cs,
    statusGET svc env p = (Ok resp, p')
    /\ calls p' = calls p ++ cs
    /\ st_status resp = 200
    /\ ((envValid env = false /\ cs = []
         /\ sb_configured (st_body resp) = false
         /\ sb_vectorCount (st_body resp) = 0
         /\ exists e, sb_errors (st_body resp) = Some [e])
        \/ (envValid env = true
            /\ exists ok,
                 cs = [statsCall ok]
                 /\ sb_configured (st_body resp) = ok
                 /\ sb_errors (st_body resp) = None
                 /\ (ok = false ->
                     sb_vectorCount (st_body resp) = 0
                     /\ sb_error (st_body resp)
                        = Some (Js.lit "Failed to connect to Pinecone index")))).
Proof.
  destruct (proj1 (post_exists _ _ _) (post_statusGET svc env p))
    as (r & p' & E & resp & cs & -> & [C _] & H1 & H2).
  now exists resp, p', cs.
Qed.

(** X20. The health route always answers with a report, never with its
    500 answer.  The environment and OpenAI checks of the report are both
    exactly the verdict of the environment validation: no OpenAI service
    is called.  With an invalid environment nothing is called and the
    report is "degraded" with status 503.  With a valid environment the
    index statistics are asked once; if that fails the report is
    "degraded" with 503; if it succeeds they are asked a second time and
    the report is "healthy" with 200 and a vector count, which is 0 when
    the second call fails. *)
Theorem healthGET_report
    (W : Type) (svc : Services W) (env : Env) (p : Process W) :
  exists code report p' cs,
    healthGET svc env p = (Ok (HealthReport code report), p')
    /\ calls p' = calls p ++ cs
    /\ hb_environment_ok report = envValid env
    /\ hb_openai_ok report = envValid env
    /\ ((envValid env = false /\ cs = [] /\ code = 503
         /\ hb_status report = Js.lit "degraded"
         /\ hb_pinecone_ok report = false
         /\ hb_pinecone_vectorCount report = None
         /\ exists e, hb_environment_errors report = Some [e])
        \/ (envValid env = true /\ cs = [statsCall false] /\ code = 503
            /\ hb_status report = Js.lit "degraded"
            /\ hb_pinecone_ok report = false
            /\ hb_pinecone_vectorCount report = None
            /\ hb_environment_errors report = None)
        \/ (envValid env = true
            /\ exists ok n,
                 cs = [statsCall true; statsCall ok] /\ code = 200
                 /\ hb_status report = Js.lit "healthy"
                 /\ hb_pinecone_ok report = true
                 /\ hb_pinecone_vectorCount report = Some n
                 /\ hb_environment_errors report = None
                 /\ (ok = false -> n = 0))).
Proof.
  destruct (proj1 (post_exists _ _ _) (post_healthGET svc env p))
    as (r & p' & E & code & report & cs & -> & [C _] & H1 & H2 & H3).
  now exists code, report, p', cs.
Qed.

(** ** The upload route *)

Lemma chunkFileText_total (now : nat) (uploadedAt : nat -> Js.str)
    (fileName rawText : Js.str) :
  exists docs,
    chunkFileText now uploadedAt fileName rawText = Some docs
    /\ Js.nonWhite (concat (map ud_text docs)) = Js.nonWhite rawText.
Proof.
  destruct (chunkText_facts rawText 1500) as (chunks & E & _ & _ & Hn); [lia|].
  unfold chunkFileText, chunkText_default. rewrite E.
  eexists. split; [reflexivity|].
  now rewrite mapFrom_texts by reflexivity.
Qed.

Lemma fileDocuments_cons_readable (file : UploadFile) (rest : list UploadFile)
    (rawText : Js.str) (docs : list UploadedDoc) :
  uf_text file = inr rawText ->
  chunkFileText (uf_now file) (uf_uploadedAt file) (uf_name file) rawText = Some docs ->
  fileDocuments (file :: rest) = docs ++ fileDocuments rest.
Proof. intros Ht Ed. unfold fileDocuments. simpl. now rewrite Ht, Ed. Qed.

Lemma fileDocuments_content (files : list UploadFile) :
  Js.nonWhite (concat (map ud_text (fileDocuments files)))
  = Js.nonWhite (concat (fileTexts files)).
Proof.
  induction files as [|file files IH]; [reflexivity|].
  unfold fileDocuments, fileTexts in *. simpl.
  destruct (uf_text file) as [e|rawText]; simpl; [exact IH|].
  destruct (chunkFileText_total (uf_now file) (uf_uploadedAt file) (uf_name file)
              rawText) as (docs & -> & Hn).
  now rewrite map_app, concat_app, !nonWhite_app, Hn, IH.
Qed.

Section UploadRouteProperties.

Context {W : Type}.
Variable svc : Services W.
Variable env : Env.
Implicit Types p : Process W.

Lemma post_readFiles (files : list UploadFile) (allDocs : list UploadedDoc) p
    (Q : Result (list UploadedDoc) -> Process W -> Prop) :
  (firstRejection files = None -> Q (Ok (allDocs ++ fileDocuments files)) p) ->
  (forall e, firstRejection files = Some e -> Q (Thrown e) p) ->
  post (readFiles files allDocs) p Q.
Proof.
  revert allDocs. induction files as [|file files IH]; intros allDocs Hok Hko.
  - apply post_ret. rewrite <- (app_nil_r allDocs). now apply Hok.
  - cbn [readFiles firstRejection] in *. apply post_bind.
    destruct (uf_text file) as [e|rawText] eqn:Ht.
    + apply post_throw. now apply Hko.
    + apply post_ret.
      destruct (chunkFileText_total (uf_now file) (uf_uploadedAt file)
                  (uf_name file) rawText) as (docs & Ed & _).
      rewrite Ed. apply IH.
      * intros Hn. rewrite <- app_assoc,
          <- (fileDocuments_cons_readable file files rawText docs Ht Ed).
        now apply Hok.
      * exact Hko.
Qed.

Lemma post_uploadPOST (request : UploadRequest) p :
  post (uploadPOST svc env request) p
    (fun r p' =>
       exists resp cs es,
         r = Ok resp /\ extends p p' cs es /\ uploadOutcome env request resp cs).
Proof.
  unfold uploadPOST, uploadOutcome, pineconeConfigured.
  apply post_tryCatch.
  rewrite <- negb_andb.
  destruct (isSet (PINECONE_API_KEY env) && isSet (PINECONE_INDEX env)) eqn:Hp;
    cbn [negb].
  2:{ apply post_ret. eexists _, [], []. split; [reflexivity|].
      split; [apply extends_refl|]. split; [auto | discriminate]. }
  apply post_bind.
  destruct request as [e|files].
  { apply post_throw, post_ret. eexists _, [], []. split; [reflexivity|].
    split; [apply extends_refl|]. split; [discriminate | auto]. }
  apply post_ret.
  destruct files as [|f files]; cbv beta iota.
  { apply post_ret. eexists _, [], []. split; [reflexivity|].
    split; [apply extends_refl|]. split; [discriminate | auto]. }
  remember (f :: files) as fs eqn:Efs.
  apply post_bind, post_readFiles.
  2:{ intros e He. apply post_ret. eexists _, [], []. split; [reflexivity|].
      split; [apply extends_refl|]. split; [discriminate|]. intros _.
      rewrite He. auto. }
  intros Hn. cbn [app].
  pose proof (fileDocuments_content fs) as Hcontent.
  destruct (isSet (OPENAI_API_KEY env)) eqn:Ho.
  - assert (Hc : envConfigured env = true).
    { unfold envConfigured. rewrite Ho. exact Hp. }
    apply post_bind.
    eapply post_mono; [apply (post_uploadDocuments svc env Hc)|].
    intros r p1 (res & es & cs & -> & E1 & Hin & Hu & _ & _ & Hle & _).
    apply post_ret. eexists _, cs, es. split; [reflexivity|].
    split; [assumption|]. split; [discriminate|]. intros _.
    rewrite Hn. split; [exact Hcontent|].
    split; [|discriminate]. intros _.
    split; [now rewrite Hu|]. split; [now rewrite <- Hu|].
    rewrite Hin, <- concat_map, batchesOf_concat by lia. reflexivity.
  - assert (Hc : envConfigured env = false).
    { unfold envConfigured. now rewrite Ho. }
    destruct (fileDocuments fs) as [|d docs'] eqn:Edocs.
    + unfold uploadDocumentsToPinecone.
      apply post_bind, post_bind, post_log; [reflexivity|]. intros p1 E1.
      do 2 apply post_ret. eexists _, [], []. split; [reflexivity|].
      split; [assumption|]. split; [discriminate|]. intros _.
      rewrite Hn. split; [exact Hcontent|].
      split; [discriminate|]. intros _. split; [reflexivity|].
      left. split; reflexivity.
    + unfold uploadDocumentsToPinecone.
      apply post_bind, post_bind, post_log; [reflexivity|]. intros p1 E1.
      apply post_bind.
      destruct (getPineconeIndex_unconfigured env p1 Hc) as [e E].
      eapply post_of_eq; [exact E|].
      apply post_ret. eexists _, [], []. split; [reflexivity|].
      split; [assumption|]. split; [discriminate|]. intros _.
      rewrite Hn. split; [exact Hcontent|].
      split; [discriminate|]. intros _. split; [reflexivity|].
      right. split; [discriminate | reflexivity].
Qed.

End UploadRouteProperties.

(** X21. The upload route answers every request and never throws.
    - Without [PINECONE_API_KEY] or [PINECONE_INDEX]: status 500,
      "Pinecone is not configured...", nothing called, whatever the
      request.
    - Otherwise, when the form cannot be read or, with at least one
      file, a file cannot be read: status 500, "Failed to upload
      documents to Pinecone.", nothing called.
    - With a readable form without files: status 400, nothing called.
    - With readable files, whose chunks hold every non-whitespace
      character of every file, and the OpenAI key set: status 200 with
      [ok: true], [fileCount] the number of files and [uploadedChunks]
      the number of vectors of the upserts that succeeded, whatever
      failed on the way; the texts sent for embedding are, in order, the
      chunks of the files, each once.
    - With readable files but no OpenAI key: nothing is called; the
      answer is 200 with 0 chunks when the files have no text, and the
      500 above otherwise. *)
Theorem uploadPOST_responses
    (W : Type) (svc : Services W) (env : Env) (p : Process W)
    (request : UploadRequest) :
  exists resp p' cs,
    uploadPOST svc env request p = (Ok resp, p')
    /\ calls p' = calls p ++ cs
    /\ (pineconeConfigured env = false ->
        resp = UploadRefused 500
                 (Js.lit "Pinecone is not configured. Please set PINECONE_API_KEY and PINECONE_INDEX.")
        /\ cs = [])
    /\ (pineconeConfigured env = true ->
        match request with
        | FormUnreadable e => resp = uploadFailed /\ cs = []
        | FormFiles [] =>
            resp = UploadRefused 400
                     (Js.lit "No files provided. Please attach at least one file under the 'files' field.")
            /\ cs = []
        | FormFiles files =>
            match firstRejection files with
            | Some e => resp = uploadFailed /\ cs = []
            | None =>
                let docs := fileDocuments files in
                Js.nonWhite (concat (map ud_text docs))
                = Js.nonWhite (concat (fileTexts files))
                /\ (isSet (OPENAI_API_KEY env) = true ->
                    resp = UploadOk (length files) (upsertedCount cs)
                    /\ upsertedCount cs <= length docs
                    /\ concat (embedInputs cs) = map ud_text docs)
                /\ (isSet (OPENAI_API_KEY env) = false ->
                    cs = []
                    /\ ((docs = [] /\ resp = UploadOk (length files) 0)
                        \/ (docs <> [] /\ resp = uploadFailed)))
            end
        end).
Proof.
  destruct (proj1 (post_exists _ _ _) (post_uploadPOST svc env request p))
    as (r & p' & E & resp & cs & es & -> & [C _] & H1 & H2).
  now exists resp, p', cs.
Qed.

(** A form that cannot be read and a file that cannot be read are both
    answered with status 500, and a form without files with 400, nothing
    being called. *)
Example upload_requests_without_readable_files :
  let answered request :=
    let '(r, p') := uploadPOST emptyIndex sampleEnv request (freshProcess tt) in
    (r, calls p') in
  let unreadable :=
    {| uf_name := Js.lit "a.txt";
       uf_text := inl (mkError (Js.lit "The requested file could not be read"));
       uf_now := 1; uf_uploadedAt := fun _ => Js.lit "2024-01-01T00:00:00.000Z" |} in
  answered (FormUnreadable (mkTypeError (Js.lit "Failed to parse body as FormData.")))
  = (Ok uploadFailed, [])
  /\ answered (FormFiles [unreadable]) = (Ok uploadFailed, [])
  /\ answered (FormFiles [])
     = (Ok (UploadRefused 400
              (Js.lit "No files provided. Please attach at least one file under the 'files' field.")),
        []).
Proof. vm_compute. repeat split. Qed.

(** ** More on [chunkText]: a size of zero, and the number of chunks *)

Lemma slice_empty (s : Js.str) (a : nat) : Js.slice s a a = [].
Proof.
  pose proof (slice_length s a a) as H. rewrite Nat.sub_diag in H.
  destruct (Js.slice s a a); [reflexivity | simpl in H; lia].
Qed.

Lemma chunkText_loop_stuck (fuel : nat) (text : Js.str) (start : nat)
    (chunks : list Js.str) :
  start < length text -> chunkText_loop fuel text 0 start chunks = None.
Proof.
  intros Hlt. revert chunks. induction fuel as [|fuel IH]; intros chunks; simpl;
    destruct (Nat.ltb_spec start (length text)) as [_|Hge]; try lia.
  - reflexivity.
  - rewrite Nat.add_0_r, Nat.min_l by lia. rewrite slice_empty. simpl. apply IH.
Qed.

(** X22. With [maxChars = 0] the loop of [chunkText] makes no progress
    on a text that is not empty: [start] stays where it is, so no number
    of iterations lets the function return. *)
Theorem chunkText_zero_size_never_returns (T : Js.str) (fuel : nat) :
  T <> [] ->
  chunkText_loop fuel T 0 0 [] = None /\ chunkText T 0 = None.
Proof.
  intros Hne.
  assert (Hlt : 0 < length T) by (destruct T; [congruence | simpl; lia]).
  split; [|unfold chunkText]; now apply chunkText_loop_stuck.
Qed.

Lemma chunkText_zero_size_never_returns_witness :
  chunkText_loop 1000 (Js.lit "theft") 0 0 [] = None
  /\ chunkText (Js.lit "theft") 0 = None.
Proof.
  apply (chunkText_zero_size_never_returns (Js.lit "theft") 1000).
  vm_compute. discriminate.
Defined.

Lemma chunkText_loop_count (text : Js.str) (maxChars : nat) (fuel start : nat)
    (chunks res : list Js.str) :
  0 < maxChars ->
  chunkText_loop fuel text maxChars start chunks = Some res ->
  (start < length text ->
   length res * maxChars + start < length chunks * maxChars + length text + maxChars)
  /\ (length text <= start -> res = chunks).
Proof.
  intros Hpos. revert start chunks.
  induction fuel as [|fuel IH]; intros start chunks; simpl;
    destruct (Nat.ltb_spec start (length text)) as [Hlt|Hge];
    try discriminate;
    try (intros E; injection E as <-; split; [lia | reflexivity]).
  set (end_ := Nat.min (start + maxChars) (length text)).
  set (chunk := Js.trim (Js.slice text start end_)).
  intros E. apply IH in E as [Hin Hout].
  assert (Hlen : length (if Js.truthy chunk then chunks ++ [chunk] else chunks)
                 <= length chunks + 1).
  { destruct (Js.truthy chunk); [rewrite length_app; simpl|]; lia. }
  split; [|lia]. intros _.
  destruct (Nat.lt_ge_cases end_ (length text)) as [Hlt'|Hge'].
  - specialize (Hin Hlt').
    assert (end_ = start + maxChars) by (unfold end_ in *; lia).
    nia.
  - rewrite (Hout Hge'). nia.
Qed.

(** X23. For a positive size [M], [chunkText] returns at most
    [ceil(length / M)] chunks: every turn of the loop consumes [M] code
    units of the text (the last one what is left) and adds at most one
    chunk. *)
Theorem chunkText_count_bound (T : Js.str) (M : nat) :
  0 < M ->
  exists chunks,
    chunkText T M = Some chunks /\ length chunks * M < length T + M.
Proof.
  intros Hpos.
  destruct (chunkText_facts T M Hpos) as (chunks & E & _).
  exists chunks. split; [exact E|].
  destruct (chunkText_loop_count T M (length T) 0 [] chunks Hpos E) as [Hin Hout].
  destruct (Nat.lt_ge_cases 0 (length T)) as [Hlt|Hge].
  - specialize (Hin Hlt). simpl in Hin. lia.
  - rewrite (Hout Hge). simpl. lia.
Qed.

Lemma chunkText_count_bound_witness :
  exists chunks,
    chunkText (Js.lit "aaa bbb ccc") 4 = Some chunks
    /\ length chunks * 4 < length (Js.lit "aaa bbb ccc") + 4.
Proof.
  apply (chunkText_count_bound (Js.lit "aaa bbb ccc") 4). lia.
Defined.

(** ** The vectors sent to the index *)

Lemma eqb_refl (s : Js.str) : Js.eqb s s = true.
Proof. induction s as [|c s IH]; simpl; [reflexivity|]. now rewrite N.eqb_refl. Qed.

Lemma eqb_eq (a b : Js.str) : Js.eqb a b = true -> a = b.
Proof.
  revert b. induction a as [|x a IH]; intros [|y b]; simpl; try discriminate.
  - reflexivity.
  - intros H. apply andb_prop in H as [Hx H]. apply N.eqb_eq in Hx.
    f_equal; auto.
Qed.

Lemma getField_setField_same (key : Js.str) (v : MetaValue) (m : Metadata) :
  getField key (setField key v m) = Some v.
Proof.
  induction m as [|[k w] m IH]; simpl.
  - now rewrite eqb_refl.
  - destruct (Js.eqb k key) eqn:E; simpl; rewrite E; [reflexivity | exact IH].
Qed.

Lemma getField_setField_other (key k : Js.str) (v : MetaValue) (m : Metadata) :
  k <> key -> getField k (setField key v m) = getField k m.
Proof.
  intros Hk. induction m as [|[k' w] m IH]; simpl.
  - destruct (Js.eqb key k) eqn:E; [|reflexivity].
    apply eqb_eq in E. congruence.
  - destruct (Js.eqb k' key) eqn:E; simpl.
    + destruct (Js.eqb k' k) eqn:E'; [|reflexivity].
      apply eqb_eq in E, E'. congruence.
    + now rewrite IH.
Qed.

Lemma carries_docVector (embeddings : list Embedding) (idx : nat) (doc : UploadedDoc) :
  carries 2000 (ud_id doc) (ud_text doc) (docMetadata doc)
    (docVector embeddings idx doc).
Proof.
  unfold carries, docVector, docMetadata. cbn [vr_id vr_metadata].
  split; [reflexivity|]. split; [apply getField_setField_same|].
  intros k Hk. now apply getField_setField_other.
Qed.

Lemma carries_chunkVector (limit : nat) (embeddings : list Embedding) (idx : nat)
    (chunk : Chunk) :
  carries limit (ch_id chunk) (ch_text chunk) (chunkFields (ch_metadata chunk))
    (chunkVector limit embeddings idx chunk).
Proof.
  unfold carries, chunkVector. cbn [vr_id vr_metadata].
  split; [reflexivity|]. split; [apply getField_setField_same|].
  intros k Hk. now apply getField_setField_other.
Qed.

Lemma mapFrom_Forall2 {A B} (R : A -> B -> Prop) (f : nat -> A -> B) (i : nat)
    (l : list A) :
  (forall k x, R x (f k x)) -> Forall2 R l (mapFrom f i l).
Proof.
  intros H. revert i. induction l as [|x l IH]; intros i; simpl; constructor; auto.
Qed.

Lemma upsertInputs_app (a b : list CallRecord) :
  upsertInputs (a ++ b) = upsertInputs a ++ upsertInputs b.
Proof.
  induction a as [|c a IH]; [reflexivity|].
  simpl. destruct (cr_call c); simpl; now rewrite IH.
Qed.

(** The upsert calls of a program are those of its parts. *)
Section Upserts.

Context {W : Type}.
Variable P : list VectorRecord -> Prop.

Lemma upsertsOnly_silent {A} (c : M W A) :
  (forall p, calls (snd (c p)) = calls p) -> upsertsOnly P c.
Proof.
  intros H p. exists []. rewrite H, app_nil_r. split; [reflexivity | constructor].
Qed.

Lemma upsertsOnly_ret {A} (a : A) : upsertsOnly P (ret a : M W A).
Proof. now apply upsertsOnly_silent. Qed.

Lemma upsertsOnly_throw {A} (e : Exn) : upsertsOnly P (throw e : M W A).
Proof. now apply upsertsOnly_silent. Qed.

Lemma upsertsOnly_outOfFuel {A} : upsertsOnly P (outOfFuel : M W A).
Proof. now apply upsertsOnly_silent. Qed.

Lemma upsertsOnly_log (module : Js.str) (level : LogLevel) (message : Js.str) :
  upsertsOnly P (log module level message : M W unit).
Proof. now apply upsertsOnly_silent. Qed.

Lemma upsertsOnly_get {A} (f : Process W -> A) : upsertsOnly P (get f).
Proof. now apply upsertsOnly_silent. Qed.

Lemma upsertsOnly_setOpenaiClient : upsertsOnly P (setOpenaiClient : M W unit).
Proof. now apply upsertsOnly_silent. Qed.

Lemma upsertsOnly_setPineconeClient : upsertsOnly P (setPineconeClient : M W unit).
Proof. now apply upsertsOnly_silent. Qed.

Lemma upsertsOnly_bind {A B} (c : M W A) (k : A -> M W B) :
  upsertsOnly P c -> (forall a, upsertsOnly P (k a)) -> upsertsOnly P (bind c k).
Proof.
  intros Hc Hk p. unfold bind.
  destruct (Hc p) as (cs1 & C1 & F1).
  destruct (c p) as [[a|e|] p1]; simpl in *; [|now exists cs1..].
  destruct (Hk a p1) as (cs2 & C2 & F2).
  exists (cs1 ++ cs2). rewrite C2, C1, app_assoc. split; [reflexivity|].
  rewrite upsertInputs_app. now apply Forall_app.
Qed.

Lemma upsertsOnly_tryCatch {A} (body : M W A) (handler : Exn -> M W A) :
  upsertsOnly P body -> (forall e, upsertsOnly P (handler e)) ->
  upsertsOnly P (tryCatch body handler).
Proof.
  intros Hc Hk p. unfold tryCatch.
  destruct (Hc p) as (cs1 & C1 & F1).
  destruct (body p) as [[a|e|] p1]; simpl in *; [now exists cs1| |now exists cs1].
  destruct (Hk e p1) as (cs2 & C2 & F2).
  exists (cs1 ++ cs2). rewrite C2, C1, app_assoc. split; [reflexivity|].
  rewrite upsertInputs_app. now apply Forall_app.
Qed.

Lemma upsertsOnly_callService {A} (c : ExternalCall) (f : W -> (Exn + A) * W) :
  match c with IndexUpsert vectors => P vectors | _ => True end ->
  upsertsOnly P (callService c f).
Proof.
  intros H p. unfold callService.
  destruct (f (world p)) as [[e|a] w']; simpl;
    (eexists [_]; split; [reflexivity|]);
    destruct c; simpl; auto.
Qed.

Lemma upsertsOnly_upsert {A} (vectors : list VectorRecord)
    (f : W -> (Exn + A) * W) :
  P vectors -> upsertsOnly P (callService (IndexUpsert vectors) f).
Proof. intros H. now apply upsertsOnly_callService. Qed.

Lemma upsertsOnly_ext {A} (c c' : M W A) :
  (forall p, c p = c' p) -> upsertsOnly P c' -> upsertsOnly P c.
Proof. intros E H p. rewrite E. apply H. Qed.

(** A step that ends by returning a value known beforehand. *)
Lemma upsertsOnly_bind_ret {A B} (c : M W unit) (a : A) (k : A -> M W B) :
  upsertsOnly P c -> upsertsOnly P (k a) ->
  upsertsOnly P (bind (bind c (fun _ => ret a)) k).
Proof.
  intros Hc Hk p.
  assert (E : bind (bind c (fun _ => ret a)) k p = bind c (fun _ => k a) p).
  { unfold bind, ret. destruct (c p) as [[[]|e|] p1]; reflexivity. }
  rewrite E. apply upsertsOnly_bind; [assumption | intros _; exact Hk].
Qed.

End Upserts.

Create HintDb upserts.

Ltac upserts :=
  repeat first
    [ simple apply upsertsOnly_ret | simple apply upsertsOnly_throw
    | simple apply upsertsOnly_outOfFuel
    | simple apply upsertsOnly_log | simple apply upsertsOnly_get
    | simple apply upsertsOnly_setOpenaiClient
    | simple apply upsertsOnly_setPineconeClient
    | simple apply upsertsOnly_bind; [|intros ?]
    | simple apply upsertsOnly_tryCatch; [|intros ?]
    | solve [auto with upserts]
    | simple apply upsertsOnly_callService; exact I
    | simple apply upsertsOnly_upsert; solve [auto]
    | progress unfold validateEnvVar
    | match goal with
      | |- upsertsOnly _ (if ?b then _ else _) => destruct b
      | |- upsertsOnly _ (match ?x with _ => _ end) => destruct x
      | |- upsertsOnly _ (let '(_, _) := ?x in _) => destruct x
      end ].

Section UpsertedVectors.

Context {W : Type}.
Variable svc : Services W.
Variable env : Env.
Variable P : list VectorRecord -> Prop.

Lemma upsertsOnly_getEnvConfig : upsertsOnly P (getEnvConfig env : M W _).
Proof. unfold getEnvConfig. upserts. Qed.

#[local] Hint Resolve upsertsOnly_getEnvConfig : upserts.

Lemma upsertsOnly_validateEnvironment :
  upsertsOnly P (validateEnvironment env : M W _).
Proof. unfold validateEnvironment. upserts. Qed.

Lemma upsertsOnly_getPineconeIndex : upsertsOnly P (getPineconeIndex env : M W _).
Proof. unfold getPineconeIndex, getPineconeClient. upserts. Qed.

Lemma upsertsOnly_embedTexts (texts : list Js.str) :
  upsertsOnly P (embedTexts svc env texts).
Proof. unfold embedTexts, getOpenAIClient. upserts. Qed.

Lemma upsertsOnly_logAll (module : Js.str) (level : LogLevel) (messages : list Js.str) :
  upsertsOnly P (logAll module level messages : M W unit).
Proof. induction messages; simpl; upserts. Qed.

#[local] Hint Resolve upsertsOnly_validateEnvironment upsertsOnly_getPineconeIndex
  upsertsOnly_embedTexts upsertsOnly_logAll : upserts.

Lemma upsertsOnly_deleteAllVectors : upsertsOnly P (deleteAllVectors svc env).
Proof. unfold deleteAllVectors. upserts. Qed.

#[local] Hint Resolve upsertsOnly_deleteAllVectors : upserts.

Lemma upsertsOnly_uploadLoop (docs : list UploadedDoc) (fuel i n : nat)
    (errs : list Js.str) :
  (forall j embeddings,
      P (mapFrom (docVector embeddings) 0 (sliceList docs j (j + 50)))) ->
  upsertsOnly P (uploadLoop svc env fuel docs i n errs).
Proof.
  intros HP. revert i n errs.
  induction fuel as [|fuel IH]; intros i n errs; cbn [uploadLoop];
    unfold uploadBatch; destruct (i <? length docs); upserts.
Qed.

Lemma upsertsOnly_uploadDocuments (docs : list UploadedDoc) :
  (forall j embeddings,
      P (mapFrom (docVector embeddings) 0 (sliceList docs j (j + 50)))) ->
  upsertsOnly P (uploadDocumentsToPinecone svc env docs).
Proof.
  intros HP. unfold uploadDocumentsToPinecone.
  destruct docs as [|d docs']; [upserts|].
  remember (d :: docs') as docs.
  upserts. now apply upsertsOnly_uploadLoop.
Qed.

Lemma upsertsOnly_routeLoop (chunks : list Chunk) (fuel i n : nat) :
  (forall j embeddings,
      P (mapFrom (chunkVector 1000 embeddings) 0 (sliceList chunks j (j + 50)))) ->
  upsertsOnly P (routeLoop svc env fuel chunks i n).
Proof.
  intros HP. revert i n.
  induction fuel as [|fuel IH]; intros i n; cbn [routeLoop];
    unfold routeBatch; destruct (i <? length chunks); upserts.
Qed.

Lemma upsertsOnly_indexPOST (request : IndexRequest) (dataset : LoadOutcome) :
  (forall j embeddings,
      P (mapFrom (chunkVector 1000 embeddings) 0
           (sliceList (chunkAndPrepareDocuments (datasetDocuments dataset) 800)
              j (j + 50)))) ->
  upsertsOnly P (indexPOST svc env request dataset).
Proof.
  intros HP. unfold indexPOST.
  apply upsertsOnly_tryCatch; [|intros e; upserts].
  apply upsertsOnly_bind; [destruct request; upserts|]. intros clearExisting.
  apply upsertsOnly_bind; [upserts|]. intros _.
  apply upsertsOnly_bind; [upserts|]. intros v.
  destruct (negb (valid v)); [upserts|].
  apply upsertsOnly_bind; [destruct clearExisting; upserts|].
  intros _. apply upsertsOnly_bind; [upserts|]. intros _.
  destruct dataset as [infos documents | infos failure e]; unfold loadAllDocuments.
  2:{ match goal with
      | |- upsertsOnly _ (bind ?c ?k) =>
          apply (upsertsOnly_ext P (bind c k)
                   (bind (logAll (Js.lit "Indexer") INFO infos)
                      (fun _ => bind match failure with
                                     | Some message => log (Js.lit "Indexer") ERROR message
                                     | None => ret tt
                                     end
                                  (fun _ => throw e))))
      end.
      - intros p. unfold bind, throw.
        destruct (logAll (Js.lit "Indexer") INFO infos p) as [[[]|e'|] p1];
          [|reflexivity..].
        destruct failure; reflexivity.
      - upserts. }
  apply upsertsOnly_bind_ret; [upserts|].
  destruct documents as [|d documents]; [upserts|].
  remember (d :: documents) as docs. cbn [datasetDocuments] in HP.
  pose proof (fun fuel i n =>
                upsertsOnly_routeLoop
                  (chunkAndPrepareDocuments docs chunkAndPrepareDocuments_default)
                  fuel i n HP) as Hloop.
  upserts.
Qed.

Lemma upsertsOnly_indexToPinecone (chunks : list Chunk) (batchSize : nat) :
  (forall j embeddings,
      P (mapFrom (chunkVector 2000 embeddings) 0
           (sliceList chunks j (j + batchSize)))) ->
  upsertsOnly P (indexToPinecone svc env chunks batchSize).
Proof.
  intros HP.
  assert (Hloop : forall fuel i n,
             upsertsOnly P (scriptLoop svc env fuel chunks batchSize i n)).
  { induction fuel as [|fuel IH]; intros i n; cbn [scriptLoop];
      unfold scriptBatch; destruct (i <? length chunks); upserts. }
  unfold indexToPinecone. upserts.
Qed.

End UpsertedVectors.

(** X24. The vectors sent to the index.  Every upsert call made by
    [uploadDocumentsToPinecone], by the indexing route and by the
    script's [indexToPinecone], whatever the services answer, carries
    the vectors of one batch, position by position: each vector has the
    identifier of its document or chunk; its [text] field is the text cut
    to 2000 code units in [uploadDocumentsToPinecone] and in the script
    and to 1000 in the route, also when the metadata it was built from
    had a [text] field of its own; and every other field is the one of
    the document's metadata or of the chunk's. *)
Theorem upserted_vectors_carry_text
    (W : Type) (svc : Services W) (env : Env) (p : Process W)
    (docs : list UploadedDoc) (request : IndexRequest) (dataset : LoadOutcome)
    (chunks : list Chunk) (batchSize : nat) :
  (exists cs,
      calls (snd (uploadDocumentsToPinecone svc env docs p)) = calls p ++ cs
      /\ Forall (fun vectors =>
                   exists j,
                     Forall2 (fun doc v =>
                                carries 2000 (ud_id doc) (ud_text doc)
                                  (docMetadata doc) v)
                       (sliceList docs j (j + 50)) vectors)
           (upsertInputs cs))
  /\ (exists cs,
         calls (snd (indexPOST svc env request dataset p)) = calls p ++ cs
         /\ Forall (fun vectors =>
                      exists j,
                        Forall2 (fun chunk v =>
                                   carries 1000 (ch_id chunk) (ch_text chunk)
                                     (chunkFields (ch_metadata chunk)) v)
                          (sliceList
                             (chunkAndPrepareDocuments (datasetDocuments dataset) 800)
                             j (j + 50)) vectors)
              (upsertInputs cs))
  /\ (exists cs,
         calls (snd (indexToPinecone svc env chunks batchSize p)) = calls p ++ cs
         /\ Forall (fun vectors =>
                      exists j,
                        Forall2 (fun chunk v =>
                                   carries 2000 (ch_id chunk) (ch_text chunk)
                                     (chunkFields (ch_metadata chunk)) v)
                          (sliceList chunks j (j + batchSize)) vectors)
              (upsertInputs cs)).
Proof.
  split; [|split].
  - apply upsertsOnly_uploadDocuments. intros j embeddings. exists j.
    apply mapFrom_Forall2. intros k doc. apply carries_docVector.
  - apply upsertsOnly_indexPOST. intros j embeddings. exists j.
    apply mapFrom_Forall2. intros k chunk. apply carries_chunkVector.
  - apply upsertsOnly_indexToPinecone. intros j embeddings. exists j.
    apply mapFrom_Forall2. intros k chunk. apply carries_chunkVector.
Qed.

(** Two documents whose texts are longer than the limits, one with a
    [text] field of its own: the one vector list upserted holds their
    texts cut to 2000 code units. *)
Example upserted_texts_are_cut :
  let long := repeat 97%N 2500 in
  let docs := [{| ud_id := Js.lit "a"; ud_text := long;
                  ud_metadata := Some [(Js.lit "text", MStr (Js.lit "other"))] |};
               {| ud_id := Js.lit "b"; ud_text := long; ud_metadata := None |}] in
  map (map (fun v => (vr_id v, getField (Js.lit "text") (vr_metadata v))))
    (upsertInputs
       (calls (snd (uploadDocumentsToPinecone emptyIndex sampleEnv docs
                      (freshProcess tt)))))
  = [[(Js.lit "a", Some (MStr (repeat 97%N 2000)));
      (Js.lit "b", Some (MStr (repeat 97%N 2000)))]].
Proof. vm_compute. reflexivity. Qed.

(** ** Ingestion without the configuration, and with a batch size of zero *)

Lemma validateEnvironment_missing (W : Type) (env : Env) (p : Process W)
    (name : Js.str) :
  firstMissing env = Some name ->
  validateEnvironment env p
  = (Ok {| valid := false; validation_errors := [missingVariable name] |}, p).
Proof.
  unfold firstMissing, validateEnvironment, getEnvConfig, validateEnvVar, tryCatch,
    bind, throw, ret, missingVariable.
  destruct (isSet (OPENAI_API_KEY env)); simpl;
    [|intros H; injection H as <-; reflexivity].
  destruct (isSet (PINECONE_API_KEY env)); simpl;
    [|intros H; injection H as <-; reflexivity].
  destruct (isSet (PINECONE_INDEX env)); simpl;
    [discriminate | intros H; injection H as <-; reflexivity].
Qed.

(** X25. When a required variable is missing, the three ingestion paths
    stop before any text is embedded or any service called, naming the
    first missing variable: [uploadDocumentsToPinecone] (on a list that
    is not empty) and the script's [indexToPinecone] throw the
    configuration error of [getPineconeIndex]; the indexing route, for a
    readable body, answers 400 "Environment configuration is invalid"
    with that error's message as its one error, whatever the dataset
    holds and whether or not clearing was asked for. *)
Theorem ingestion_needs_configuration
    (W : Type) (svc : Services W) (env : Env) (p : Process W) (name : Js.str)
    (docs : list UploadedDoc) (clearExisting : bool) (dataset : LoadOutcome)
    (chunks : list Chunk) (batchSize : nat) :
  firstMissing env = Some name ->
  docs <> [] ->
  (exists p',
      uploadDocumentsToPinecone svc env docs p
      = (Thrown (mkConfigurationError (missingVariable name)), p')
      /\ calls p' = calls p /\ world p' = world p)
  /\ (exists p',
         indexPOST svc env (IndexBody clearExisting) dataset p
         = (Ok (IndexingInvalid [missingVariable name]), p')
         /\ calls p' = calls p /\ world p' = world p)
  /\ (exists p',
         indexToPinecone svc env chunks batchSize p
         = (Thrown (mkConfigurationError (missingVariable name)), p')
         /\ calls p' = calls p /\ world p' = world p).
Proof.
  intros Hm Hd. split; [|split].
  - destruct docs as [|d docs]; [congruence|].
    unfold uploadDocumentsToPinecone, bind at 1 2. unfold log at 1. cbv beta iota.
    rewrite (getPineconeIndex_missing W env _ name Hm).
    eexists. split; [reflexivity|]. split; reflexivity.
  - unfold indexPOST, tryCatch, bind at 1 2 3. unfold ret at 1. unfold log at 1.
    cbv beta iota.
    rewrite (validateEnvironment_missing W env _ name Hm). cbv beta iota.
    eexists. split; [reflexivity|]. split; reflexivity.
  - unfold indexToPinecone, bind at 1.
    rewrite (getPineconeIndex_missing W env _ name Hm).
    eexists. split; [reflexivity|]. split; reflexivity.
Qed.

Lemma ingestion_needs_configuration_witness :
  (exists p',
      uploadDocumentsToPinecone emptyIndex openaiOnlyEnv (sampleDocs 2) (freshProcess tt)
      = (Thrown (mkConfigurationError (missingVariable (Js.lit "PINECONE_API_KEY"))), p')
      /\ calls p' = calls (freshProcess tt) /\ world p' = world (freshProcess tt))
  /\ (exists p',
         indexPOST emptyIndex openaiOnlyEnv (IndexBody true)
           (Loaded [] (sampleSections 2)) (freshProcess tt)
         = (Ok (IndexingInvalid [missingVariable (Js.lit "PINECONE_API_KEY")]), p')
         /\ calls p' = calls (freshProcess tt) /\ world p' = world (freshProcess tt))
  /\ (exists p',
         indexToPinecone emptyIndex openaiOnlyEnv (sampleChunks 2) 50 (freshProcess tt)
         = (Thrown (mkConfigurationError (missingVariable (Js.lit "PINECONE_API_KEY"))), p')
         /\ calls p' = calls (freshProcess tt) /\ world p' = world (freshProcess tt)).
Proof.
  apply (ingestion_needs_configuration unit emptyIndex openaiOnlyEnv (freshProcess tt)
           (Js.lit "PINECONE_API_KEY") (sampleDocs 2) true
           (Loaded [] (sampleSections 2)) (sampleChunks 2) 50).
  - reflexivity.
  - vm_compute. discriminate.
Defined.

Lemma post_any (W A : Type) (c : M W A) (p : Process W)
    (Q : Result A -> Process W -> Prop) :
  (forall r p', Q r p') -> post c p Q.
Proof. intros H. apply H. Qed.

Lemma scriptLoop_zero_batch (W : Type) (svc : Services W) (env : Env)
    (chunks : list Chunk) (fuel i totalIndexed : nat) (p : Process W) :
  i < length chunks ->
  post (scriptLoop svc env fuel chunks 0 i totalIndexed) p
    (fun r _ => forall n, r <> Ok n).
Proof.
  intros Hlt. revert totalIndexed p.
  induction fuel as [|fuel IH]; intros totalIndexed p; simpl;
    destruct (Nat.ltb_spec i (length chunks)) as [_|Hge]; try lia.
  - intros n. discriminate.
  - rewrite Nat.add_0_r. apply post_bind, post_any.
    intros [m|e|] p'; [apply IH | |]; intros n; discriminate.
Qed.

(** X26. With a batch size of 0 and at least one chunk, the loop of the
    indexing script never gets past its first position ([i += 0]): no
    number of iterations lets [indexToPinecone] return a count; it can
    only end by throwing. *)
Theorem indexToPinecone_zero_batch_never_completes
    (W : Type) (svc : Services W) (env : Env) (p : Process W)
    (chunks : list Chunk) (fuel n : nat) :
  chunks <> [] ->
  fst (scriptLoop svc env fuel chunks 0 0 0 p) <> Ok n
  /\ fst (indexToPinecone svc env chunks 0 p) <> Ok n.
Proof.
  intros Hne.
  assert (Hlt : 0 < length chunks) by (destruct chunks; [congruence | simpl; lia]).
  split.
  - exact (scriptLoop_zero_batch W svc env chunks fuel 0 0 p Hlt n).
  - assert (H : post (indexToPinecone svc env chunks 0) p (fun r _ => forall n, r <> Ok n)).
    { unfold indexToPinecone. apply post_bind, post_any.
      intros [[]|e|] p1; [|intros m; discriminate..].
      apply post_bind, post_any.
      intros [[]|e|] p2; [|intros m; discriminate..].
      now apply scriptLoop_zero_batch. }
    exact (H n).
Qed.

Lemma indexToPinecone_zero_batch_never_completes_witness :
  fst (scriptLoop emptyIndex sampleEnv 100 (sampleChunks 3) 0 0 0 (freshProcess tt))
  <> Ok 3
  /\ fst (indexToPinecone emptyIndex sampleEnv (sampleChunks 3) 0 (freshProcess tt))
     <> Ok 3.
Proof.
  apply (indexToPinecone_zero_batch_never_completes unit emptyIndex sampleEnv
           (freshProcess tt) (sampleChunks 3) 100 3).
  vm_compute. discriminate.
Defined.
